(** * name_gen: a shallow embedding of [name_gen.py] and its properties

    The development follows the source file top to bottom: Python strings
    and the two library operations the generator relies on ([in] on
    strings, [re.search] on the restriction patterns), the weighted chooser
    [choose] with the float arithmetic of its index, the orthography tables and the [Orthography] class with its
    shared class-level dictionary, and finally [BasicLanguage] with its
    three pool registries and the four retry loops. *)

From Stdlib Require Import ZArith NArith QArith Qround Qpower Qabs Lia Lqa List
  String Ascii.
From stdpp Require Import base option list gmap.

Local Open Scope Z_scope.
Local Close Scope Q_scope.

(** ** Python strings

    A [str] is a sequence of Unicode code points; [len], iteration,
    slicing and [in] all work on code points, so this is what the model
    keeps.  A one-character string is a one-element list. *)

Abbreviation char := N (only parsing).
Abbreviation pystr := (list N) (only parsing).

(** ASCII literals of the source are written through [py]. *)
Definition py (s : string) : pystr :=
  List.map N_of_ascii (list_ascii_of_string s).

(** [b.startswith(a)], the inner step of the substring test. *)
Fixpoint is_prefix (a b : pystr) : bool :=
  match a, b with
  | [], _ => true
  | _ :: _, [] => false
  | x :: a', y :: b' => if N.eqb x y then is_prefix a' b' else false
  end.

(** [a in b] for two strings: [a] occurs in [b] as a contiguous block. *)
Fixpoint py_in (a b : pystr) : bool :=
  is_prefix a b ||
  match b with
  | [] => false
  | _ :: b' => py_in a b'
  end.

(** The mathematical notion [py_in] decides. *)
Definition substring (a b : pystr) : Prop :=
  exists p q : pystr, b = p ++ a ++ q.

(** ** Floats

    A Python [float] is an IEEE 754 binary64 number.  The finite ones are
    rationals, and the model keeps a float as the rational it denotes; an
    operation on floats computes the exact result and rounds it to the
    nearest representable number, ties going to the even significand. *)

(** [2 ** e] for any integer [e]. *)
Definition pow2 (e : Z) : Q := Qpower 2 e.

(** The binary exponent of a positive rational: [floor(log2 x)]. *)
Definition ilog2 (x : Q) : Z :=
  let d := Z.log2 (Qnum x) - Z.log2 (Z.pos (Qden x)) in
  if Qle_bool (pow2 d) x then d else d - 1.

(** Rounding to the nearest integer, ties to even. *)
Definition rne (x : Q) : Z :=
  let f := Qfloor x in
  match Qcompare (x - inject_Z f) (1 # 2) with
  | Lt => f
  | Gt => f + 1
  | Eq => if Z.even f then f else f + 1
  end.

(** The exponent of the last place of [x]: 53 significant bits, and never
    below [2 ** -1074], the spacing of the subnormal numbers. *)
Definition fexp (x : Q) : Z := Z.max (ilog2 (Qabs x) - 52) (-1074).

(** The representable number nearest to [x]. *)
Definition round64 (x : Q) : Q :=
  if Qeq_bool x 0 then 0%Q
  else (inject_Z (rne (x / pow2 (fexp x))) * pow2 (fexp x))%Q.

(** The largest finite float, [sys.float_info.max]; it is an integer. *)
Definition float_max : Z := 2 ^ 1024 - 2 ^ 971.

(** [float(n)] for an [int], the conversion [**] and [*] apply to an
    [int] operand: the nearest float, or [OverflowError] (here [None])
    when that lies beyond the largest one. *)
Definition float_of_int (n : Z) : option Q :=
  let r := round64 (inject_Z n) in
  if Qle_bool (pow2 1024) (Qabs r) then None else Some r.

(** [x ** w] for a float [x] and the float [w] of a non-negative [int]
    ([w] has an integer value).  [float.__pow__] returns 1.0 for [w = 0]
    and hands every other case to the [pow] of the C library, which
    IEEE 754 recommends to round correctly; the model takes the correctly
    rounded power.  A C library may be off by one unit in the last place;
    the bound on the index is therefore also proved for every float below
    1 that [**] could return. *)
Definition float_pow (x w : Q) : Q := round64 (Qpower x (Qfloor w)).

(** [x * y] on floats. *)
Definition float_mul (x y : Q) : Q := round64 (x * y).

(** [float(len(lst))]; a length is far below the largest float. *)
Definition float_of_len (n : nat) : Q := round64 (inject_Z (Z.of_nat n)).

(** ** The weighted chooser *)

(** [int(x)] on a number: truncation toward zero. *)
Definition py_int (x : Q) : Z := Z.quot (Qnum x) (Z.pos (Qden x)).

(** [lst[i]] on a sequence: negative indices count from the end, anything
    outside raises [IndexError] (here [None]). *)
Definition py_getitem {A : Type} (lst : list A) (i : Z) : option A :=
  let n := Z.of_nat (length lst) in
  if (0 <=? i) && (i <? n) then lst !! Z.to_nat i
  else if (- n <=? i) && (i <? 0) then lst !! Z.to_nat (i + n)
  else None.

(** [index = int((rd.random()**exp) * len(lst))], with the float [u] that
    [rd.random()] returned made explicit and [exp] a non-negative [int].
    The power and the product are computed in binary64.  [None] stands
    for the [OverflowError] of [**] on an exponent beyond the floats; as
    [u] is below 1, neither the power nor the product can overflow. *)
Definition choose_index {A : Type} (lst : list A) (exp : N) (u : Q)
    : option Z :=
  match float_of_int (Z.of_N exp) with
  | None => None
  | Some w =>
      Some (py_int (float_mul (float_pow u w) (float_of_len (length lst))))
  end.

(** [choose]: the element at that index, or [None] when the call raises
    (the [OverflowError] above, or [IndexError] from the subscript). *)
Definition choose {A : Type} (lst : list A) (exp : N) (u : Q) : option A :=
  match choose_index lst exp u with
  | None => None
  | Some i => py_getitem lst i
  end.

(** ** Restriction patterns

    [RESTRICTIONS] holds eight literal two-phone patterns and the
    back-reference pattern [(.)\1].  [re.search] on a literal is the
    substring test; on [(.)\1] it looks for two equal adjacent characters,
    where [.] matches everything except a line feed. *)

Inductive regex : Type :=
| Literal (s : pystr)
| Backref_pair.

Fixpoint has_adjacent_pair (s : pystr) : bool :=
  match s with
  | x :: ((y :: _) as s') =>
      (N.eqb x y && negb (N.eqb x 10)) || has_adjacent_pair s'
  | _ => false
  end.

Definition re_search (r : regex) (s : pystr) : bool :=
  match r with
  | Literal l => py_in l s
  | Backref_pair => has_adjacent_pair s
  end.

(** Code points of the phonetic symbols and display characters used by
    the tables. *)
Definition esh : N := 0x283.      (* ʃ *)
Definition ezh : N := 0x292.      (* ʒ *)
Definition tesh : N := 0x2a7.     (* ʧ *)
Definition dezh : N := 0x2a4.     (* ʤ *)
Definition eng : N := 0x14b.      (* ŋ *)
Definition gamma : N := 0x263.    (* ɣ *)
Definition glottal : N := 0x294.  (* ʔ *)

Definition RESTRICTIONS : list regex :=
  [ Literal (py "ss"); Literal [esh; esh]; Literal (esh :: py "s");
    Literal (py "s" ++ [esh]); Literal (py "fs"); Literal (py "f" ++ [esh]);
    Literal (py "lr"); Literal (py "rl"); Backref_pair ].

(** ** Orthography tables

    A [dict] from strings to strings is a finite map; [d.update(o)] lets
    the entries of [o] win. *)

Abbreviation table := (gmap (list N) (list N)) (only parsing).

Definition dict (l : list (pystr * pystr)) : table := list_to_map l.

Definition dict_update (d other : table) : table := other ∪ d.

(** The value the literal at [ORTHO_DEFAULT = {...}] evaluates to when the
    module is loaded. *)
Definition ORTHO_DEFAULT : table :=
  dict [ ([esh], py "sh"); ([ezh], py "zh"); ([tesh], py "ch");
         ([dezh], py "j"); ([eng], py "ng"); (py "j", py "y");
         (py "x", py "kh"); ([gamma], py "gh"); ([glottal], [0x2018%N]);
         (py "A", [0xe1%N]); (py "E", [0xe9%N]); (py "I", [0xed%N]);
         (py "O", [0xf3%N]); (py "U", [0xfa%N]) ].

Definition CON_ORTHO : list table :=
  [ dict [ (py "default", py "None") ];
    dict [ ([esh], [0x161%N]); ([ezh], [0x17e%N]); ([tesh], [0x10d%N]);
           ([dezh], [0x1e7%N]); (py "j", py "j") ];
    dict [ ([esh], py "sch"); ([ezh], py "zh"); ([tesh], py "tsch");
           ([dezh], py "dz"); (py "j", py "j"); (py "x", py "ch") ];
    dict [ ([esh], py "ch"); ([ezh], py "j"); ([tesh], py "tch");
           ([dezh], py "dj"); (py "x", py "kh") ];
    dict [ ([esh], py "x"); ([tesh], py "q"); ([dezh], py "j") ] ].

Definition VOW_ORTHO : list table :=
  [ dict [ (py "default", py "None") ];
    dict [ (py "A", [0xe4%N]); (py "E", [0xeb%N]); (py "I", [0xef%N]);
           (py "O", [0xf6%N]); (py "U", [0xfc%N]) ];
    dict [ (py "A", py "au"); (py "E", py "ei"); (py "I", py "ie");
           (py "O", py "ou"); (py "U", py "oo") ];
    dict [ (py "A", [0xe2%N]); (py "E", [0xea%N]); (py "I", py "y");
           (py "O", [0xf4%N]); (py "U", py "w") ];
    dict [ (py "A", py "aa"); (py "E", py "ee"); (py "I", py "ii");
           (py "O", py "oo"); (py "U", py "uu") ] ].

(** ** class Orthography

    [ortho = ORTHO_DEFAULT] in the class body binds the class attribute to
    the very dictionary object the module variable names; [__init__] never
    assigns [self.ortho], so [self.ortho] always resolves to that one
    object.  The object is therefore kept outside the instances, as a cell
    of the store that every operation receives and returns.  An instance
    owns only its three plain attributes. *)

Record Orthography : Type := {
  c_ortho : option table;
  v_ortho : option table;
  joiner : pystr
}.

(** [__init__]: the three assignments and the two conditional
    [self.ortho.update(...)] calls, which change the shared object; the
    closing [print] is left out. *)
Definition Orthography_init (c v : option table) (j : pystr)
    (shared : table) : Orthography * table :=
  let shared := match c with
                | Some c => dict_update shared c
                | None => shared
                end in
  let shared := match v with
                | Some v => dict_update shared v
                | None => shared
                end in
  ({| c_ortho := c; v_ortho := v; joiner := j |}, shared).

(** [self.ortho[key]]; [None] stands for [KeyError]. *)
Definition Orthography_getitem (self : Orthography) (key : pystr)
    (shared : table) : option pystr :=
  shared !! key.

(** [Mapping.get]: [self[key]], or the default on [KeyError]. *)
Definition Orthography_get (self : Orthography) (key dflt : pystr)
    (shared : table) : pystr :=
  match Orthography_getitem self key shared with
  | Some v => v
  | None => dflt
  end.

(** The loop of [transliterate] for a language that has an orthography. *)
Definition transliterate_with (self : Orthography) (shared : table)
    (syll : pystr) : pystr :=
  List.concat (List.map (fun c => Orthography_get self [c] [c] shared) syll).

(** ** The store and the generator monad

    Everything the methods of a language read or change: the shared
    orthography dictionary, the three registries created by [__init__]
    ([defaultdict]s keyed by pool, [None] being the generic pool), and the
    pseudo-random source.  The source is the sequence of raw outputs still
    to come; once the listed outputs are used up every further output is
    [0], so a list stands for an infinite stream and each finite run is
    covered by some list. *)

Abbreviation pool := (option (list N)) (only parsing).

Record state : Type := State {
  ortho_dict : table;
  morphemes : gmap (option (list N)) (list (list N));
  words : gmap (option (list N)) (list (list N));
  names : gmap (option (list N)) (gset (list N));
  rng : list N
}.

Inductive exn : Type := KeyError | IndexError | AttributeError | ValueError.

(** A call either returns, raises, or is still running when the bound on
    loop iterations is reached. *)
Inductive result (A : Type) : Type :=
| Ok (a : A) (st : state)
| Raise (e : exn) (st : state)
| OutOfFuel.

Arguments Ok {A} a st.
Arguments Raise {A} e st.
Arguments OutOfFuel {A}.

Definition M (A : Type) : Type := state -> result A.

Definition ret {A : Type} (a : A) : M A := fun st => Ok a st.

Definition raise {A : Type} (e : exn) : M A := fun st => Raise e st.

Definition bind {A B : Type} (m : M A) (f : A -> M B) : M B :=
  fun st =>
    match m st with
    | Ok a st' => f a st'
    | Raise e st' => Raise e st'
    | OutOfFuel => OutOfFuel
    end.

Notation "'do' x <- m ; k" := (bind m (fun x => k))
  (at level 10, x name, m at level 100, k at level 200).

Definition get_state : M state := fun st => Ok st st.

(** *** module [random] *)

Definition rd_raw : M N :=
  fun st =>
    match rng st with
    | [] => Ok 0%N st
    | k :: rest =>
        Ok k (State (ortho_dict st) (morphemes st) (words st) (names st) rest)
    end.

(** [rd.random()]: a multiple of 2^-53 in [0, 1). *)
Definition unit_float (k : N) : Q :=
  Qmake (Z.of_N (k mod 2 ^ 53)) (2 ^ 53).

Definition rd_random : M Q :=
  do k <- rd_raw; ret (unit_float k).

(** [rd.randrange(n)]: an integer in [0, n); [ValueError] on an empty
    range. *)
Definition rd_randrange (n : Z) : M Z :=
  if n <=? 0 then raise ValueError
  else do k <- rd_raw; ret (Z.of_N k mod n).

(** The float constants the source compares [rd.random()] with, at their
    exact binary64 values. *)
Definition f_0_5 : Q := Qmake 1 2.
Definition f_0_6 : Q := Qmake 5404319552844595 (2 ^ 53).
Definition f_0_1 : Q := Qmake 3602879701896397 (2 ^ 55).

Definition Qltb (a b : Q) : bool := negb (Qle_bool b a).

(** *** [collections.defaultdict]

    Subscripting a missing key stores the default under it and returns
    it. *)
Definition dd_getitem {V : Type} (dflt : V) (d : gmap (option (list N)) V)
    (k : pool) : V * gmap (option (list N)) V :=
  match d !! k with
  | Some v => (v, d)
  | None => (dflt, <[k := dflt]> d)
  end.

Definition dict_values {V : Type} (d : gmap (option (list N)) V) : list V :=
  (map_to_list d).*2.

(** [d[k].add(x)] on a [defaultdict(set)]: the registry afterwards. *)
Definition add_name (d : gmap (option (list N)) (gset (list N))) (k : pool)
    (x : pystr) : gmap (option (list N)) (gset (list N)) :=
  let '(v, d') := dd_getitem ∅ d k in <[k := {[x]} ∪ v]> d'.

(** *** Equality between objects of different types

    [x in d.values()] compares [x] with every value by [==].  Python
    values of different types compare unequal; the two types that meet in
    this program are [str] and [list] of [str]. *)
Inductive pyobj : Type :=
| Str (s : pystr)
| StrList (l : list pystr).

Definition pyobj_eqb (a b : pyobj) : bool :=
  match a, b with
  | Str s, Str t => bool_decide (s = t)
  | StrList l, StrList m => bool_decide (l = m)
  | _, _ => false
  end.

Definition in_values (x : pyobj) (vals : list pyobj) : bool :=
  existsb (pyobj_eqb x) vals.

(** ** class BasicLanguage

    The attributes [__init__] stores and never changes afterwards.  The
    three registries it also creates are mutable and live in the store. *)

Record BasicLanguage : Type := {
  phonemes : gmap (list N) (list N);
  ortho : option Orthography;
  syll : pystr;
  min_syll : Z;
  max_syll : Z;
  restricts : list regex;
  min_char : Z;
  max_char : Z
}.

Definition len {A : Type} (l : list A) : Z := Z.of_nat (length l).

(** The attribute assignments of [__init__]: its arguments, and the two
    length bounds derived from the length of the pattern. *)
Definition BasicLanguage_attrs (phonemes : gmap (list N) (list N))
    (syll : pystr) (ortho : option Orthography) (min_syll max_syll : Z)
    (restricts : list regex) : BasicLanguage :=
  {| phonemes := phonemes; ortho := ortho; syll := syll;
     min_syll := min_syll; max_syll := max_syll;
     restricts := restricts;
     min_char := if len syll <? 3 then len syll + 1 else len syll;
     max_char := if len syll <? 3 then len syll * 4 else len syll * 3 |}.

(** [__init__]: the assignments above and the creation of the three empty
    registries.  There is no other statement in it. *)
Definition BasicLanguage_init (phonemes : gmap (list N) (list N))
    (syll : pystr) (ortho : option Orthography) (min_syll max_syll : Z)
    (restricts : list regex) : M BasicLanguage :=
  fun st =>
    Ok (BasicLanguage_attrs phonemes syll ortho min_syll max_syll restricts)
       (State (ortho_dict st) ∅ ∅ ∅ (rng st)).

Section BasicLanguage.

(** [str.capitalize] is a function of the Unicode tables of the
    interpreter; the generator only passes its result on. *)
Variable capitalize : pystr -> pystr.

Variable self : BasicLanguage.

Definition question_mark : N := 63.

(** The [for spec in self.syll] loop of [gen_syllable]; [phones] is the
    list of one-character strings built so far. *)
Fixpoint gen_phones (specs : pystr) (phones : list pystr)
    : M (list pystr) :=
  match specs with
  | [] => ret phones
  | spec :: specs' =>
      if N.eqb spec question_mark then
        do u <- rd_random;
        gen_phones specs' (if Qltb f_0_5 u then removelast phones else phones)
      else
        match phonemes self !! [spec] with
        | None => raise KeyError
        | Some lst =>
            do u <- rd_random;
            match choose lst 2 u with
            | None => raise IndexError
            | Some p => gen_phones specs' (phones ++ [[p]])
            end
        end
  end.

(** The [for r in self.restricts] loop: does some pattern match? *)
Definition restricted (s : pystr) : bool :=
  existsb (fun r => re_search r s) (restricts self).

Definition transliterate (s : pystr) : M pystr :=
  match ortho self with
  | None => ret s
  | Some o => do st <- get_state; ret (transliterate_with o (ortho_dict st) s)
  end.

(** [gen_syllable]; [fuel] bounds the iterations of [while True]. *)
Fixpoint gen_syllable (fuel : nat) : M pystr :=
  match fuel with
  | O => fun _ => OutOfFuel
  | S fuel' =>
      do phones <- gen_phones (syll self) [];
      let s := List.concat phones in
      if restricted s then gen_syllable fuel' else transliterate s
  end.

(** [self.morphemes[pool]], a [defaultdict] subscript. *)
Definition morphemes_getitem (p : pool) : M (list pystr) :=
  fun st =>
    let '(v, d) := dd_getitem [] (morphemes st) p in
    Ok v (State (ortho_dict st) d (words st) (names st) (rng st)).

Definition morphemes_append (p : pool) (x : pystr) : M unit :=
  do l <- morphemes_getitem p;
  fun st =>
    Ok tt (State (ortho_dict st) (<[p := l ++ [x]]> (morphemes st))
                 (words st) (names st) (rng st)).

Definition words_getitem (p : pool) : M (list pystr) :=
  fun st =>
    let '(v, d) := dd_getitem [] (words st) p in
    Ok v (State (ortho_dict st) (morphemes st) d (names st) (rng st)).

Definition words_append (p : pool) (x : pystr) : M unit :=
  do l <- words_getitem p;
  fun st =>
    Ok tt (State (ortho_dict st) (morphemes st)
                 (<[p := l ++ [x]]> (words st)) (names st) (rng st)).

(** [lst[n]] inside the generator: an [IndexError] propagates. *)
Definition subscript {A : Type} (lst : list A) (n : Z) : M A :=
  match py_getitem lst n with
  | Some x => ret x
  | None => raise IndexError
  end.

(** The [while True] loop of [get_morpheme] together with the two
    statements after it, which run when the loop is left by [break]. *)
Fixpoint get_morpheme_loop (inner : nat) (p : pool) (morph_list : list pystr)
    (extras : Z) (fuel : nat) : M pystr :=
  match fuel with
  | O => fun _ => OutOfFuel
  | S fuel' =>
      do n <- rd_randrange (len morph_list + extras);
      if n <? len morph_list then subscript morph_list n
      else
        do new_morph <- gen_syllable inner;
        do st <- get_state;
        if negb (in_values (Str new_morph)
                           (StrList <$> dict_values (morphemes st)))
        then
          do _ <- morphemes_append p new_morph;
          ret new_morph
        else get_morpheme_loop inner p morph_list extras fuel'
  end.

Definition get_morpheme (fuel : nat) (p : pool) : M pystr :=
  do morph_list <- morphemes_getitem p;
  let extras := match p with None => 10 | Some _ => 1 end in
  get_morpheme_loop fuel p morph_list extras fuel.

(** The list comprehension of [gen_word]: one [get_morpheme] call per
    element of the range. *)
Fixpoint get_morphemes (fuel : nat) (p : pool) (count : nat)
    : M (list pystr) :=
  match count with
  | O => ret []
  | S count' =>
      do m <- get_morpheme fuel p;
      do ms <- get_morphemes fuel p count';
      ret (m :: ms)
  end.

(** [len(range(a, b))]. *)
Definition range_len (a b : Z) : nat := Z.to_nat (b - a).

Definition gen_word (fuel : nat) (p : pool) : M pystr :=
  do ms <- get_morphemes fuel p (range_len (min_syll self) (max_syll self + 1));
  ret (List.concat ms).

Fixpoint get_word_loop (inner : nat) (p : pool) (word_list : list pystr)
    (extras : Z) (fuel : nat) : M pystr :=
  match fuel with
  | O => fun _ => OutOfFuel
  | S fuel' =>
      do n <- rd_randrange (len word_list + extras);
      if n <? len word_list then subscript word_list n
      else
        do new_word <- gen_word inner p;
        do st <- get_state;
        if negb (in_values (Str new_word)
                           (StrList <$> dict_values (words st)))
        then
          do _ <- words_append p new_word;
          ret new_word
        else get_word_loop inner p word_list extras fuel'
  end.

Definition get_word (fuel : nat) (p : pool) : M pystr :=
  do word_list <- words_getitem p;
  let extras := match p with None => 3 | Some _ => 2 end in
  get_word_loop fuel p word_list extras fuel.

(** [check_unique]: the two nested loops over [self.names.values()]. *)
Definition clashes (name other_name : pystr) : bool :=
  py_in name other_name || py_in other_name name.

Definition check_unique_in (nm : gmap (option (list N)) (gset (list N)))
    (name : pystr) : bool :=
  forallb (fun cat : gset (list N) =>
             forallb (fun other_name => negb (clashes name other_name))
                     (elements cat))
          (dict_values nm).

Definition check_unique (name : pystr) : M bool :=
  do st <- get_state; ret (check_unique_in (names st) name).

(** [self.names[pool].add(name)]. *)
Definition names_add (p : pool) (name : pystr) : M unit :=
  fun st =>
    Ok tt (State (ortho_dict st) (morphemes st) (words st)
                 (add_name (names st) p name) (rng st)).

(** [self.ortho.joiner]; with [ortho=None] the attribute access fails. *)
Definition get_joiner : M pystr :=
  match ortho self with
  | None => raise AttributeError
  | Some o => ret (joiner o)
  end.

(** [sep.join(parts)]. *)
Fixpoint join (sep : pystr) (parts : list pystr) : pystr :=
  match parts with
  | [] => []
  | [x] => x
  | x :: parts' => x ++ sep ++ join sep parts'
  end.

(** The part of the loop body of [gen_name] that follows the choice of
    the candidate; [None] stands for falling through to the next
    iteration. *)
Definition gen_name_finish (p : pool) (definitive name : pystr)
    : M (option pystr) :=
  do u <- rd_random;
  do name <- (if Qltb u f_0_1
              then do j <- get_joiner; ret (join j [definitive; name])
              else ret name);
  if negb ((min_char self <=? len name) && (len name <=? max_char self * 2))
  then ret None
  else
    do unique <- check_unique name;
    if unique then do _ <- names_add p name; ret (Some name)
    else ret None.

(** One iteration of the [while True] loop of [gen_name]. *)
Definition gen_name_body (fuel : nat) (p : pool) (genitive definitive : pystr)
    : M (option pystr) :=
  do u <- rd_random;
  if Qltb u f_0_5 then
    do w <- get_word fuel p;
    gen_name_finish p definitive (capitalize w)
  else
    do u1 <- rd_random;
    do w1 <- get_word fuel (if Qltb u1 f_0_6 then p else None);
    let n_part1 := capitalize w1 in
    do u2 <- rd_random;
    do w2 <- get_word fuel (if Qltb u2 f_0_6 then p else None);
    let n_part2 := capitalize w2 in
    if bool_decide (n_part1 = n_part2) then ret None
    else
      do u3 <- rd_random;
      do j <- get_joiner;
      let name := if Qltb u3 f_0_5 then join j [n_part1; n_part2]
                  else join j [n_part1; genitive; n_part2] in
      gen_name_finish p definitive name.

Fixpoint gen_name_loop (inner : nat) (p : pool) (genitive definitive : pystr)
    (fuel : nat) : M pystr :=
  match fuel with
  | O => fun _ => OutOfFuel
  | S fuel' =>
      do r <- gen_name_body inner p genitive definitive;
      match r with
      | Some name => ret name
      | None => gen_name_loop inner p genitive definitive fuel'
      end
  end.

Definition gen_name (fuel : nat) (p : pool) : M pystr :=
  do genitive <- get_morpheme fuel (Some (py "of"));
  do definitive <- get_morpheme fuel (Some (py "the"));
  gen_name_loop fuel p genitive definitive fuel.

End BasicLanguage.

(** A caller's session: [gen_name] called once per entry, with the pool
    and the iteration bound of that entry.  A call that raises leaves the
    store as it was at that point and the caller goes on; a call that is
    still running at its bound ends the session. *)
Fixpoint gen_names (capitalize : pystr -> pystr) (self : BasicLanguage)
    (calls : list (nat * option (list N))) (st : state) : state :=
  match calls with
  | [] => st
  | (fuel, p) :: calls' =>
      match gen_name capitalize self fuel p st with
      | Ok _ st' => gen_names capitalize self calls' st'
      | Raise _ st' => gen_names capitalize self calls' st'
      | OutOfFuel => st
      end
  end.

(** ** The invariant of the name registry *)

(** [a] is stored as a name of the pool [p]. *)
Definition stored (nm : gmap (option (list N)) (gset (list N))) (p : pool)
    (a : pystr) : Prop :=
  exists cat : gset (list N), nm !! p = Some cat /\ a ∈ cat.

(** No stored name occurs inside another stored name, in the same pool or
    in a different one; in particular no name is stored in two pools. *)
Definition substring_free (nm : gmap (option (list N)) (gset (list N)))
    : Prop :=
  forall p q a b, stored nm p a -> stored nm q b -> (p, a) <> (q, b) ->
                  ~ substring a b.

(** ** Concrete data used by the examples *)

(** [str.capitalize] restricted to strings of ASCII letters: first letter
    to upper case, the others to lower case. *)
Definition ascii_upper (c : N) : N :=
  if ((97 <=? c) && (c <=? 122))%N then (c - 32)%N else c.

Definition ascii_lower (c : N) : N :=
  if ((65 <=? c) && (c <=? 90))%N then (c + 32)%N else c.

Definition ascii_capitalize (s : pystr) : pystr :=
  match s with
  | [] => []
  | c :: s' => ascii_upper c :: List.map ascii_lower s'
  end.

(** The store right after the module is loaded, with the raw outputs the
    random source is going to produce. *)
Definition initial_state (raw : list N) : state :=
  State ORTHO_DEFAULT ∅ ∅ ∅ raw.

(** A character the table leaves alone: it is no key, or it is mapped to
    itself. *)
Definition fixed_char (tbl : table) (c : N) : bool :=
  match tbl !! [c] with
  | None => true
  | Some v => bool_decide (v = [c])
  end.

(** No display string of a one-character key contains a character that
    the table would rewrite again. *)
Definition table_stable (tbl : table) : bool :=
  forallb (fun kv : list N * list N =>
             match kv.1 with
             | [_] => forallb (fixed_char tbl) kv.2
             | _ => true
             end)
          (map_to_list tbl).

(** [Orthography(c_ortho=CON_ORTHO[ci], v_ortho=VOW_ORTHO[vi])] evaluated
    in the store [shared], as [build_language] does with two random
    indices. *)
Definition styled_orthography (ci vi : nat) (shared : table)
    : Orthography * table :=
  Orthography_init (CON_ORTHO !! ci) (VOW_ORTHO !! vi) (py " ") shared.

(** The entries an optional overlay contributes. *)
Definition overlay (o : option table) : table :=
  match o with
  | Some t => t
  | None => ∅
  end.

(** The raw output for which [rd.random()] returns the largest multiple
    of 2^-53 not above [num/den]. *)
Definition raw_of (num den : N) : N := (num * 2 ^ 53 / den)%N.

(** A language over the consonants [cons] and vowels [vows]. *)
Definition language (cons vows pattern : string) (o : option Orthography)
    (lo hi : Z) : BasicLanguage :=
  BasicLanguage_attrs (dict [ (py "C", py cons); (py "V", py vows) ])
                      (py pattern) o lo hi RESTRICTIONS.

(** A language whose orthography was built with the styles [ci] and [vi]
    right after the module was loaded, and the store it runs in. *)
Definition styled_language (ci vi : nat) (cons vows pattern : string)
    (lo hi : Z) : BasicLanguage :=
  language cons vows pattern
           (Some (styled_orthography ci vi ORTHO_DEFAULT).1) lo hi.

Definition styled_state (ci vi : nat) (raw : list N) : state :=
  State (styled_orthography ci vi ORTHO_DEFAULT).2 ∅ ∅ ∅ raw.

(** The first failing operation of the [for spec in self.syll] loop, if
    there is one: the subscript [self.phonemes[spec]] of a role token that
    is no key, or the subscript inside [choose] when the role's sequence is
    empty. *)
Fixpoint pattern_fault (phon : gmap (list N) (list N)) (specs : pystr)
    : option exn :=
  match specs with
  | [] => None
  | spec :: specs' =>
      if N.eqb spec question_mark then pattern_fault phon specs'
      else
        match phon !! [spec] with
        | None => Some KeyError
        | Some [] => Some IndexError
        | Some (_ :: _) => pattern_fault phon specs'
        end
  end.

(** ** Specifications of generator computations *)

(** What a computation guarantees about its outcome: [Q] when it returns,
    [E] when it raises. *)
Definition ensures {A : Type} (m : M A) (st : state)
    (Q : A -> state -> Prop) (E : exn -> state -> Prop) : Prop :=
  match m st with
  | Ok a st' => Q a st'
  | Raise e st' => E e st'
  | OutOfFuel => True
  end.

(** A computation that leaves the name registry as it found it, whether
    it returns or raises. *)
Definition keeps_names {A : Type} (m : M A) : Prop :=
  forall st,
    ensures m st (fun _ st' => names st' = names st)
                 (fun _ st' => names st' = names st).

(** The outcome of accepting [name] for the pool [p] when the registry was
    [nm0]: the name passed [check_unique] against [nm0], has an admissible
    length, and is the one addition to the registry. *)
Definition accepted (self : BasicLanguage)
    (nm0 : gmap (option (list N)) (gset (list N))) (p : pool)
    (name : pystr) (st' : state) : Prop :=
  check_unique_in nm0 name = true /\
  min_char self <= len name <= max_char self * 2 /\
  names st' = add_name nm0 p name.

(** The outcome of one pass of the loop of [gen_name]. *)
Definition pass_outcome (self : BasicLanguage)
    (nm0 : gmap (option (list N)) (gset (list N))) (p : option (list N))
    (r : option (list N)) (st' : state) : Prop :=
  match r with
  | Some name => accepted self nm0 p name st'
  | None => names st' = nm0
  end.

(** ** The inventories and [build_language]

    The tables the random builder draws from, in the order of the
    source. *)

Definition CON_SETS : list pystr :=
  [ py "ptkmnsl";
    py "ptkmnh";
    py "ptkbdgmnlrs" ++ [esh] ++ py "z" ++ [ezh; tesh];
    py "hklmnpw" ++ [glottal];
    py "ptkqvsgrmn" ++ [eng] ++ py "lj";
    py "tks" ++ [esh] ++ py "dbq" ++ [gamma] ++ py "xmnlrwj";
    py "tkdgmns" ++ [esh];
    py "ptkbdgmnsz" ++ [ezh; tesh] ++ py "hjw" ].

Definition CON_SIB : list pystr :=
  [ py "s"; py "s" ++ [esh]; py "s" ++ [esh] ++ py "f" ].

Definition CON_LIQ : list pystr :=
  [ py "rl"; py "r"; py "l"; py "wj"; py "lrwj" ].

Definition CON_FIN : list pystr :=
  [ py "mn"; py "sk"; py "mn" ++ [eng]; py "s" ++ [esh] ++ py "z" ++ [ezh] ].

Definition VOW_SETS : list pystr :=
  [ py "aeiou"; py "aiu"; py "aeiouAEI"; py "aeiouU"; py "aiuAI"; py "eou";
    py "aeiouAOU" ].

Definition SYLL_PATTERNS : list pystr :=
  [ py "CVC";
    py "CVV?C";
    py "CVVC?"; py "CVC?"; py "CV"; py "VC"; py "CVF"; py "C?VC"; py "CVF?";
    py "CL?VC"; py "CL?VF"; py "S?CVC"; py "S?CVF"; py "S?CVC?";
    py "C?VF"; py "C?VC?"; py "C?VF?"; py "C?L?VC"; py "VC";
    py "CVL?C?"; py "C?VL?C"; py "C?VLC?" ].

(** The string [rd.choice] picks the joiner from: three spaces, two
    hyphens, an acute accent and a colon. *)
Definition JOINERS : pystr := py "   --" ++ [0xb4%N] ++ py ":".

(** [choose(lst)] as a statement of the generator: one [rd.random()], then
    the subscript. *)
Definition choose_from {A : Type} (lst : list A) : M A :=
  do u <- rd_random;
  match choose lst 2 u with
  | Some x => ret x
  | None => raise IndexError
  end.

(** [rd.randrange(start, stop)]. *)
Definition rd_randrange2 (start stop : Z) : M Z :=
  if stop - start <=? 0 then raise ValueError
  else do k <- rd_raw; ret (start + Z.of_N k mod (stop - start)).

(** [rd.choice(seq)]: [IndexError] on an empty sequence, else the element
    at a random index below [len(seq)]. *)
Definition rd_choice {A : Type} (seq : list A) : M A :=
  match seq with
  | [] => raise IndexError
  | _ :: _ =>
      do k <- rd_raw;
      match py_getitem seq (Z.of_N k mod len seq) with
      | Some x => ret x
      | None => raise IndexError
      end
  end.

(** [Orthography(c_ortho=c, v_ortho=v, joiner=j)] as a statement: the
    constructor runs on the shared dictionary of the store. *)
Definition new_Orthography (c v : option table) (j : pystr) : M Orthography :=
  fun st =>
    let '(o, shared) := Orthography_init c v j (ortho_dict st) in
    Ok o (State shared (morphemes st) (words st) (names st) (rng st)).

(** [build_language(random=True)] with the default [lang=BasicLanguage]. *)
Definition build_language_random : M BasicLanguage :=
  do syll <- choose_from SYLL_PATTERNS;
  do c <- choose_from CON_SETS;
  do v <- choose_from VOW_SETS;
  do s <- choose_from CON_SIB;
  do f <- choose_from CON_FIN;
  do l <- choose_from CON_LIQ;
  let phonemes := dict [ (py "C", c); (py "V", v); (py "S", s);
                         (py "F", f); (py "L", l) ] in
  do min_syll <- rd_randrange2 1 3;
  do max_syll <- rd_randrange2 (min_syll + 1) 6;
  do c_ortho <- rd_choice CON_ORTHO;
  do v_ortho <- rd_choice VOW_ORTHO;
  do joiner <- rd_choice JOINERS;
  do ortho <- new_Orthography (Some c_ortho) (Some v_ortho) [joiner];
  BasicLanguage_init phonemes syll (Some ortho) min_syll max_syll RESTRICTIONS.

(** ** [user_select] and the interactive branch of [build_language]

    Standard input is the list of lines still to be read; [input()] takes
    the first one and raises [EOFError] when there is none.  The exceptions
    of this part of the program are kept apart from those of the
    generator. *)

Inductive io_exn : Type := EOFError | UnboundLocalError.

Inductive io_result (A : Type) : Type :=
| IoOk (a : A) (rest : list pystr)
| IoRaise (e : io_exn).

Arguments IoOk {A} a rest.
Arguments IoRaise {A} e.

Definition input (stdin : list pystr) : io_result pystr :=
  match stdin with
  | [] => IoRaise EOFError
  | line :: rest => IoOk line rest
  end.

Section Interactive.

(** [int(s)] on a string: the integer it denotes, or [None] for
    [ValueError].  Its parsing rules belong to the interpreter. *)
Variable int_of_str : pystr -> option Z.

(** The [while True] loop of [user_select] for a list of [n] options; every
    pass reads one line, so the lines themselves bound the loop.  The
    printing of the options is left out. *)
Fixpoint user_select (n : Z) (stdin : list pystr) : io_result Z :=
  match stdin with
  | [] => IoRaise EOFError
  | line :: rest =>
      match int_of_str line with
      | None => user_select n rest
      | Some selection =>
          if negb ((0 <=? selection) && (selection <? n))
          then user_select n rest
          else IoOk selection rest
      end
  end.

Definition io_bind {A B : Type} (m : list pystr -> io_result A)
    (f : A -> list pystr -> io_result B) (stdin : list pystr) : io_result B :=
  match m stdin with
  | IoOk a rest => f a rest
  | IoRaise e => IoRaise e
  end.

(** [build_language(random=False)] up to the statement that builds the
    orthography.  [joiner] is a local name of the function that only the
    other branch assigns, so evaluating the argument [joiner=joiner]
    raises [UnboundLocalError]; no statement after it is reached. *)
Definition build_language_select (stdin : list pystr)
    : io_result BasicLanguage :=
  io_bind (user_select (len SYLL_PATTERNS)) (fun syll =>
  io_bind (user_select (len CON_SETS)) (fun c =>
  io_bind (user_select (len VOW_SETS)) (fun v =>
  io_bind (user_select (len CON_SIB)) (fun s =>
  io_bind (user_select (len CON_FIN)) (fun f =>
  io_bind (user_select (len CON_LIQ)) (fun l =>
  io_bind input (fun min_syll =>
  io_bind input (fun max_syll =>
  io_bind (user_select (len CON_ORTHO)) (fun c_ortho =>
  io_bind (user_select (len VOW_ORTHO)) (fun v_ortho =>
  fun _ => IoRaise UnboundLocalError)))))))))) stdin.

End Interactive.

(** ** Further methods of [Orthography] *)

(** [__len__]. *)
Definition Orthography_len (self : Orthography) (shared : table) : Z :=
  Z.of_nat (size shared).

(** [key in orthography], the [Mapping] mix-in: [self[key]] succeeds. *)
Definition Orthography_contains (self : Orthography) (key : pystr)
    (shared : table) : bool :=
  match Orthography_getitem self key shared with
  | Some _ => true
  | None => false
  end.

(** A line [user_select] passes over: not an integer, or outside the
    range of the options. *)
Definition rejected (int_of_str : pystr -> option Z) (n : Z)
    (line : pystr) : Prop :=
  match int_of_str line with
  | None => True
  | Some z => ~ (0 <= z < n)
  end.

(** The input answers [user_select] for a list of [n] options: some
    lines it passes over, then a line that denotes an index; [rest] is
    what is left unread. *)
Definition answers (int_of_str : pystr -> option Z) (n : Z)
    (stdin rest : list pystr) : Prop :=
  exists skipped line z,
    stdin = skipped ++ line :: rest /\
    Forall (rejected int_of_str n) skipped /\
    int_of_str line = Some z /\ 0 <= z < n.

(** The prompts of the interactive branch in the order of the source: a
    selection from a list of [n] options is [Some n], a plain [input()] is
    [None]. *)
Definition SELECT_PROMPTS : list (option Z) :=
  [ Some (len SYLL_PATTERNS); Some (len CON_SETS); Some (len VOW_SETS);
    Some (len CON_SIB); Some (len CON_FIN); Some (len CON_LIQ);
    None; None; Some (len CON_ORTHO); Some (len VOW_ORTHO) ].

(** The input holds an answer to every prompt of the list, one after the
    other. *)
Fixpoint answered (int_of_str : pystr -> option Z)
    (prompts : list (option Z)) (stdin : list pystr) : Prop :=
  match prompts with
  | [] => True
  | Some n :: prompts' =>
      exists rest, answers int_of_str n stdin rest /\
                   answered int_of_str prompts' rest
  | None :: prompts' =>
      exists line rest, stdin = line :: rest /\
                        answered int_of_str prompts' rest
  end.

(** ** How the store may change *)

(** [x] is an item of the list stored for the pool [p]. *)
Definition in_pool (reg : gmap (option (list N)) (list (list N))) (p : pool)
    (x : pystr) : Prop :=
  exists l, reg !! p = Some l /\ x ∈ l.

(** Every stored list is still there, possibly with items appended. *)
Definition lists_grow (reg reg' : gmap (option (list N)) (list (list N)))
    : Prop :=
  forall p l, reg !! p = Some l -> exists l', reg' !! p = Some (l ++ l').

(** Only the random source moved on. *)
Definition rng_only (st st' : state) : Prop :=
  ortho_dict st' = ortho_dict st /\ morphemes st' = morphemes st /\
  words st' = words st /\ names st' = names st.

(** Besides the random source only the morpheme registry changed, and it
    only grew. *)
Definition morphemes_grow (st st' : state) : Prop :=
  ortho_dict st' = ortho_dict st /\ lists_grow (morphemes st) (morphemes st') /\
  words st' = words st /\ names st' = names st.

(** The orthography table is untouched and the three registries only
    grew: lists by appending, name sets by adding. *)
Definition grows (st st' : state) : Prop :=
  ortho_dict st' = ortho_dict st /\
  lists_grow (morphemes st) (morphemes st') /\
  lists_grow (words st) (words st') /\
  (forall p cat, names st !! p = Some cat ->
                 exists cat', names st' !! p = Some cat' /\ cat ⊆ cat').

(** A computation whose final store is related to its initial one by [R],
    whether it returns or raises. *)
Definition respects (R : state -> state -> Prop) {A : Type} (m : M A)
    : Prop :=
  forall st, ensures m st (fun _ st' => R st st') (fun _ st' => R st st').

(** A computation that raises nothing but exceptions satisfying [P]. *)
Definition raises_only (P : exn -> Prop) {A : Type} (m : M A) : Prop :=
  forall st, ensures m st (fun _ _ => True) (fun e _ => P e).

(** ** The shape of syllables *)

(** The number of role tokens and of optional markers in a pattern. *)
Definition roles (specs : pystr) : Z :=
  len (List.filter (fun c => negb (N.eqb c question_mark)) specs).

Definition markers (specs : pystr) : Z :=
  len (List.filter (fun c => N.eqb c question_mark) specs).

(** [c] is a phone of the sequence the language maps the role [spec] to. *)
Definition phone_of (self : BasicLanguage) (spec c : N) : Prop :=
  exists lst, phonemes self !! [spec] = Some lst /\ c ∈ lst.

(** [c] is a phone of some role the pattern of the language mentions. *)
Definition drawn (self : BasicLanguage) (c : N) : Prop :=
  exists spec, spec ∈ syll self /\ spec <> question_mark /\
               phone_of self spec c.

(** ** Representable numbers *)

(** [x] is a number of the binary64 grid: a significand of at most 53
    bits times a power of two that is not below the subnormal spacing.
    The finite floats are the representable numbers below [2 ** 1024] in
    magnitude. *)
Definition representable (x : Q) : Prop :=
  exists m e : Z,
    Z.abs m < 2 ^ 53 /\ -1074 <= e /\ (x == inject_Z m * pow2 e)%Q.

(** ** The shape of names *)

(** What [gen_name] composes a name from: one capitalized word of the
    pool, or two different capitalized words, each of the pool or of the
    generic pool, around the joiner, with or without the genitive morpheme
    between them.  [reg] is the registry of words. *)
Definition name_core (capitalize : pystr -> pystr)
    (reg : gmap (option (list N)) (list (list N))) (p : pool)
    (j genitive : pystr) (core : pystr) : Prop :=
  (exists w, in_pool reg p w /\ core = capitalize w) \/
  (exists w1 w2,
     (in_pool reg p w1 \/ in_pool reg None w1) /\
     (in_pool reg p w2 \/ in_pool reg None w2) /\
     capitalize w1 <> capitalize w2 /\
     (core = capitalize w1 ++ j ++ capitalize w2 \/
      core = capitalize w1 ++ j ++ genitive ++ j ++ capitalize w2)).

(** ** Further data of the examples *)

(** [int(s)] restricted to non-empty strings of ASCII digits. *)
Fixpoint digits_value (acc : Z) (s : pystr) : option Z :=
  match s with
  | [] => Some acc
  | c :: s' =>
      if ((48 <=? c) && (c <=? 57))%N
      then digits_value (acc * 10 + (Z.of_N c - 48)) s'
      else None
  end.

Definition ascii_int (s : pystr) : option Z :=
  match s with
  | [] => None
  | _ :: _ => digits_value 0 s
  end.

(** The language [build_language(random=True)] returns when every output
    of the random source is 0: the first entry of every inventory. *)
Definition first_built_language : BasicLanguage :=
  BasicLanguage_attrs
    (dict [ (py "C", py "ptkmnsl"); (py "V", py "aeiou"); (py "S", py "s");
            (py "F", py "mn"); (py "L", py "rl") ])
    (py "CVC") (Some (styled_orthography 0 0 ORTHO_DEFAULT).1) 1 2
    RESTRICTIONS.

(** Every pattern of the inventory uses the five role letters and the
    optional marker only. *)
Definition inventory_letters (pattern : pystr) : bool :=
  forallb (fun c => existsb (N.eqb c) (py "CVSFL?")) pattern.

(* ================================================================= *)
(** * Properties *)

(** ** Substring test *)

Lemma is_prefix_spec (a b : list N) :
  is_prefix a b = true <-> exists q, b = a ++ q.
Proof.
  revert b. induction a as [|x a IH]; intros b; simpl.
  - split; [intros _; exists b; reflexivity | reflexivity].
  - destruct b as [|y b].
    + split; [discriminate | intros [q Hq]; discriminate].
    + destruct (N.eqb_spec x y) as [->|Hne].
      * rewrite IH. split; intros [q Hq]; exists q.
        -- now rewrite Hq.
        -- now inversion Hq.
      * split; [discriminate | intros [q Hq]; inversion Hq; congruence].
Qed.

Lemma py_in_spec (a b : list N) : py_in a b = true <-> substring a b.
Proof.
  induction b as [|y b IH]; simpl.
  - rewrite orb_false_r, is_prefix_spec. split.
    + intros [q Hq]. exists [], q. exact Hq.
    + intros [p [q Hq]]. destruct p; [exists q; exact Hq | discriminate].
  - rewrite orb_true_iff, is_prefix_spec, IH. split.
    + intros [[q Hq] | [p [q Hq]]].
      * exists [], q. exact Hq.
      * exists (y :: p), q. simpl. now rewrite Hq.
    + intros [p [q Hq]]. destruct p as [|z p]; simpl in Hq.
      * left. exists q. exact Hq.
      * right. exists p, q. now inversion Hq.
Qed.

Lemma clashes_spec (a b : list N) :
  clashes a b = true <-> substring a b \/ substring b a.
Proof. unfold clashes. now rewrite orb_true_iff, !py_in_spec. Qed.

(** ** Floats: powers of two *)
Lemma pow2_pos (e : Z) : (0 < pow2 e)%Q.
Proof. apply Qpower_0_lt. reflexivity. Qed.

Lemma pow2_add (a b : Z) : (pow2 (a + b) == pow2 a * pow2 b)%Q.
Proof. apply Qpower_plus. discriminate. Qed.

Lemma pow2_succ (a : Z) : (pow2 (a + 1) == 2 * pow2 a)%Q.
Proof. rewrite pow2_add. unfold pow2 at 2. simpl. ring. Qed.

Lemma pow2_le (a b : Z) : a <= b -> (pow2 a <= pow2 b)%Q.
Proof. intros H. apply Qpower_le_compat_l; [exact H|]. discriminate. Qed.

Lemma pow2_lt (a b : Z) : a < b -> (pow2 a < pow2 b)%Q.
Proof. intros H. apply Qpower_lt_compat_l; [exact H|]. reflexivity. Qed.

Lemma pow2_lt_inv (a b : Z) : (pow2 a < pow2 b)%Q -> a < b.
Proof.
  intros H. destruct (Z_lt_le_dec a b) as [|Hle]; [assumption|].
  apply pow2_le in Hle. lra.
Qed.

Lemma pow2_Z (e : Z) : 0 <= e -> (pow2 e == inject_Z (2 ^ e))%Q.
Proof. intros H. unfold pow2. rewrite Zpower_Qpower by exact H. reflexivity. Qed.

Lemma pow2_sub (a b : Z) : (pow2 (a - b) * pow2 b == pow2 a)%Q.
Proof. rewrite <- pow2_add. replace (a - b + b) with a by lia. reflexivity. Qed.

(** ** Floats: the binary exponent *)
Lemma ilog2_spec (x : Q) :
  (0 < x)%Q -> (pow2 (ilog2 x) <= x)%Q /\ (x < pow2 (ilog2 x + 1))%Q.
Proof.
  intros Hx. destruct x as [p q]. unfold ilog2. cbn [Qnum Qden].
  assert (Hp : 0 < p) by (unfold Qlt in Hx; simpl in Hx; lia).
  set (lp := Z.log2 p). set (lq := Z.log2 (Z.pos q)).
  assert (Hlp : 0 <= lp) by apply Z.log2_nonneg.
  assert (Hlq : 0 <= lq) by apply Z.log2_nonneg.
  destruct (Z.log2_spec p Hp) as [Hp1 Hp2]. fold lp in Hp1, Hp2.
  destruct (Z.log2_spec (Z.pos q) (Pos2Z.is_pos q)) as [Hq1 Hq2].
  fold lq in Hq1, Hq2.
  assert (Hxq : ((p # q) * inject_Z (Z.pos q) == inject_Z p)%Q).
  { unfold Qeq, Qmult, inject_Z. simpl. lia. }
  assert (Ep1 : (pow2 lp <= inject_Z p)%Q).
  { rewrite pow2_Z by lia. rewrite <- Zle_Qle. exact Hp1. }
  assert (Ep2 : (inject_Z p < pow2 (lp + 1))%Q).
  { rewrite pow2_Z by lia. rewrite <- Zlt_Qlt. replace (lp + 1) with (Z.succ lp) by lia. exact Hp2. }
  assert (Eq1 : (pow2 lq <= inject_Z (Z.pos q))%Q).
  { rewrite pow2_Z by lia. rewrite <- Zle_Qle. exact Hq1. }
  assert (Eq2 : (inject_Z (Z.pos q) < pow2 (lq + 1))%Q).
  { rewrite pow2_Z by lia. rewrite <- Zlt_Qlt. replace (lq + 1) with (Z.succ lq) by lia. exact Hq2. }
  pose proof (pow2_pos lq) as Pq. pose proof (pow2_pos (lp - lq)) as Pd.
  pose proof (pow2_sub lp lq) as S1.
  pose proof (pow2_succ lp) as S2. pose proof (pow2_succ lq) as S3.
  pose proof (pow2_succ (lp - lq)) as S4.
  pose proof (pow2_succ (lp - lq - 1)) as S5.
  replace (lp - lq - 1 + 1) with (lp - lq) in S5 by lia.
  set (x := (p # q)%Q) in *.
  set (Q' := inject_Z (Z.pos q)) in *. set (P' := inject_Z p) in *.
  set (a := pow2 lq) in *. set (b := pow2 lp) in *. set (d := pow2 (lp - lq)) in *.
  assert (Hupper : (x < 2 * d)%Q).
  { (* x * a <= x * Q' = P' < 2 b = 2 d a *)
    apply Qnot_le_lt. intros Hc.
    assert (((2 * d) * a <= x * Q')%Q) by nra. nra. }
  assert (Hlower : (d < 2 * x)%Q).
  { apply Qnot_le_lt. intros Hc.
    assert ((2 * x * Q' <= d * (2 * a))%Q) by nra. nra. }
  destruct (Qle_bool d x) eqn:Hd.
  - apply Qle_bool_iff in Hd. split; [exact Hd|]. rewrite S4. exact Hupper.
  - assert (Hd' : (x < d)%Q).
    { apply Qnot_le_lt. intros Hc. apply Qle_bool_iff in Hc. congruence. }
    replace (lp - lq - 1 + 1) with (lp - lq) by lia. fold d.
    split; [|exact Hd']. lra.
Qed.

Lemma ilog2_unique (x : Q) (k : Z) :
  (pow2 k <= x)%Q -> (x < pow2 (k + 1))%Q -> ilog2 x = k.
Proof.
  intros H1 H2.
  assert (Hx : (0 < x)%Q) by (pose proof (pow2_pos k); lra).
  destruct (ilog2_spec x Hx) as [H3 H4].
  assert (ilog2 x < k + 1) by (apply pow2_lt_inv; lra).
  assert (k < ilog2 x + 1) by (apply pow2_lt_inv; lra).
  lia.
Qed.

Lemma ilog2_le (x y : Q) : (0 < x)%Q -> (x <= y)%Q -> ilog2 x <= ilog2 y.
Proof.
  intros Hx Hxy.
  destruct (ilog2_spec x Hx) as [H1 H2].
  destruct (ilog2_spec y) as [H3 H4]; [lra|].
  assert (ilog2 x < ilog2 y + 1) by (apply pow2_lt_inv; lra).
  lia.
Qed.

Lemma ilog2_comp (x y : Q) : (0 < x)%Q -> (x == y)%Q -> ilog2 x = ilog2 y.
Proof.
  intros Hx Hxy. destruct (ilog2_spec y) as [H3 H4]; [lra|].
  apply ilog2_unique; lra.
Qed.

(** ** Floats: rounding to an integer *)
Lemma rne_spec (x : Q) :
  (inject_Z (rne x) - x <= 1 # 2)%Q /\ (x - inject_Z (rne x) <= 1 # 2)%Q.
Proof.
  unfold rne. pose proof (Qfloor_le x) as H1. pose proof (Qlt_floor x) as H2.
  rewrite inject_Z_plus in H2. change (inject_Z 1) with 1%Q in H2.
  destruct (Qcompare_spec (x - inject_Z (Qfloor x)) (1 # 2)) as [H|H|H].
  - destruct (Z.even (Qfloor x)); [|rewrite inject_Z_plus; change (inject_Z 1) with 1%Q];
      split; lra.
  - split; lra.
  - rewrite inject_Z_plus. change (inject_Z 1) with 1%Q. split; lra.
Qed.

Lemma rne_Z (n : Z) : rne (inject_Z n) = n.
Proof.
  unfold rne. rewrite Qfloor_Z.
  destruct (Qcompare_spec (inject_Z n - inject_Z n) (1 # 2)) as [H|H|H];
    [lra | reflexivity | lra].
Qed.

Lemma rne_le (x y : Q) : (x <= y)%Q -> rne x <= rne y.
Proof.
  intros Hxy. unfold rne.
  pose proof (Qfloor_resp_le x y Hxy) as Hf.
  pose proof (Qfloor_le x) as Hx1. pose proof (Qlt_floor x) as Hx2.
  pose proof (Qfloor_le y) as Hy1. pose proof (Qlt_floor y) as Hy2.
  rewrite inject_Z_plus in Hx2, Hy2. change (inject_Z 1) with 1%Q in Hx2, Hy2.
  destruct (Z.eq_dec (Qfloor x) (Qfloor y)) as [E|E].
  - rewrite <- E in *.
    destruct (Qcompare_spec (x - inject_Z (Qfloor x)) (1 # 2)) as [H|H|H];
    destruct (Qcompare_spec (y - inject_Z (Qfloor x)) (1 # 2)) as [H'|H'|H'];
    try lra; try lia; destruct (Z.even (Qfloor x)); lia.
  - assert (Hlt : Qfloor x + 1 <= Qfloor y) by lia.
    destruct (Qcompare_spec (x - inject_Z (Qfloor x)) (1 # 2)) as [H|H|H];
    destruct (Qcompare_spec (y - inject_Z (Qfloor y)) (1 # 2)) as [H'|H'|H'];
    try lia; destruct (Z.even (Qfloor x)); try destruct (Z.even (Qfloor y)); lia.
Qed.

Lemma rne_comp (x y : Q) : (x == y)%Q -> rne x = rne y.
Proof.
  intros H. apply Z.le_antisymm; apply rne_le; lra.
Qed.

Lemma inject_Z_sub (a b : Z) : inject_Z (a - b) = (inject_Z a - inject_Z b)%Q.
Proof. unfold Z.sub. rewrite inject_Z_plus, inject_Z_opp. reflexivity. Qed.

Lemma rne_between (x : Q) (n : Z) :
  (inject_Z n <= x)%Q -> (x < inject_Z n + (1 # 2))%Q -> rne x = n.
Proof.
  intros H1 H2.
  destruct (rne_spec x) as [H3 H4].
  assert (Ha : (inject_Z (rne x) < inject_Z (n + 1))%Q).
  { rewrite inject_Z_plus. change (inject_Z 1) with 1%Q. lra. }
  assert (Hb : (inject_Z (n - 1) < inject_Z (rne x))%Q).
  { rewrite inject_Z_sub. change (inject_Z 1) with 1%Q. lra. }
  rewrite <- Zlt_Qlt in Ha, Hb. lia.
Qed.

(** ** Floats: rounding to a representable number *)
Lemma fexp_pos (x : Q) :
  (0 < x)%Q -> fexp x = Z.max (ilog2 x - 52) (-1074).
Proof.
  intros Hx. unfold fexp. f_equal. f_equal. symmetry. apply ilog2_comp; [exact Hx|].
  symmetry. apply Qabs_pos. lra.
Qed.

Lemma fexp_ge (x : Q) : -1074 <= fexp x.
Proof. unfold fexp. lia. Qed.

Lemma round64_pos (x : Q) :
  (0 < x)%Q ->
  round64 x = (inject_Z (rne (x / pow2 (fexp x))) * pow2 (fexp x))%Q.
Proof.
  intros Hx. unfold round64.
  destruct (Qeq_bool x 0) eqn:E; [|reflexivity].
  apply Qeq_bool_iff in E. lra.
Qed.

Lemma round64_zero (x : Q) : (x == 0)%Q -> round64 x = 0%Q.
Proof.
  intros H. unfold round64. apply Qeq_bool_iff in H. rewrite H. reflexivity.
Qed.

Lemma Qdiv_pow2 (x : Q) (e : Z) : (x / pow2 e * pow2 e == x)%Q.
Proof. pose proof (pow2_pos e). field. lra. Qed.

Lemma Qdiv_pow2_le (x y : Q) (e : Z) :
  (x <= y)%Q -> (x / pow2 e <= y / pow2 e)%Q.
Proof.
  intros H. pose proof (pow2_pos e) as P.
  apply Qmult_le_compat_r; [exact H|]. apply Qinv_le_0_compat. lra.
Qed.

Lemma Qdiv_pow2_lt (x y : Q) (e : Z) :
  (x < y)%Q -> (x / pow2 e < y / pow2 e)%Q.
Proof.
  intros H. pose proof (pow2_pos e) as P.
  apply Qmult_lt_compat_r; [|exact H]. apply Qinv_lt_0_compat. lra.
Qed.

Lemma Qdiv_pow2_pow2 (a e : Z) : (pow2 a / pow2 e == pow2 (a - e))%Q.
Proof.
  pose proof (pow2_pos e). pose proof (pow2_sub a e). 
  apply Qmult_inj_r with (z := pow2 e); [lra|].
  rewrite Qdiv_pow2. lra.
Qed.

(** The scaled significand of a positive number. *)
Lemma scaled_lt (x : Q) :
  (0 < x)%Q -> (x / pow2 (fexp x) < pow2 53)%Q.
Proof.
  intros Hx. destruct (ilog2_spec x Hx) as [_ H2].
  rewrite fexp_pos by exact Hx.
  set (e := Z.max (ilog2 x - 52) (-1074)).
  assert (Hle : (pow2 (ilog2 x + 1) <= pow2 (e + 53))%Q) by (apply pow2_le; lia).
  pose proof (Qdiv_pow2_pow2 (e + 53) e) as Hd.
  replace (e + 53 - e) with 53 in Hd by lia.
  rewrite <- Hd. apply Qdiv_pow2_lt. lra.
Qed.

Lemma scaled_ge (x : Q) :
  (0 < x)%Q -> -1074 < fexp x -> (pow2 52 <= x / pow2 (fexp x))%Q.
Proof.
  intros Hx. destruct (ilog2_spec x Hx) as [H1 _].
  rewrite fexp_pos by exact Hx. intros He.
  assert (E : Z.max (ilog2 x - 52) (-1074) = ilog2 x - 52) by lia.
  rewrite E.
  pose proof (Qdiv_pow2_pow2 (ilog2 x) (ilog2 x - 52)) as Hd.
  replace (ilog2 x - (ilog2 x - 52)) with 52 in Hd by lia.
  rewrite <- Hd. apply Qdiv_pow2_le. exact H1.
Qed.

Lemma pow2_53 : (pow2 53 == inject_Z (2 ^ 53))%Q.
Proof. apply pow2_Z. lia. Qed.

Lemma pow2_52 : (pow2 52 == inject_Z (2 ^ 52))%Q.
Proof. apply pow2_Z. lia. Qed.

Lemma round64_nonneg (x : Q) : (0 <= x)%Q -> (0 <= round64 x)%Q.
Proof.
  intros Hx. destruct (Qeq_dec x 0) as [E|E].
  - rewrite round64_zero by exact E. lra.
  - rewrite round64_pos by lra.
    pose proof (pow2_pos (fexp x)) as P.
    apply Qmult_le_0_compat; [|lra].
    change 0%Q with (inject_Z 0). rewrite <- Zle_Qle.
    rewrite <- (rne_Z 0). apply rne_le.
    apply Qle_shift_div_l; [exact P|]. change (inject_Z 0) with 0%Q. lra.
Qed.

(** Rounding is monotone. *)
Lemma round64_le (x y : Q) :
  (0 <= x)%Q -> (x <= y)%Q -> (round64 x <= round64 y)%Q.
Proof.
  intros Hx Hxy. destruct (Qeq_dec x 0) as [E|E].
  - rewrite (round64_zero x) by exact E. apply round64_nonneg. lra.
  - assert (Hx' : (0 < x)%Q) by lra. assert (Hy' : (0 < y)%Q) by lra.
    rewrite !round64_pos by assumption.
    assert (Hexp : fexp x <= fexp y).
    { rewrite !fexp_pos by assumption.
      pose proof (ilog2_le x y Hx' Hxy). lia. }
    destruct (Z.eq_dec (fexp x) (fexp y)) as [Ee|Ee].
    + rewrite Ee. pose proof (pow2_pos (fexp y)) as P.
      apply Qmult_le_compat_r; [|lra].
      rewrite <- Zle_Qle. apply rne_le. apply Qdiv_pow2_le. exact Hxy.
    + assert (Hlt : fexp x < fexp y) by lia.
      pose proof (scaled_lt x Hx') as Hs.
      pose proof (fexp_ge x) as Hmin.
      pose proof (scaled_ge y Hy' ltac:(lia)) as Hg.
      assert (H1 : rne (x / pow2 (fexp x)) <= 2 ^ 53).
      { rewrite <- (rne_Z (2 ^ 53)). apply rne_le. rewrite <- pow2_53. lra. }
      assert (H2 : 2 ^ 52 <= rne (y / pow2 (fexp y))).
      { rewrite <- (rne_Z (2 ^ 52)). apply rne_le. rewrite <- pow2_52. exact Hg. }
      rewrite Zle_Qle in H1, H2. rewrite <- pow2_53 in H1. rewrite <- pow2_52 in H2.
      pose proof (pow2_pos (fexp x)) as Px. pose proof (pow2_pos (fexp y)) as Py.
      assert (Hmid : (pow2 53 * pow2 (fexp x) <= pow2 52 * pow2 (fexp y))%Q).
      { rewrite <- !pow2_add. apply pow2_le. lia. }
      pose proof (pow2_pos 53). pose proof (pow2_pos 52).
      apply Qle_trans with (pow2 53 * pow2 (fexp x))%Q.
      * apply Qmult_le_compat_r; lra.
      * apply Qle_trans with (pow2 52 * pow2 (fexp y))%Q; [exact Hmid|].
        apply Qmult_le_compat_r; lra.
Qed.

(** Representable numbers are left alone. *)
Lemma round64_id (x : Q) : (0 <= x)%Q -> representable x -> (round64 x == x)%Q.
Proof.
  intros Hx (m & e & Hm & He & Hxe).
  destruct (Qeq_dec x 0) as [E|E].
  - rewrite round64_zero by exact E. lra.
  - assert (Hx' : (0 < x)%Q) by lra.
    rewrite round64_pos by exact Hx'.
    pose proof (pow2_pos e) as Pe.
    assert (Hmpos : 0 < m).
    { rewrite Zlt_Qlt. change (inject_Z 0) with 0%Q. nra. }
    assert (Hle : fexp x <= e).
    { rewrite fexp_pos by exact Hx'.
      enough (ilog2 x < e + 53) by lia.
      destruct (ilog2_spec x Hx') as [H1 _].
      apply pow2_lt_inv. rewrite pow2_add, pow2_53.
      assert ((inject_Z m < inject_Z (2 ^ 53))%Q) by (rewrite <- Zlt_Qlt; lia).
      nra. }
    assert (Hscaled : (x / pow2 (fexp x) == inject_Z (m * 2 ^ (e - fexp x)))%Q).
    { rewrite inject_Z_mult, <- pow2_Z by lia.
      pose proof (pow2_pos (fexp x)) as Pf.
      apply Qmult_inj_r with (z := pow2 (fexp x)); [lra|].
      rewrite Qdiv_pow2, <- Qmult_assoc, pow2_sub. exact Hxe. }
    rewrite (rne_comp _ _ Hscaled), rne_Z. rewrite <- Hscaled.
    apply Qdiv_pow2.
Qed.

(** The result of rounding is representable. *)
Lemma round64_representable (x : Q) : (0 <= x)%Q -> representable (round64 x).
Proof.
  intros Hx. destruct (Qeq_dec x 0) as [E|E].
  - rewrite round64_zero by exact E. exists 0, 0. repeat split; try lia.
  - assert (Hx' : (0 < x)%Q) by lra.
    rewrite round64_pos by exact Hx'.
    pose proof (fexp_ge x) as He. pose proof (scaled_lt x Hx') as Hs.
    pose proof (pow2_pos (fexp x)) as P.
    set (n := rne (x / pow2 (fexp x))).
    assert (Hn1 : 0 <= n).
    { unfold n. rewrite <- (rne_Z 0). apply rne_le.
      apply Qle_shift_div_l; [exact P|]. change (inject_Z 0) with 0%Q. lra. }
    assert (Hn2 : n <= 2 ^ 53).
    { unfold n. rewrite <- (rne_Z (2 ^ 53)). apply rne_le. rewrite <- pow2_53. lra. }
    destruct (Z.eq_dec n (2 ^ 53)) as [En|En].
    + exists (2 ^ 52), (fexp x + 1). repeat split; try lia.
      rewrite En, pow2_succ.
      change (inject_Z (2 ^ 53)) with (2 * inject_Z (2 ^ 52))%Q. ring.
    + exists n, (fexp x). repeat split; try lia. 
Qed.

Lemma round64_idem (x : Q) :
  (0 <= x)%Q -> (round64 (round64 x) == round64 x)%Q.
Proof.
  intros Hx. apply round64_id; [apply round64_nonneg | apply round64_representable]; exact Hx.
Qed.

(** A representable number of at least 1, written with a full significand. *)
Lemma representable_normal (M : Q) :
  representable M -> (1 <= M)%Q ->
  exists m e : Z, 2 ^ 52 <= m < 2 ^ 53 /\ -52 <= e /\
    (M == inject_Z m * pow2 e)%Q /\ fexp M = e.
Proof.
  intros (m0 & e0 & Hm0 & He0 & HM) H1.
  assert (HM0 : (0 < M)%Q) by lra.
  destruct (ilog2_spec M HM0) as [Hk1 Hk2].
  set (k := ilog2 M) in *.
  assert (Hk : 0 <= k).
  { enough (0 < k + 1) by lia. apply pow2_lt_inv.
    change (pow2 0) with 1%Q. lra. }
  pose proof (pow2_pos e0) as Pe0.
  assert (Hm0pos : 0 < m0).
  { rewrite Zlt_Qlt. change (inject_Z 0) with 0%Q. nra. }
  assert (Hke : k - 52 <= e0).
  { enough (k < e0 + 53) by lia.
    apply pow2_lt_inv. rewrite pow2_add, pow2_53.
    assert ((inject_Z m0 < inject_Z (2 ^ 53))%Q) by (rewrite <- Zlt_Qlt; lia).
    nra. }
  exists (m0 * 2 ^ (e0 - (k - 52))), (k - 52).
  assert (HMm : (M == inject_Z (m0 * 2 ^ (e0 - (k - 52))) * pow2 (k - 52))%Q).
  { rewrite inject_Z_mult, <- pow2_Z by lia.
    rewrite <- Qmult_assoc, pow2_sub. exact HM. }
  pose proof (pow2_pos (k - 52)) as Pk.
  pose proof (pow2_add 52 (k - 52)) as A1. replace (52 + (k - 52)) with k in A1 by lia.
  pose proof (pow2_add 53 (k - 52)) as A2. replace (53 + (k - 52)) with (k + 1) in A2 by lia.
  rewrite pow2_52 in A1. rewrite pow2_53 in A2.
  set (m := m0 * 2 ^ (e0 - (k - 52))) in *.
  split; [|split; [lia|split; [exact HMm|]]].
  - split.
    + apply Z.nlt_ge. intros Hc. rewrite Zlt_Qlt in Hc. nra.
    + apply Z.nle_gt. intros Hc. rewrite Zle_Qle in Hc. nra.
  - rewrite fexp_pos by exact HM0. fold k. lia.
Qed.

(** The product of a representable [M >= 1] with a factor of at most
    [1 - 2^-53] rounds to a number below [M]. *)
Lemma round64_below (M y : Q) :
  representable M -> (1 <= M)%Q -> (0 <= y)%Q ->
  (y <= (1 - pow2 (-53)) * M)%Q -> (round64 y < M)%Q.
Proof.
  intros HbM H1 Hy0 Hy.
  destruct (representable_normal M HbM H1) as (m & e & Hm & He & HM & Hfe).
  pose proof (pow2_pos e) as Pe.
  pose proof (pow2_add (-53) 53) as A0. change (pow2 (-53 + 53)) with 1%Q in A0.
  rewrite pow2_53 in A0.
  pose proof (pow2_pos (-53)) as P53.
  assert (Hh : (pow2 (-53) * inject_Z (2 ^ 52) == 1 # 2)%Q).
  { change (inject_Z (2 ^ 53)) with (2 * inject_Z (2 ^ 52))%Q in A0. lra. }
  assert (Hm1 : (inject_Z (2 ^ 52) <= inject_Z m)%Q) by (rewrite <- Zle_Qle; lia).
  assert (Hm2 : (inject_Z m < inject_Z (2 ^ 53))%Q) by (rewrite <- Zlt_Qlt; lia).
  (* y is at least half a unit in the last place below M *)
  assert (Hhalf : (y <= (inject_Z m - (1 # 2)) * pow2 e)%Q).
  { apply Qle_trans with ((1 - pow2 (-53)) * M)%Q; [exact Hy|].
    rewrite HM. 
    assert ((1 # 2) * pow2 e <= pow2 (-53) * inject_Z m * pow2 e)%Q.
    { apply Qmult_le_compat_r; [|lra]. nra. }
    nra. }
  destruct (Qlt_le_dec (inject_Z (m - 1) * pow2 e) y) as [Hlow|Hlow].
  - (* y in the last interval below M: its scaled value rounds down *)
    destruct (Z.eq_dec m (2 ^ 52)) as [Em|Em].
    + (* M is a power of two: the bound itself is representable *)
      assert (Hf : representable ((inject_Z (2 ^ 53 - 1)) * pow2 (e - 1))).
      { exists (2 ^ 53 - 1), (e - 1). repeat split; try lia. }
      assert (Hf0 : (0 <= inject_Z (2 ^ 53 - 1) * pow2 (e - 1))%Q).
      { pose proof (pow2_pos (e - 1)). apply Qmult_le_0_compat; [|lra].
        change 0%Q with (inject_Z 0). rewrite <- Zle_Qle. lia. }
      pose proof (pow2_succ (e - 1)) as S1. replace (e - 1 + 1) with e in S1 by lia.
      assert (Hyf : (y <= inject_Z (2 ^ 53 - 1) * pow2 (e - 1))%Q).
      { apply Qle_trans with ((1 - pow2 (-53)) * M)%Q; [exact Hy|].
        rewrite HM, Em, S1.
        rewrite inject_Z_sub. change (inject_Z 1) with 1%Q.
        change (inject_Z (2 ^ 53)) with (2 * inject_Z (2 ^ 52))%Q.
        pose proof (pow2_pos (e - 1)).
        assert (E1 : ((1 - pow2 (-53)) * (inject_Z (2 ^ 52) * (2 * pow2 (e - 1)))
                 == (2 * inject_Z (2 ^ 52) - 2 * (pow2 (-53) * inject_Z (2 ^ 52))) * pow2 (e - 1))%Q) by ring.
        rewrite E1, Hh. nra. }
      pose proof (round64_le y _ Hy0 Hyf) as Hr.
      rewrite (round64_id _ Hf0 Hf) in Hr.
      apply Qle_lt_trans with (1 := Hr).
      rewrite HM, Em, S1, inject_Z_sub.
      change (inject_Z 1) with 1%Q.
      change (inject_Z (2 ^ 53)) with (2 * inject_Z (2 ^ 52))%Q.
      pose proof (pow2_pos (e - 1)). nra.
    + assert (Hm' : 2 ^ 52 <= m - 1) by lia.
      assert (Hy' : (0 < y)%Q).
      { apply Qle_lt_trans with (2 := Hlow). apply Qmult_le_0_compat; [|lra].
        change 0%Q with (inject_Z 0). rewrite <- Zle_Qle. lia. }
      assert (Hm1' : (inject_Z (2 ^ 52) <= inject_Z (m - 1))%Q) by (rewrite <- Zle_Qle; lia).
      assert (Hsub : (inject_Z (m - 1) == inject_Z m - 1)%Q).
      { rewrite inject_Z_sub. reflexivity. }
      assert (Hhalf' : (y < (inject_Z m - (1 # 2)) * pow2 e)%Q).
      { apply Qle_lt_trans with ((1 - pow2 (-53)) * M)%Q; [exact Hy|].
        rewrite HM.
        assert (Hs : (inject_Z (2 ^ 52) + 1 <= inject_Z m)%Q).
        { change 1%Q with (inject_Z 1). rewrite <- inject_Z_plus, <- Zle_Qle. lia. }
        assert (((1 # 2) * pow2 e < pow2 (-53) * inject_Z m * pow2 e)%Q).
        { apply Qmult_lt_compat_r; [lra|]. nra. }
        nra. }
      assert (Hlog : ilog2 y = e + 52).
      { apply ilog2_unique.
        - rewrite pow2_add, pow2_52. 
          apply Qle_trans with (inject_Z (m - 1) * pow2 e)%Q; [|lra].
          rewrite (Qmult_comm (pow2 e)). apply Qmult_le_compat_r; lra.
        - replace (e + 52 + 1) with (53 + e) by lia. rewrite pow2_add, pow2_53.
          apply Qle_lt_trans with (1 := Hhalf). 
          apply Qmult_lt_compat_r; [lra|]. lra. }
      assert (Hfy : fexp y = e).
      { rewrite fexp_pos by exact Hy'. rewrite Hlog. lia. }
      rewrite round64_pos by exact Hy'. rewrite Hfy.
      assert (Hr : rne (y / pow2 e) = m - 1).
      { apply rne_between.
        - apply Qle_shift_div_l; [exact Pe|]. lra.
        - apply Qlt_shift_div_r; [exact Pe|]. rewrite Hsub.
          apply Qlt_le_trans with (1 := Hhalf').
          apply Qmult_le_compat_r; lra. }
      rewrite Hr, HM. apply Qmult_lt_compat_r; [lra|]. rewrite Hsub. lra.
  - (* y is not above the previous representable number *)
    assert (Hf : representable (inject_Z (m - 1) * pow2 e)).
    { exists (m - 1), e. repeat split; try lia. }
    assert (Hf0 : (0 <= inject_Z (m - 1) * pow2 e)%Q) by lra.
    pose proof (round64_le y _ Hy0 Hlow) as Hr.
    rewrite (round64_id _ Hf0 Hf) in Hr.
    apply Qle_lt_trans with (1 := Hr). rewrite HM.
    apply Qmult_lt_compat_r; [lra|]. rewrite <- Zlt_Qlt. lia.
Qed.

(** ** Floats: powers of a number in the unit interval *)
Lemma Qpower_succ (u : Q) (n : nat) :
  (u ^ Z.of_nat (S n) == u * u ^ Z.of_nat n)%Q.
Proof.
  rewrite Nat2Z.inj_succ. unfold Z.succ.
  rewrite Qpower_plus' by lia. rewrite Qpower_1_r. ring.
Qed.

Lemma Qpower_unit (u : Q) (n : Z) :
  (0 <= u)%Q -> (u <= 1)%Q -> 0 <= n -> (0 <= u ^ n)%Q /\ (u ^ n <= 1)%Q.
Proof.
  intros H0 H1 Hn. rewrite <- (Z2Nat.id n Hn).
  induction (Z.to_nat n) as [|k IH].
  - simpl. split; lra.
  - rewrite Qpower_succ. destruct IH as [I0 I1]. split; nra.
Qed.


Lemma Qpower_le_exp (u : Q) (n n' : Z) :
  (0 <= u)%Q -> (u <= 1)%Q -> 0 <= n -> n <= n' -> (u ^ n' <= u ^ n)%Q.
Proof.
  intros H0 H1 Hn Hn'.
  replace n' with (n + (n' - n)) by lia.
  destruct (Z.eq_dec (n + (n' - n)) 0) as [E|E].
  - replace n with 0 by lia. replace (0 + (n' - 0)) with 0 by lia. lra.
  - rewrite Qpower_plus' by exact E.
    destruct (Qpower_unit u n H0 H1 Hn) as [A0 A1].
    destruct (Qpower_unit u (n' - n) H0 H1 ltac:(lia)) as [B0 B1].
    nra.
Qed.

Lemma Qpower_le_self (u : Q) (n : Z) :
  (0 <= u)%Q -> (u <= 1)%Q -> 1 <= n -> (u ^ n <= u)%Q.
Proof.
  intros H0 H1 Hn.
  pose proof (Qpower_le_exp u 1 n H0 H1 ltac:(lia) Hn) as H.
  rewrite Qpower_1_r in H. exact H.
Qed.

(** ** Floats: the largest float below one *)
Lemma representable_below_one (u : Q) :
  representable u -> (u < 1)%Q -> (u <= 1 - pow2 (-53))%Q.
Proof.
  intros (m & e & Hm & He & Hu) H1.
  pose proof (pow2_pos e) as Pe. pose proof (pow2_pos (-53)) as P53.
  pose proof (pow2_add (-53) 53) as A0. change (pow2 (-53 + 53)) with 1%Q in A0.
  rewrite pow2_53 in A0.
  destruct (Z_le_gt_dec (-53) e) as [Hge|Hlt].
  - (* u is a multiple of 2^-53 *)
    pose proof (pow2_sub e (-53)) as S. 
    rewrite pow2_Z in S by lia.
    set (n := m * 2 ^ (e - -53)).
    assert (Hun : (u == inject_Z n * pow2 (-53))%Q).
    { unfold n. rewrite inject_Z_mult, <- Qmult_assoc, S. exact Hu. }
    assert (Hn : n < 2 ^ 53).
    { rewrite Zlt_Qlt. nra. }
    assert (Hn' : (inject_Z n <= inject_Z (2 ^ 53) - 1)%Q).
    { change 1%Q with (inject_Z 1). rewrite <- inject_Z_sub, <- Zle_Qle. lia. }
    nra.
  - assert (Hm' : (inject_Z m < inject_Z (2 ^ 53))%Q) by (rewrite <- Zlt_Qlt; lia).
    assert (Hp : (pow2 e <= pow2 (-54))%Q) by (apply pow2_le; lia).
    pose proof (pow2_succ (-54)) as S. change (-54 + 1) with (-53) in S.
    change (inject_Z (2 ^ 53)) with 9007199254740992%Q in *.
    destruct (Z_le_gt_dec m 0) as [Hm0|Hm0].
    + assert ((inject_Z m <= 0)%Q) by (change 0%Q with (inject_Z 0); rewrite <- Zle_Qle; lia).
      nra.
    + assert ((0 < inject_Z m)%Q) by (change 0%Q with (inject_Z 0); rewrite <- Zlt_Qlt; lia).
      assert ((inject_Z m * pow2 e <= 9007199254740992 * pow2 (-54))%Q) by nra.
      nra.
Qed.

(** ** The weighted chooser: index bounds *)

Lemma py_getitem_in_range {A : Type} (lst : list A) (i : Z) :
  0 <= i < len lst ->
  py_getitem lst i = lst !! Z.to_nat i /\ is_Some (py_getitem lst i).
Proof.
  intros Hi. unfold py_getitem, len in *.
  replace (0 <=? i) with true by (symmetry; apply Z.leb_le; lia).
  replace (i <? Z.of_nat (length lst)) with true
    by (symmetry; apply Z.ltb_lt; lia).
  simpl. split; [reflexivity|].
  apply lookup_lt_is_Some. lia.
Qed.

Lemma py_int_floor (x : Q) : (0 <= x)%Q -> py_int x = Qfloor x.
Proof.
  intros Hx. destruct x as [p q]. unfold py_int, Qfloor. simpl.
  apply Z.quot_div_nonneg; [|lia]. unfold Qle in Hx. simpl in Hx. lia.
Qed.


Lemma representable_one : representable 1.
Proof. exists 1, 0. repeat split; try lia. Qed.

Lemma round64_one : (round64 1 == 1)%Q.
Proof. apply round64_id; [lra | exact representable_one]. Qed.

Lemma float_max_lt : (inject_Z float_max < pow2 1024)%Q.
Proof.
  rewrite pow2_Z by lia. rewrite <- Zlt_Qlt. unfold float_max.
  assert (0 < 2 ^ 971) by (apply Z.pow_pos_nonneg; lia). lia.
Qed.

Lemma representable_float_max : representable (inject_Z float_max).
Proof.
  exists (2 ^ 53 - 1), 971. split; [|split; [lia|]].
  - rewrite Z.abs_eq by lia. lia.
  - rewrite pow2_Z by lia. rewrite <- inject_Z_mult.
    apply inject_Z_injective. unfold float_max.
    replace 1024 with (53 + 971) by lia. rewrite Z.pow_add_r by lia. ring.
Qed.

(** An int up to the largest float converts to a float. *)
Lemma float_of_int_Some (n : Z) :
  0 <= n -> n <= float_max ->
  float_of_int n = Some (round64 (inject_Z n)).
Proof.
  intros H0 H1. unfold float_of_int.
  assert (Hn0 : (0 <= inject_Z n)%Q).
  { change 0%Q with (inject_Z 0). rewrite <- Zle_Qle. exact H0. }
  assert (Hn1 : (inject_Z n <= inject_Z float_max)%Q) by (rewrite <- Zle_Qle; exact H1).
  pose proof (round64_nonneg _ Hn0) as Hr0.
  pose proof (round64_le _ _ Hn0 Hn1) as Hr1.
  rewrite (round64_id (inject_Z float_max)) in Hr1
    by (try exact representable_float_max; lra).
  pose proof float_max_lt as Hlt.
  destruct (Qle_bool _ _) eqn:E; [|reflexivity].
  apply Qle_bool_iff in E. rewrite Qabs_pos in E by exact Hr0. lra.
Qed.

Lemma float_of_len_ge_one {A : Type} (lst : list A) :
  lst <> [] -> (1 <= float_of_len (length lst))%Q.
Proof.
  intros Hne. unfold float_of_len. rewrite <- round64_one.
  apply round64_le; [lra|].
  change 1%Q with (inject_Z 1). rewrite <- Zle_Qle.
  destruct lst; [congruence|]. simpl length. lia.
Qed.

(** The index stays below the length: the power is at most [1 - 2^-53],
    the product rounds below the float of the length, and no float lies
    between the length and its float. *)
Lemma scaled_index_bound (p : Q) (n : nat) :
  (0 < n)%nat -> (0 <= p)%Q -> (p <= 1 - pow2 (-53))%Q ->
  0 <= py_int (float_mul p (float_of_len n)) <= Z.of_nat n - 1.
Proof.
  intros Hn Hp0 Hp1. unfold float_mul, float_of_len.
  set (n' := inject_Z (Z.of_nat n)).
  assert (Hn' : (1 <= n')%Q).
  { unfold n'. change 1%Q with (inject_Z 1). rewrite <- Zle_Qle. lia. }
  assert (HM1 : (1 <= round64 n')%Q).
  { rewrite <- round64_one. apply round64_le; lra. }
  assert (HbM : representable (round64 n')) by (apply round64_representable; lra).
  assert (Hy0 : (0 <= p * round64 n')%Q) by nra.
  pose proof (pow2_pos (-53)) as P53.
  assert (Hy1 : (p * round64 n' <= (1 - pow2 (-53)) * round64 n')%Q) by nra.
  pose proof (round64_below _ _ HbM HM1 Hy0 Hy1) as Hlt.
  pose proof (round64_nonneg _ Hy0) as Hx0.
  set (x := round64 (p * round64 n')) in *.
  assert (HxN : (x < n')%Q).
  { apply Qnot_le_lt. intros Hc.
    pose proof (round64_le n' x ltac:(lra) Hc) as Hr.
    unfold x in Hr at 1. rewrite round64_idem in Hr by exact Hy0. fold x in Hr. lra. }
  rewrite py_int_floor by exact Hx0.
  split.
  - rewrite <- (Qfloor_Z 0). apply Qfloor_resp_le. exact Hx0.
  - enough (Qfloor x < Z.of_nat n) by lia.
    rewrite Zlt_Qlt. fold n'. pose proof (Qfloor_le x). lra.
Qed.

Lemma float_pow_unit (u w : Q) :
  (0 <= u)%Q -> (u <= 1 - pow2 (-53))%Q -> (1 <= w)%Q ->
  (0 <= float_pow u w)%Q /\ (float_pow u w <= 1 - pow2 (-53))%Q.
Proof.
  intros H0 H1 Hw. unfold float_pow.
  pose proof (pow2_pos (-53)) as P53.
  assert (Hn : 1 <= Qfloor w).
  { rewrite <- (Qfloor_Z 1). apply Qfloor_resp_le. exact Hw. }
  assert (Hp0 : (0 <= u ^ Qfloor w)%Q) by (apply Qpower_0_le; exact H0).
  assert (Hp1 : (u ^ Qfloor w <= u)%Q) by (apply Qpower_le_self; [lra|lra|exact Hn]).
  split; [apply round64_nonneg; exact Hp0|].
  assert (Hb : representable (1 - pow2 (-53))).
  { exists (2 ^ 53 - 1), (-53). split; [|split; [lia|]].
    - rewrite Z.abs_eq by lia. lia.
    - rewrite inject_Z_sub.
      pose proof (pow2_add 53 (-53)) as A. change (pow2 (53 + -53)) with 1%Q in A.
      rewrite pow2_53 in A. change (inject_Z 1) with 1%Q.
      set (c := inject_Z (2 ^ 53)) in *. set (d := pow2 (-53)) in *.
      assert (E : ((c - 1) * d == c * d - d)%Q) by ring. rewrite E, <- A. reflexivity. }
  rewrite <- (round64_id (1 - pow2 (-53))) by (try exact Hb; lra).
  apply round64_le; lra.
Qed.

Lemma choose_index_bounds {A : Type} (lst : list A) (exp : N) (u : Q) :
  lst <> [] -> representable u -> (0 <= u)%Q -> (u < 1)%Q ->
  (1 <= exp)%N -> Z.of_N exp <= float_max ->
  exists i : Z, choose_index lst exp u = Some i /\ 0 <= i <= len lst - 1.
Proof.
  intros Hne Hb H0 H1 He Hmax. unfold choose_index.
  rewrite float_of_int_Some by lia.
  eexists. split; [reflexivity|].
  pose proof (representable_below_one u Hb H1) as Hu.
  assert (Hw : (1 <= round64 (inject_Z (Z.of_N exp)))%Q).
  { rewrite <- round64_one. apply round64_le; [lra|].
    change 1%Q with (inject_Z 1). rewrite <- Zle_Qle. lia. }
  destruct (float_pow_unit u _ H0 Hu Hw) as [Hp0 Hp1].
  apply scaled_index_bound; try assumption.
  destruct lst; [congruence|]. simpl. lia.
Qed.

Lemma choose_empty {A : Type} (exp : N) (u : Q) : choose (@nil A) exp u = None.
Proof.
  unfold choose. destruct (choose_index _ _ _) as [i|]; [|reflexivity].
  unfold py_getitem. simpl length. simpl Z.of_nat.
  destruct i as [|i|i]; reflexivity.
Qed.


Lemma round64_comp (x y : Q) :
  (0 <= x)%Q -> (x == y)%Q -> (round64 x == round64 y)%Q.
Proof.
  intros Hx Hxy. apply Qle_antisym; apply round64_le; lra.
Qed.

(** With the exponent 0 the power is 1.0 and the index is the float of
    the length, which is the length itself below [2 ** 53]. *)
Lemma choose_index_exponent_zero {A : Type} (lst : list A) (u : Q) :
  len lst < 2 ^ 53 -> choose_index lst 0 u = Some (len lst).
Proof.
  intros Hlen. unfold choose_index.
  rewrite float_of_int_Some by (vm_compute; discriminate).
  f_equal. unfold float_mul, float_pow, float_of_len.
  rewrite (round64_zero (inject_Z (Z.of_N 0))) by reflexivity.
  change (Qfloor 0) with 0. change (u ^ 0)%Q with 1%Q.
  set (n := inject_Z (Z.of_nat (length lst))).
  assert (Hn0 : (0 <= n)%Q).
  { unfold n. change 0%Q with (inject_Z 0). rewrite <- Zle_Qle. lia. }
  assert (Hrep : representable n).
  { exists (Z.of_nat (length lst)), 0. unfold len in Hlen.
    split; [lia|]. split; [lia|]. unfold n. change (pow2 0) with 1%Q. ring. }
  assert (Hval : (round64 (round64 1 * round64 n) == n)%Q).
  { pose proof (round64_nonneg n Hn0) as Hr. pose proof round64_one as H1.
    apply Qeq_trans with (round64 (round64 n)).
    - apply round64_comp; [nra|]. rewrite H1. ring.
    - rewrite round64_idem by exact Hn0. apply round64_id; assumption. }
  rewrite py_int_floor by (rewrite Hval; exact Hn0).
  rewrite Hval. apply Qfloor_Z.
Qed.

Lemma py_getitem_len {A : Type} (lst : list A) :
  py_getitem lst (len lst) = None.
Proof.
  unfold py_getitem, len.
  replace (Z.of_nat (length lst) <? Z.of_nat (length lst)) with false
    by (symmetry; apply Z.ltb_ge; lia).
  rewrite andb_false_r.
  replace (Z.of_nat (length lst) <? 0) with false
    by (symmetry; apply Z.ltb_ge; lia).
  rewrite andb_false_r. reflexivity.
Qed.

(** C9, as stated, fails for the exponent 0: [u ** 0] is 1.0, so the index
    is [len(lst)] and the subscript raises [IndexError] although the
    sequence is not empty and [u] is a float in [0, 1). *)
Lemma choose_exponent_zero_out_of_range :
  py "ptk" <> [] /\ representable (1 # 2) /\
  (0 <= 1 # 2)%Q /\ (1 # 2 < 1)%Q /\
  choose_index (py "ptk") 0 (1 # 2) = Some 3 /\
  len (py "ptk") = 3 /\
  py_getitem (py "ptk") 3 = None /\
  choose (py "ptk") 0 (1 # 2) = None.
Proof.
  split; [discriminate|].
  split; [exists 1, (-1); repeat split; try lia; reflexivity|].
  repeat split; try reflexivity; try discriminate.
Qed.

(** C9 (amended): for every non-empty sequence of N candidates, every
    float [u] in [0, 1) and every integer skew exponent [exp] from 1 (the
    default is 2) up to the largest float, the index [int(u**exp * N)],
    computed in binary64 with [**] and [*] rounded to nearest, lies in
    [0, N-1], the subscript succeeds and [choose] returns the element at
    that index.  The bound does not depend on how [**] rounds: the index
    [int(p * N)] lies in [0, N-1], and the subscript succeeds, for every
    float [p] in [0, 1).  With the exponent 0 and N below [2 ** 53] the
    index is N and the subscript raises [IndexError]; on the empty
    sequence [choose] fails whatever [u] and [exp] are. *)
Theorem choose_in_bounds {A : Type} (lst : list A) (exp : N) (u : Q) :
  lst <> [] -> representable u -> (0 <= u)%Q -> (u < 1)%Q ->
  (1 <= exp)%N -> Z.of_N exp <= float_max ->
  (exists i : Z,
     choose_index lst exp u = Some i /\
     0 <= i <= len lst - 1 /\
     choose lst exp u = lst !! Z.to_nat i /\
     is_Some (choose lst exp u)) /\
  (forall p : Q,
     representable p -> (0 <= p)%Q -> (p < 1)%Q ->
     let i := py_int (float_mul p (float_of_len (length lst))) in
     0 <= i <= len lst - 1 /\ py_getitem lst i = lst !! Z.to_nat i /\
     is_Some (py_getitem lst i)) /\
  (len lst < 2 ^ 53 ->
   choose_index lst 0 u = Some (len lst) /\ choose lst 0 u = None) /\
  choose (@nil A) exp u = None.
Proof.
  intros Hne Hb H0 H1 He Hmax.
  split; [|split; [|split; [|apply choose_empty]]].
  - destruct (choose_index_bounds lst exp u Hne Hb H0 H1 He Hmax)
      as (i & Hi & Hr).
    exists i. split; [exact Hi|]. split; [exact Hr|].
    unfold choose. rewrite Hi.
    destruct (py_getitem_in_range lst i) as [Heq Hsome]; [lia|].
    split; [exact Heq | exact Hsome].
  - intros p Hp Hp0 Hp1 i.
    assert (Hi : 0 <= i <= len lst - 1).
    { apply scaled_index_bound.
      - destruct lst; [congruence | simpl; lia].
      - exact Hp0.
      - apply representable_below_one; assumption. }
    split; [exact Hi|]. apply py_getitem_in_range. lia.
  - intros Hlen. pose proof (choose_index_exponent_zero lst u Hlen) as Hz.
    split; [exact Hz|]. unfold choose. rewrite Hz. apply py_getitem_len.
Qed.

Lemma choose_in_bounds_witness :
  (exists i : Z,
     choose_index (py "ptk") 2 (5200308914369308 # 2 ^ 53) = Some i /\
     0 <= i <= len (py "ptk") - 1 /\
     choose (py "ptk") 2 (5200308914369308 # 2 ^ 53)
     = py "ptk" !! Z.to_nat i /\
     is_Some (choose (py "ptk") 2 (5200308914369308 # 2 ^ 53))) /\
  (forall p : Q,
     representable p -> (0 <= p)%Q -> (p < 1)%Q ->
     let i := py_int (float_mul p (float_of_len (length (py "ptk")))) in
     0 <= i <= len (py "ptk") - 1 /\
     py_getitem (py "ptk") i = py "ptk" !! Z.to_nat i /\
     is_Some (py_getitem (py "ptk") i)) /\
  (len (py "ptk") < 2 ^ 53 ->
   choose_index (py "ptk") 0 (5200308914369308 # 2 ^ 53)
   = Some (len (py "ptk")) /\
   choose (py "ptk") 0 (5200308914369308 # 2 ^ 53) = None) /\
  choose (@nil N) 2 (5200308914369308 # 2 ^ 53) = None.
Proof.
  apply (choose_in_bounds (py "ptk") 2 (5200308914369308 # 2 ^ 53)).
  - discriminate.
  - exists 5200308914369308, (-53). repeat split; try lia; reflexivity.
  - unfold Qle; simpl; lia.
  - unfold Qlt; simpl; lia.
  - lia.
  - vm_compute. discriminate.
Defined.

Example choose_default_example : choose (py "ptk") 2 (3 # 4) = Some 116%N.
Proof. vm_compute. reflexivity. Qed.

(** Rounding decides the index: for this draw the exact value of
    [u**2 * 3] is below 1, its binary64 value is 1.0, and the element
    chosen is the second one. *)
Example choose_rounds_up :
  let u := (5200308914369308 # 2 ^ 53)%Q in
  (u ^ 2 * 3 < 1)%Q /\
  (float_mul (float_pow u 2) (float_of_len 3) == 1)%Q /\
  choose_index (py "ptk") 2 u = Some 1 /\
  choose (py "ptk") 2 u = Some 116%N.
Proof.
  repeat split; vm_compute; reflexivity.
Qed.

(** An exponent beyond the floats: [**] raises [OverflowError] and no index
    is computed. *)
Example choose_exponent_overflow :
  choose_index (py "ptk") (2 ^ 1024) (1 # 2) = None.
Proof. vm_compute. reflexivity. Qed.

(** ** Transliteration *)

Lemma transliterate_with_app (o : Orthography) (tbl : gmap (list N) (list N))
    (a b : list N) :
  transliterate_with o tbl (a ++ b)
  = transliterate_with o tbl a ++ transliterate_with o tbl b.
Proof.
  unfold transliterate_with. now rewrite List.map_app, List.concat_app.
Qed.

Lemma transliterate_with_fixed (o : Orthography)
    (tbl : gmap (list N) (list N)) (v : list N) :
  forallb (fixed_char tbl) v = true -> transliterate_with o tbl v = v.
Proof.
  induction v as [|d v IH]; intros Hv; [reflexivity|].
  simpl in Hv. apply andb_true_iff in Hv as [Hd Hv].
  change (d :: v) with ([d] ++ v) at 1.
  rewrite transliterate_with_app, IH by exact Hv.
  unfold transliterate_with, Orthography_get, Orthography_getitem.
  unfold fixed_char in Hd. simpl.
  destruct (tbl !! [d]) as [w|]; [|reflexivity].
  apply bool_decide_eq_true in Hd. now subst w.
Qed.

Lemma table_stable_lookup (tbl : gmap (list N) (list N)) (c : N) (v : list N) :
  table_stable tbl = true -> tbl !! [c] = Some v ->
  forallb (fixed_char tbl) v = true.
Proof.
  unfold table_stable. intros Hst Hc.
  rewrite forallb_forall in Hst.
  specialize (Hst ([c], v)). simpl in Hst. apply Hst.
  apply list_elem_of_In, elem_of_map_to_list. exact Hc.
Qed.

Lemma transliterate_with_idempotent (o : Orthography)
    (tbl : gmap (list N) (list N)) (s : list N) :
  table_stable tbl = true ->
  transliterate_with o tbl (transliterate_with o tbl s)
  = transliterate_with o tbl s.
Proof.
  intros Hst. induction s as [|c s IH]; [reflexivity|].
  change (c :: s) with ([c] ++ s).
  rewrite !transliterate_with_app, IH. f_equal.
  unfold transliterate_with at 2 3. simpl. rewrite !app_nil_r.
  unfold Orthography_get, Orthography_getitem.
  destruct (tbl !! [c]) as [v|] eqn:Hc.
  - apply transliterate_with_fixed. eapply table_stable_lookup; eassumption.
  - unfold transliterate_with, Orthography_get, Orthography_getitem. simpl.
    now rewrite Hc.
Qed.

(** C8, as stated, fails: with consonant style 4 merged into the default
    table the phone [ʃ] is written [x], and [x] is itself a key of the
    table, written [kh]. *)
Lemma transliterate_not_idempotent :
  transliterate (styled_language 4 0 "ptk" "ai" "CVC" 1 1) [esh]
                (styled_state 4 0 [])
  = Ok (py "x") (styled_state 4 0 []) /\
  transliterate (styled_language 4 0 "ptk" "ai" "CVC" 1 1) (py "x")
                (styled_state 4 0 [])
  = Ok (py "kh") (styled_state 4 0 []).
Proof. split; vm_compute; reflexivity. Qed.

(** The same happens with the default table alone: [ʤ] is written [j] and
    [j] is written [y]. *)
Example transliterate_default_not_idempotent :
  transliterate_with (styled_orthography 0 0 ORTHO_DEFAULT).1 ORTHO_DEFAULT
    [dezh] = py "j" /\
  transliterate_with (styled_orthography 0 0 ORTHO_DEFAULT).1 ORTHO_DEFAULT
    (py "j") = py "y".
Proof. split; vm_compute; reflexivity. Qed.

(** Which merged tables are stable: exactly those of the consonant styles
    1 and 2, the two that map [j] to itself. *)
Example stable_styles :
  List.map (fun ci =>
              List.map (fun vi =>
                          table_stable (styled_orthography ci vi ORTHO_DEFAULT).2)
                       (seq 0 5))
           (seq 0 5)
  = [ [false; false; false; false; false];
      [true; true; true; true; true];
      [true; true; true; true; true];
      [false; false; false; false; false];
      [false; false; false; false; false] ].
Proof. vm_compute. reflexivity. Qed.

(** C8 (amended): transliteration is idempotent whenever the language has
    no orthography, or its table is stable, that is, no display string of
    a one-character key contains a character the table maps to something
    else; then transliterating the output again returns it unchanged, for
    every string. *)
Theorem transliterate_idempotent (self : BasicLanguage) (st : state)
    (s : list N) :
  (ortho self <> None -> table_stable (ortho_dict st) = true) ->
  exists s1, transliterate self s st = Ok s1 st /\
             transliterate self s1 st = Ok s1 st.
Proof.
  intros Hst. unfold transliterate.
  destruct (ortho self) as [o|].
  - exists (transliterate_with o (ortho_dict st) s).
    unfold bind, get_state, ret.
    split; [reflexivity|].
    rewrite transliterate_with_idempotent; [reflexivity|].
    apply Hst. discriminate.
  - exists s. split; reflexivity.
Qed.

Lemma transliterate_idempotent_witness :
  exists s1,
    transliterate (styled_language 1 4 "ptk" "ai" "CVC" 1 1)
                  [esh; 65%N; dezh; 106%N] (styled_state 1 4 [])
    = Ok s1 (styled_state 1 4 []) /\
    transliterate (styled_language 1 4 "ptk" "ai" "CVC" 1 1) s1
                  (styled_state 1 4 [])
    = Ok s1 (styled_state 1 4 []).
Proof.
  apply (transliterate_idempotent (styled_language 1 4 "ptk" "ai" "CVC" 1 1)
                                  (styled_state 1 4 [])).
  intros _. vm_compute. reflexivity.
Defined.

(** ** The shared orthography dictionary *)

Lemma Orthography_init_table (c v : option (gmap (list N) (list N)))
    (j : list N) (shared : gmap (list N) (list N)) :
  (Orthography_init c v j shared).2 = overlay v ∪ (overlay c ∪ shared).
Proof.
  unfold Orthography_init, dict_update, overlay. simpl.
  destruct c, v; simpl; now rewrite ?(left_id_L ∅ (∪)).
Qed.

(** C10: constructing an [Orthography] updates the one dictionary that the
    module variable and the class attribute both name.  After a second
    construction the store holds the second overlays merged over
    everything that was there, a lookup through the first instance and a
    lookup through the second give the same answer for every key, and for
    a key of the second overlays that answer is the second instance's
    value, whatever the first instance was built with. *)
Theorem Orthography_instances_share_table
    (c1 v1 c2 v2 : option (gmap (list N) (list N))) (j1 j2 : list N)
    (shared : gmap (list N) (list N)) (key : list N) :
  let r1 := Orthography_init c1 v1 j1 shared in
  let r2 := Orthography_init c2 v2 j2 r1.2 in
  r2.2 = overlay v2 ∪ (overlay c2 ∪ (overlay v1 ∪ (overlay c1 ∪ shared))) /\
  Orthography_getitem r1.1 key r2.2 = Orthography_getitem r2.1 key r2.2 /\
  Orthography_getitem r1.1 key r2.2
  = match (overlay v2 ∪ overlay c2) !! key with
    | Some val => Some val
    | None => Orthography_getitem r1.1 key r1.2
    end.
Proof.
  intros r1 r2. subst r1 r2.
  rewrite !Orthography_init_table.
  split; [reflexivity|]. split; [reflexivity|].
  unfold Orthography_getitem.
  rewrite (assoc_L (∪) (overlay v2) (overlay c2)).
  rewrite lookup_union.
  destruct ((overlay v2 ∪ overlay c2) !! key) as [val|];
    destruct ((overlay v1 ∪ (overlay c1 ∪ shared)) !! key); reflexivity.
Qed.

(** A run of the scenario: the first instance is built with the styles
    (1, 1), the second with (2, 2); the first instance now writes [ʃ] as
    [sch], no longer as [š], and the module-level default entry [sh] is
    gone as well. *)
Example Orthography_second_construction_rewrites_first :
  let r1 := styled_orthography 1 1 ORTHO_DEFAULT in
  let r2 := styled_orthography 2 2 r1.2 in
  ORTHO_DEFAULT !! [esh] = Some (py "sh") /\
  Orthography_getitem r1.1 [esh] r1.2 = Some [0x161%N] /\
  Orthography_getitem r1.1 [esh] r2.2 = Some (py "sch") /\
  Orthography_getitem r2.1 [esh] r2.2 = Some (py "sch").
Proof. vm_compute. repeat split. Qed.

(** ** Reasoning about generator computations *)

Lemma bind_Ok {A B : Type} (m : M A) (f : A -> M B) (st st2 : state) (b : B) :
  bind m f st = Ok b st2 ->
  exists a st1, m st = Ok a st1 /\ f a st1 = Ok b st2.
Proof.
  unfold bind. destruct (m st) as [a st1|e st1|]; try discriminate.
  intros H. exists a, st1. split; [reflexivity | exact H].
Qed.

Lemma ensures_bind {A B : Type} (m : M A) (f : A -> M B) (st : state)
    (Q : B -> state -> Prop) (E : exn -> state -> Prop) :
  ensures m st (fun a st1 => ensures (f a) st1 Q E) E ->
  ensures (bind m f) st Q E.
Proof.
  unfold ensures, bind. destruct (m st) as [a st1|e st1|]; intros H; exact H.
Qed.

Lemma ensures_weaken {A : Type} (m : M A) (st : state)
    (Q Q' : A -> state -> Prop) (E E' : exn -> state -> Prop) :
  ensures m st Q E ->
  (forall a st', Q a st' -> Q' a st') ->
  (forall e st', E e st' -> E' e st') ->
  ensures m st Q' E'.
Proof.
  unfold ensures. destruct (m st) as [a st1|e st1|]; intros H HQ HE; auto.
Qed.

Lemma ensures_Ok {A : Type} (m : M A) (st st' : state) (a : A)
    (Q : A -> state -> Prop) (E : exn -> state -> Prop) :
  ensures m st Q E -> m st = Ok a st' -> Q a st'.
Proof. unfold ensures. intros H Heq. now rewrite Heq in H. Qed.

(** ** Restriction patterns *)

Lemma has_adjacent_pair_spec (s : list N) :
  has_adjacent_pair s = true <->
  exists p c q, s = p ++ c :: c :: q /\ c <> 10%N.
Proof.
  induction s as [|x s IH].
  - simpl. split; [discriminate|].
    intros (p & c & q & Hs & _). destruct p; discriminate.
  - destruct s as [|y s].
    + simpl. split; [discriminate|].
      intros (p & c & q & Hs & _).
      destruct p as [|? [|? ?]]; discriminate.
    + change (has_adjacent_pair (x :: y :: s))
        with ((N.eqb x y && negb (N.eqb x 10)) || has_adjacent_pair (y :: s)).
      rewrite orb_true_iff, andb_true_iff, negb_true_iff, IH.
      rewrite N.eqb_eq, N.eqb_neq. split.
      * intros [[-> Hnl] | (p & c & q & Hs & Hc)].
        -- exists [], y, s. split; [reflexivity | exact Hnl].
        -- exists (x :: p), c, q. split; [simpl; now rewrite Hs | exact Hc].
      * intros (p & c & q & Hs & Hc). destruct p as [|z p].
        -- simpl in Hs. inversion Hs; subst. left. split; [reflexivity | exact Hc].
        -- simpl in Hs. inversion Hs; subst. right. exists p, c, q. now split.
Qed.

Lemma restricted_false (self : BasicLanguage) (raw : list N) :
  restricted self raw = false <->
  forall r, r ∈ restricts self -> re_search r raw = false.
Proof.
  unfold restricted. split.
  - intros H r Hr. apply list_elem_of_In in Hr.
    destruct (re_search r raw) eqn:Hm; [|reflexivity].
    assert (existsb (fun r => re_search r raw) (restricts self) = true) as Ht
      by (apply existsb_exists; eauto).
    congruence.
  - intros H. destruct (existsb _ _) eqn:Hex; [|reflexivity].
    apply existsb_exists in Hex as (r & Hr & Hm).
    apply list_elem_of_In in Hr. rewrite (H r Hr) in Hm. discriminate.
Qed.

(** ** The syllable generator *)

Lemma transliterate_returns (self : BasicLanguage) (s : list N) (st : state) :
  exists s', transliterate self s st = Ok s' st /\
             (ortho self = None -> s' = s).
Proof.
  unfold transliterate. destruct (ortho self) as [o|].
  - eexists. split; [reflexivity | discriminate].
  - exists s. split; reflexivity.
Qed.

Lemma gen_syllable_Ok (self : BasicLanguage) (fuel : nat) (st st' : state)
    (s : list N) :
  gen_syllable self fuel st = Ok s st' ->
  exists raw, restricted self raw = false /\
              transliterate self raw st' = Ok s st' /\
              (ortho self = None -> s = raw).
Proof.
  revert st. induction fuel as [|fuel IH]; intros st; [discriminate|].
  simpl. intros H. apply bind_Ok in H as (phones & st1 & _ & H).
  destruct (restricted self (concat phones)) eqn:Hr.
  - eapply IH. exact H.
  - exists (concat phones).
    destruct (transliterate_returns self (concat phones) st1) as (s' & Ht & Hn).
    rewrite Ht in H. inversion H; subst. auto.
Qed.

(** C7, as stated, fails: the restrictions are tested on the raw phones and
    the syllable that is returned is their transliteration.  With vowel
    style 4 the language writes the phone [A] as [aa], so the raw syllable
    [pAp] passes every restriction and is returned as [paap], which the
    repetition pattern matches. *)
Lemma gen_syllable_returns_restricted :
  gen_syllable (styled_language 0 4 "ptkmnsl" "aeiouAEI" "CVC" 1 1) 1
               (styled_state 0 4 [0; raw_of 4 5; 0]%N)
  = Ok (py "paap") (styled_state 0 4 []) /\
  Backref_pair ∈ restricts (styled_language 0 4 "ptkmnsl" "aeiouAEI" "CVC" 1 1) /\
  re_search Backref_pair (py "paap") = true.
Proof.
  split; [vm_compute; reflexivity|].
  split; [|reflexivity].
  apply list_elem_of_In. vm_compute. tauto.
Qed.

(** C7 (amended): every syllable the generator returns is the
    transliteration of a raw phone sequence that matches no configured
    restriction pattern (no forbidden literal substring, no adjacent
    duplicate phones); when the language has no orthography the returned
    syllable is that raw sequence itself. *)
Theorem gen_syllable_raw_unrestricted (self : BasicLanguage) (fuel : nat)
    (st st' : state) (s : list N) :
  gen_syllable self fuel st = Ok s st' ->
  exists raw,
    (forall r, r ∈ restricts self -> re_search r raw = false) /\
    transliterate self raw st' = Ok s st' /\
    (ortho self = None -> s = raw).
Proof.
  intros H. apply gen_syllable_Ok in H as (raw & Hr & Ht & Hn).
  exists raw. split; [|split; assumption].
  apply restricted_false. exact Hr.
Qed.

Lemma gen_syllable_raw_unrestricted_witness :
  exists raw,
    (forall r,
        r ∈ restricts (styled_language 0 4 "ptkmnsl" "aeiouAEI" "CVC" 1 1) ->
        re_search r raw = false) /\
    transliterate (styled_language 0 4 "ptkmnsl" "aeiouAEI" "CVC" 1 1) raw
                  (styled_state 0 4 [])
    = Ok (py "paap") (styled_state 0 4 []) /\
    (ortho (styled_language 0 4 "ptkmnsl" "aeiouAEI" "CVC" 1 1) = None ->
     py "paap" = raw).
Proof.
  apply (gen_syllable_raw_unrestricted
           (styled_language 0 4 "ptkmnsl" "aeiouAEI" "CVC" 1 1) 1
           (styled_state 0 4 [0; raw_of 4 5; 0]%N)).
  vm_compute. reflexivity.
Defined.

(** ** Configuration faults *)

Lemma pattern_fault_None (phon : gmap (list N) (list N)) (specs : list N) :
  pattern_fault phon specs = None <->
  forall c, c ∈ specs -> c <> question_mark ->
            exists lst, phon !! [c] = Some lst /\ lst <> [].
Proof.
  induction specs as [|spec specs IH]; simpl.
  - split; [|reflexivity]. intros _ c Hc. inversion Hc.
  - destruct (N.eqb_spec spec question_mark) as [->|Hq].
    + rewrite IH. split.
      * intros H c Hc Hne. apply elem_of_cons in Hc as [->|Hc]; [congruence|].
        now apply H.
      * intros H c Hc. apply H. now right.
    + destruct (phon !! [spec]) as [[|x lst]|] eqn:Hl.
      * split; [discriminate|]. intros H.
        destruct (H spec) as (lst & Hs & Hne); [now left | exact Hq |].
        congruence.
      * rewrite IH. split.
        -- intros H c Hc Hne. apply elem_of_cons in Hc as [->|Hc].
           ++ exists (x :: lst). split; [exact Hl | discriminate].
           ++ now apply H.
        -- intros H c Hc. apply H. now right.
      * split; [discriminate|]. intros H.
        destruct (H spec) as (lst & Hs & Hne); [now left | exact Hq |].
        congruence.
Qed.

Lemma unit_float_range (k : N) :
  (0 <= unit_float k)%Q /\ (unit_float k < 1)%Q.
Proof.
  unfold unit_float, Qle, Qlt. simpl Qnum. simpl Qden.
  pose proof (N.mod_upper_bound k (2 ^ 53)%N) as Hm.
  assert (Z.of_N (k mod 2 ^ 53) < Z.pos (2 ^ 53)) as Hlt.
  { change (Z.pos (2 ^ 53)) with (Z.of_N (2 ^ 53)%N). apply N2Z.inj_lt.
    apply Hm. discriminate. }
  pose proof (N2Z.is_nonneg (k mod 2 ^ 53)).
  split; lia.
Qed.

Lemma representable_unit_float (k : N) : representable (unit_float k).
Proof.
  exists (Z.of_N (k mod 2 ^ 53)), (-53). split; [|split; [lia|]].
  - assert (Hk : (k mod 2 ^ 53 < 2 ^ 53)%N) by (apply N.mod_lt; discriminate).
    rewrite Z.abs_eq by apply N2Z.is_nonneg.
    change (2 ^ 53) with (Z.of_N (2 ^ 53)%N). apply N2Z.inj_lt. exact Hk.
  - unfold unit_float. rewrite Qmake_Qdiv. unfold Qdiv.
    apply Qmult_comp; [reflexivity|]. reflexivity.
Qed.

Lemma choose_unit_float {A : Type} (x : A) (lst : list A) (k : N) :
  is_Some (choose (x :: lst) 2 (unit_float k)).
Proof.
  destruct (unit_float_range k) as [H0 H1].
  destruct (choose_index_bounds (x :: lst) 2 (unit_float k)) as (i & Hi & Hr);
    [discriminate | apply representable_unit_float | exact H0 | exact H1
    | lia | vm_compute; discriminate |].
  unfold choose. rewrite Hi. apply py_getitem_in_range. lia.
Qed.

Lemma rd_raw_Ok (st : state) : exists k st', rd_raw st = Ok k st'.
Proof. unfold rd_raw. destruct (rng st); eauto. Qed.

Lemma rd_random_Ok (st : state) :
  exists k st', rd_random st = Ok (unit_float k) st'.
Proof.
  unfold rd_random, bind, ret.
  destruct (rd_raw_Ok st) as (k & st' & ->). eauto.
Qed.

Lemma gen_phones_fault (self : BasicLanguage) (specs : list N) (e : exn) :
  pattern_fault (phonemes self) specs = Some e ->
  forall phones st, exists st', gen_phones self specs phones st = Raise e st'.
Proof.
  induction specs as [|spec specs IH]; cbn [gen_phones pattern_fault];
    [discriminate|].
  intros Hf phones st.
  destruct (N.eqb spec question_mark).
  - unfold bind at 1. destruct (rd_random_Ok st) as (k & st1 & ->).
    apply IH. exact Hf.
  - destruct (phonemes self !! [spec]) as [[|x lst]|] eqn:Hl.
    + inversion Hf; subst. unfold bind at 1.
      destruct (rd_random_Ok st) as (k & st1 & ->).
      rewrite choose_empty. unfold raise. eauto.
    + unfold bind at 1. destruct (rd_random_Ok st) as (k & st1 & ->).
      destruct (choose_unit_float x lst k) as [p ->].
      apply IH. exact Hf.
    + inversion Hf; subst. unfold raise. eauto.
Qed.

Lemma gen_phones_no_fault (self : BasicLanguage) (specs : list N) :
  pattern_fault (phonemes self) specs = None ->
  forall phones st,
    exists phones' st', gen_phones self specs phones st = Ok phones' st'.
Proof.
  induction specs as [|spec specs IH]; cbn [gen_phones pattern_fault];
    intros Hf phones st.
  - unfold ret. eauto.
  - destruct (N.eqb spec question_mark).
    + unfold bind at 1. destruct (rd_random_Ok st) as (k & st1 & ->).
      apply IH. exact Hf.
    + destruct (phonemes self !! [spec]) as [[|x lst]|] eqn:Hl;
        try discriminate.
      unfold bind at 1. destruct (rd_random_Ok st) as (k & st1 & ->).
      destruct (choose_unit_float x lst k) as [p ->].
      apply IH. exact Hf.
Qed.

Lemma gen_syllable_fault (self : BasicLanguage) (e : exn) (fuel : nat)
    (st : state) :
  pattern_fault (phonemes self) (syll self) = Some e ->
  exists st', gen_syllable self (S fuel) st = Raise e st'.
Proof.
  intros Hf. simpl. unfold bind.
  destruct (gen_phones_fault self (syll self) e Hf [] st) as (st' & ->).
  eauto.
Qed.

Lemma gen_syllable_no_fault (self : BasicLanguage) (fuel : nat) (st : state) :
  pattern_fault (phonemes self) (syll self) = None ->
  forall e st', gen_syllable self fuel st <> Raise e st'.
Proof.
  intros Hf. revert st. induction fuel as [|fuel IH]; intros st e st';
    [discriminate|].
  simpl. unfold bind.
  destruct (gen_phones_no_fault self (syll self) Hf [] st) as (ph & st1 & ->).
  destruct (restricted self (concat ph)); [apply IH|].
  destruct (transliterate_returns self (concat ph) st1) as (s' & -> & _).
  discriminate.
Qed.

Lemma gen_word_empty_range (self : BasicLanguage) (fuel : nat)
    (p : option (list N)) (st : state) :
  max_syll self < min_syll self -> gen_word self fuel p st = Ok [] st.
Proof.
  intros H. unfold gen_word, range_len.
  replace (Z.to_nat (max_syll self + 1 - min_syll self)) with 0%nat by lia.
  reflexivity.
Qed.

(** C4, as stated, fails: the constructor returns a language for a pattern
    whose role token [V] is no key of the phoneme mapping, and for one
    whose [V] sequence is empty; the fault appears only when a syllable is
    generated, as [KeyError] in the first case and as [IndexError] in the
    second, and the first [gen_name] call on such a language ends with
    that exception. *)
Lemma faults_surface_during_generation :
  BasicLanguage_init (dict [ (py "C", py "ptk") ]) (py "CVC") None 1 1
                     RESTRICTIONS (initial_state [])
  = Ok (BasicLanguage_attrs (dict [ (py "C", py "ptk") ]) (py "CVC") None 1 1
                            RESTRICTIONS)
       (initial_state []) /\
  gen_syllable (BasicLanguage_attrs (dict [ (py "C", py "ptk") ]) (py "CVC")
                                    None 1 1 RESTRICTIONS)
               1 (initial_state [])
  = Raise KeyError (initial_state []) /\
  BasicLanguage_init (dict [ (py "C", py "ptk"); (py "V", []) ]) (py "CVC")
                     None 1 1 RESTRICTIONS (initial_state [])
  = Ok (language "ptk" "" "CVC" None 1 1) (initial_state []) /\
  gen_syllable (language "ptk" "" "CVC" None 1 1) 1 (initial_state [])
  = Raise IndexError (initial_state []) /\
  gen_name ascii_capitalize (language "ptk" "" "CVC" None 1 1) 1
           (Some (py "city")) (initial_state [])
  = Raise IndexError
          (State ORTHO_DEFAULT {[ Some (py "of") := [] ]} ∅ ∅ []).
Proof. repeat split; vm_compute; reflexivity. Qed.

(** C4 (amended): the constructor checks nothing and returns a language
    for every configuration.  A pattern whose role tokens all map to
    non-empty sequences never makes [gen_syllable] raise.  Otherwise the
    first role token that is no key of the mapping, or whose sequence is
    empty, makes the first pass of [gen_syllable] raise [KeyError],
    respectively [IndexError], that is, the fault surfaces during
    generation.  Bounds with [max_syll < min_syll] are no fault at all:
    [gen_word] returns the empty word. *)
Theorem faults_are_not_detected_at_construction
    (phon : gmap (list N) (list N)) (pattern : list N)
    (o : option Orthography) (lo hi : Z) (restr : list regex)
    (st : state) (fuel : nat) :
  let self := BasicLanguage_attrs phon pattern o lo hi restr in
  BasicLanguage_init phon pattern o lo hi restr st
  = Ok self (State (ortho_dict st) ∅ ∅ ∅ (rng st)) /\
  match pattern_fault phon pattern with
  | Some e => (e = KeyError \/ e = IndexError) /\
              exists st', gen_syllable self (S fuel) st = Raise e st'
  | None => forall e st', gen_syllable self fuel st <> Raise e st'
  end /\
  (hi < lo -> forall p, gen_word self fuel p st = Ok [] st).
Proof.
  intros self. split; [reflexivity|]. split.
  - destruct (pattern_fault phon pattern) as [e|] eqn:Hf.
    + split.
      * clear -Hf. induction pattern as [|c pattern IH]; simpl in Hf;
          [discriminate|].
        destruct (N.eqb c question_mark); [now apply IH|].
        destruct (phon !! [c]) as [[|x lst]|].
        -- inversion Hf. now right.
        -- now apply IH.
        -- inversion Hf. now left.
      * apply gen_syllable_fault. exact Hf.
    + apply gen_syllable_no_fault. exact Hf.
  - intros Hlt p. apply gen_word_empty_range. exact Hlt.
Qed.

Lemma faults_are_not_detected_at_construction_witness :
  BasicLanguage_init (dict [ (py "C", py "ptk"); (py "V", py "ai") ])
                     (py "CVC") None 3 1 RESTRICTIONS (initial_state [])
  = Ok (language "ptk" "ai" "CVC" None 3 1) (initial_state []) /\
  (forall e st',
      gen_syllable (language "ptk" "ai" "CVC" None 3 1) 2 (initial_state [])
      <> Raise e st') /\
  gen_word (language "ptk" "ai" "CVC" None 3 1) 2 None (initial_state [])
  = Ok [] (initial_state []).
Proof.
  pose proof (faults_are_not_detected_at_construction
                (dict [ (py "C", py "ptk"); (py "V", py "ai") ]) (py "CVC")
                None 3 1 RESTRICTIONS (initial_state []) 2) as H.
  cbv zeta in H. destruct H as (Hinit & Hgen & Hword).
  split; [exact Hinit|]. split.
  - exact Hgen.
  - apply Hword. lia.
Defined.

(** ** Words: the number of morphemes *)

Lemma get_morphemes_length (self : BasicLanguage) (fuel : nat)
    (p : option (list N)) (count : nat) (st st' : state)
    (ms : list (list N)) :
  get_morphemes self fuel p count st = Ok ms st' -> length ms = count.
Proof.
  revert st ms. induction count as [|count IH]; intros st ms; simpl.
  - unfold ret. intros H. now inversion H.
  - intros H. apply bind_Ok in H as (m & st1 & _ & H).
    apply bind_Ok in H as (ms' & st2 & Hms & H).
    unfold ret in H. inversion H; subst. simpl. f_equal. eapply IH, Hms.
Qed.

(** Every word [gen_word] returns is the concatenation of exactly
    [max_syll - min_syll + 1] morphemes obtained from [get_morpheme] (of
    none when that number is not positive). *)
Lemma gen_word_morpheme_count (self : BasicLanguage) (fuel : nat)
    (p : option (list N)) (st st' : state) (w : list N) :
  gen_word self fuel p st = Ok w st' ->
  exists ms,
    get_morphemes self fuel p (length ms) st = Ok ms st' /\
    w = concat ms /\
    len ms = Z.max 0 (max_syll self - min_syll self + 1).
Proof.
  unfold gen_word. intros H. apply bind_Ok in H as (ms & st1 & Hms & H).
  unfold ret in H. inversion H; subst. exists ms.
  pose proof (get_morphemes_length _ _ _ _ _ _ _ Hms) as Hlen.
  rewrite Hlen. split; [exact Hms|]. split; [reflexivity|].
  unfold len, range_len in *. lia.
Qed.

(** C5 at the bounds [min_syll = max_syll = 2]: the range
    [range(2, 3)] has one element, so the word is one morpheme, not two. *)
Lemma gen_word_two_two_is_one_morpheme :
  range_len 2 (2 + 1) = 1%nat /\
  get_morphemes (language "ptk" "ai" "CVC" None 2 2) 1 None 1
                (initial_state [])
  = Ok [py "pap"]
       (State ORTHO_DEFAULT {[ None := [py "pap"] ]} ∅ ∅ []) /\
  gen_word (language "ptk" "ai" "CVC" None 2 2) 1 None (initial_state [])
  = Ok (py "pap")
       (State ORTHO_DEFAULT {[ None := [py "pap"] ]} ∅ ∅ []).
Proof. repeat split; vm_compute; reflexivity. Qed.

(** ** The membership tests of [get_morpheme] and [get_word] *)

(** A string never equals a list, so a string is never [in] the values of
    a registry, whose values are lists. *)
Lemma str_in_list_values (s : list N) (vals : list (list (list N))) :
  in_values (Str s) (StrList <$> vals) = false.
Proof.
  unfold in_values. induction vals as [|v vals IH]; [reflexivity|].
  simpl. exact IH.
Qed.

(** C2 on two calls, the ones [gen_name] starts with: the syllable [pap]
    generated for the pool ['of'] is generated again for the pool ['the']
    and stored there as well. *)
Lemma morpheme_stored_in_two_pools :
  get_morpheme (language "ptk" "ai" "CVC" None 1 1) 1 (Some (py "of"))
               (initial_state [])
  = Ok (py "pap")
       (State ORTHO_DEFAULT {[ Some (py "of") := [py "pap"] ]} ∅ ∅ []) /\
  get_morpheme (language "ptk" "ai" "CVC" None 1 1) 1 (Some (py "the"))
               (State ORTHO_DEFAULT {[ Some (py "of") := [py "pap"] ]} ∅ ∅ [])
  = Ok (py "pap")
       (State ORTHO_DEFAULT
              (<[ Some (py "the") := [py "pap"] ]>
                 {[ Some (py "of") := [py "pap"] ]}) ∅ ∅ []).
Proof. split; vm_compute; reflexivity. Qed.

(** C3 on two calls for the pool ['city']: the second call draws a fresh
    slot, builds the word [pap] again from the stored morpheme and appends
    it, so the pool holds the same word twice. *)
Lemma word_stored_twice :
  get_word (language "ptk" "ai" "CVC" None 1 1) 1 (Some (py "city"))
           (initial_state [0; 0; 0; 0; 0; 1; 0]%N)
  = Ok (py "pap")
       (State ORTHO_DEFAULT {[ Some (py "city") := [py "pap"] ]}
              {[ Some (py "city") := [py "pap"] ]} ∅ [1; 0]%N) /\
  get_word (language "ptk" "ai" "CVC" None 1 1) 1 (Some (py "city"))
           (State ORTHO_DEFAULT {[ Some (py "city") := [py "pap"] ]}
                  {[ Some (py "city") := [py "pap"] ]} ∅ [1; 0]%N)
  = Ok (py "pap")
       (State ORTHO_DEFAULT {[ Some (py "city") := [py "pap"] ]}
              {[ Some (py "city") := [py "pap"; py "pap"] ]} ∅ []).
Proof. split; vm_compute; reflexivity. Qed.

(** ** The retry branches of [get_morpheme] and [get_word] are dead *)

(** Whatever the registry holds, a freshly generated syllable passes the
    membership test, so the loop of [get_morpheme] ends in its first pass:
    more iterations never change the outcome. *)
Lemma get_morpheme_loop_never_retries (self : BasicLanguage) (inner : nat)
    (p : option (list N)) (morph_list : list (list N)) (extras : Z)
    (fuel : nat) (st : state) :
  get_morpheme_loop self inner p morph_list extras (S fuel) st
  = get_morpheme_loop self inner p morph_list extras 1 st.
Proof.
  simpl. unfold bind, get_state.
  destruct (rd_randrange (len morph_list + extras) st) as [n st1|e st1|];
    try reflexivity.
  destruct (n <? len morph_list); [reflexivity|].
  destruct (gen_syllable self inner st1) as [new_morph st2|e st2|];
    try reflexivity.
  now rewrite str_in_list_values.
Qed.

Lemma get_word_loop_never_retries (self : BasicLanguage) (inner : nat)
    (p : option (list N)) (word_list : list (list N)) (extras : Z)
    (fuel : nat) (st : state) :
  get_word_loop self inner p word_list extras (S fuel) st
  = get_word_loop self inner p word_list extras 1 st.
Proof.
  simpl. unfold bind, get_state.
  destruct (rd_randrange (len word_list + extras) st) as [n st1|e st1|];
    try reflexivity.
  destruct (n <? len word_list); [reflexivity|].
  destruct (gen_word self inner p st1) as [new_word st2|e st2|];
    try reflexivity.
  now rewrite str_in_list_values.
Qed.

(** ** Operations that leave the name registry alone *)

Create HintDb names.

Lemma keeps_names_ret {A : Type} (a : A) : keeps_names (ret a).
Proof. intros st. reflexivity. Qed.

Lemma keeps_names_raise {A : Type} (e : exn) : keeps_names (@raise A e).
Proof. intros st. reflexivity. Qed.

Lemma keeps_names_out_of_fuel {A : Type} :
  keeps_names (fun _ : state => @OutOfFuel A).
Proof. intros st. exact I. Qed.

Lemma keeps_names_bind {A B : Type} (m : M A) (f : A -> M B) :
  keeps_names m -> (forall a, keeps_names (f a)) -> keeps_names (bind m f).
Proof.
  intros Hm Hf st. apply ensures_bind.
  eapply ensures_weaken; [apply Hm | |].
  - intros a st1 H1. simpl.
    eapply ensures_weaken; [apply Hf | |]; simpl; intros; congruence.
  - intros e st1 H1. exact H1.
Qed.

Lemma keeps_names_get_state : keeps_names get_state.
Proof. intros st. reflexivity. Qed.

Lemma keeps_names_rd_raw : keeps_names rd_raw.
Proof. intros st. unfold ensures, rd_raw. destruct (rng st); reflexivity. Qed.

#[local] Hint Resolve keeps_names_ret keeps_names_raise
  keeps_names_out_of_fuel keeps_names_get_state keeps_names_rd_raw : names.

(** Splits a composite computation along its binds and branches. *)
Ltac keeps_names_step :=
  match goal with
  | |- keeps_names (bind _ _) => apply keeps_names_bind; [| intros ?]
  | |- keeps_names (if ?b then _ else _) => destruct b
  | |- keeps_names (match ?x with _ => _ end) => destruct x
  | |- keeps_names _ => solve [auto with names]
  end.

Ltac keeps_names_auto := repeat keeps_names_step.

Lemma keeps_names_rd_random : keeps_names rd_random.
Proof. unfold rd_random. keeps_names_auto. Qed.

Lemma keeps_names_rd_randrange (n : Z) : keeps_names (rd_randrange n).
Proof. unfold rd_randrange. keeps_names_auto. Qed.

Lemma keeps_names_subscript {A : Type} (lst : list A) (n : Z) :
  keeps_names (subscript lst n).
Proof. unfold subscript. keeps_names_auto. Qed.

Lemma keeps_names_morphemes_getitem (p : option (list N)) :
  keeps_names (morphemes_getitem p).
Proof.
  intros st. unfold ensures, morphemes_getitem.
  destruct (dd_getitem [] (morphemes st) p). reflexivity.
Qed.

Lemma keeps_names_words_getitem (p : option (list N)) :
  keeps_names (words_getitem p).
Proof.
  intros st. unfold ensures, words_getitem.
  destruct (dd_getitem [] (words st) p). reflexivity.
Qed.

#[local] Hint Resolve keeps_names_rd_random keeps_names_rd_randrange
  keeps_names_subscript keeps_names_morphemes_getitem
  keeps_names_words_getitem : names.

Lemma keeps_names_morphemes_append (p : option (list N)) (x : list N) :
  keeps_names (morphemes_append p x).
Proof.
  unfold morphemes_append. keeps_names_step; [auto with names|].
  intros st. reflexivity.
Qed.

Lemma keeps_names_words_append (p : option (list N)) (x : list N) :
  keeps_names (words_append p x).
Proof.
  unfold words_append. keeps_names_step; [auto with names|].
  intros st. reflexivity.
Qed.

Lemma keeps_names_transliterate (self : BasicLanguage) (s : list N) :
  keeps_names (transliterate self s).
Proof. unfold transliterate. keeps_names_auto. Qed.

Lemma keeps_names_get_joiner (self : BasicLanguage) :
  keeps_names (get_joiner self).
Proof. unfold get_joiner. keeps_names_auto. Qed.

Lemma keeps_names_check_unique (name : list N) :
  keeps_names (check_unique name).
Proof. unfold check_unique. keeps_names_auto. Qed.

#[local] Hint Resolve keeps_names_morphemes_append keeps_names_words_append
  keeps_names_transliterate keeps_names_get_joiner
  keeps_names_check_unique : names.

Lemma keeps_names_gen_phones (self : BasicLanguage) (specs : list N)
    (phones : list (list N)) :
  keeps_names (gen_phones self specs phones).
Proof.
  revert phones. induction specs as [|spec specs IH]; intros phones;
    cbn [gen_phones].
  - auto with names.
  - keeps_names_auto.
Qed.

#[local] Hint Resolve keeps_names_gen_phones : names.

Lemma keeps_names_gen_syllable (self : BasicLanguage) (fuel : nat) :
  keeps_names (gen_syllable self fuel).
Proof.
  induction fuel as [|fuel IH]; simpl; [auto with names|].
  keeps_names_auto.
Qed.

#[local] Hint Resolve keeps_names_gen_syllable : names.

Lemma keeps_names_get_morpheme_loop (self : BasicLanguage) (inner : nat)
    (p : option (list N)) (morph_list : list (list N)) (extras : Z)
    (fuel : nat) :
  keeps_names (get_morpheme_loop self inner p morph_list extras fuel).
Proof.
  induction fuel as [|fuel IH]; simpl; [auto with names|].
  keeps_names_auto.
Qed.

#[local] Hint Resolve keeps_names_get_morpheme_loop : names.

Lemma keeps_names_get_morpheme (self : BasicLanguage) (fuel : nat)
    (p : option (list N)) :
  keeps_names (get_morpheme self fuel p).
Proof. unfold get_morpheme. keeps_names_auto. Qed.

#[local] Hint Resolve keeps_names_get_morpheme : names.

Lemma keeps_names_get_morphemes (self : BasicLanguage) (fuel : nat)
    (p : option (list N)) (count : nat) :
  keeps_names (get_morphemes self fuel p count).
Proof.
  induction count as [|count IH]; simpl; [auto with names|].
  keeps_names_auto.
Qed.

#[local] Hint Resolve keeps_names_get_morphemes : names.

Lemma keeps_names_gen_word (self : BasicLanguage) (fuel : nat)
    (p : option (list N)) :
  keeps_names (gen_word self fuel p).
Proof. unfold gen_word. keeps_names_auto. Qed.

#[local] Hint Resolve keeps_names_gen_word : names.

Lemma keeps_names_get_word_loop (self : BasicLanguage) (inner : nat)
    (p : option (list N)) (word_list : list (list N)) (extras : Z)
    (fuel : nat) :
  keeps_names (get_word_loop self inner p word_list extras fuel).
Proof.
  induction fuel as [|fuel IH]; simpl; [auto with names|].
  keeps_names_auto.
Qed.

#[local] Hint Resolve keeps_names_get_word_loop : names.

Lemma keeps_names_get_word (self : BasicLanguage) (fuel : nat)
    (p : option (list N)) :
  keeps_names (get_word self fuel p).
Proof. unfold get_word. keeps_names_auto. Qed.

#[local] Hint Resolve keeps_names_get_word : names.

(** ** The name registry *)

Lemma elem_of_dict_values {V : Type} (d : gmap (option (list N)) V) (v : V) :
  v ∈ dict_values d <-> exists k, d !! k = Some v.
Proof.
  unfold dict_values. rewrite list_elem_of_fmap. split.
  - intros ([k v'] & -> & H). apply elem_of_map_to_list in H. eauto.
  - intros [k H]. exists (k, v). split; [reflexivity|].
    now apply elem_of_map_to_list.
Qed.

Lemma check_unique_in_spec (nm : gmap (option (list N)) (gset (list N)))
    (name : list N) :
  check_unique_in nm name = true <->
  forall q b, stored nm q b -> clashes name b = false.
Proof.
  unfold check_unique_in. rewrite forallb_forall. split.
  - intros H q b (cat & Hq & Hb).
    assert (In cat (dict_values nm)) as Hin
      by (apply list_elem_of_In, elem_of_dict_values; eauto).
    apply H in Hin. rewrite forallb_forall in Hin.
    apply negb_true_iff, Hin, list_elem_of_In, elem_of_elements, Hb.
  - intros H cat Hcat.
    apply list_elem_of_In, elem_of_dict_values in Hcat as [q Hq].
    apply forallb_forall. intros b Hb.
    apply list_elem_of_In, elem_of_elements in Hb.
    apply negb_true_iff. apply (H q). exists cat. auto.
Qed.

(** [check_unique] accepts a name exactly when it neither occurs inside a
    stored name nor has a stored name inside it. *)
Lemma check_unique_in_substring
    (nm : gmap (option (list N)) (gset (list N))) (name : list N) :
  check_unique_in nm name = true <->
  forall q b, stored nm q b -> ~ substring name b /\ ~ substring b name.
Proof.
  rewrite check_unique_in_spec. split; intros H q b Hb.
  - specialize (H q b Hb). split; intros Hsub;
      assert (clashes name b = true) by (apply clashes_spec; auto);
      congruence.
  - destruct (clashes name b) eqn:Hc; [|reflexivity].
    apply clashes_spec in Hc. destruct (H q b Hb) as [H1 H2]. tauto.
Qed.

Lemma stored_add_name (nm : gmap (option (list N)) (gset (list N)))
    (p q : option (list N)) (name b : list N) :
  stored (add_name nm p name) q b <-> stored nm q b \/ (q = p /\ b = name).
Proof.
  unfold add_name, dd_getitem, stored.
  destruct (nm !! p) as [v|] eqn:Hp.
  - destruct (decide (p = q)) as [<-|Hne].
    + rewrite lookup_insert_eq, Hp. split.
      * intros (cat & Hq & Hb). inversion Hq; subst.
        apply elem_of_union in Hb as [Hb|Hb].
        -- right. apply elem_of_singleton in Hb. auto.
        -- left. eauto.
      * intros [(cat & Hq & Hb) | [_ ->]].
        -- inversion Hq; subst. eexists. split; [reflexivity|].
           apply elem_of_union. now right.
        -- eexists. split; [reflexivity|].
           apply elem_of_union. left. now apply elem_of_singleton.
    + rewrite lookup_insert_ne by exact Hne. split.
      * intros H. now left.
      * intros [H | [-> _]]; [exact H | congruence].
  - destruct (decide (p = q)) as [<-|Hne].
    + rewrite lookup_insert_eq, Hp. split.
      * intros (cat & Hq & Hb). inversion Hq; subst.
        apply elem_of_union in Hb as [Hb|Hb].
        -- right. apply elem_of_singleton in Hb. auto.
        -- apply not_elem_of_empty in Hb. contradiction.
      * intros [(cat & Hq & Hb) | [_ ->]]; [discriminate|].
        eexists. split; [reflexivity|].
        apply elem_of_union. left. now apply elem_of_singleton.
    + rewrite !lookup_insert_ne by exact Hne. split.
      * intros H. now left.
      * intros [H | [-> _]]; [exact H | congruence].
Qed.

Lemma substring_free_empty : substring_free ∅.
Proof.
  intros p q a b (cat & Hp & _). rewrite lookup_empty in Hp. discriminate.
Qed.

Lemma substring_free_add (nm : gmap (option (list N)) (gset (list N)))
    (p : option (list N)) (name : list N) :
  substring_free nm -> check_unique_in nm name = true ->
  substring_free (add_name nm p name).
Proof.
  intros Hinv Hu p1 q1 a b Ha Hb Hne Hsub.
  rewrite check_unique_in_spec in Hu.
  apply stored_add_name in Ha, Hb.
  destruct Ha as [Ha | [-> ->]], Hb as [Hb | [-> ->]].
  - exact (Hinv _ _ _ _ Ha Hb Hne Hsub).
  - specialize (Hu _ _ Ha). unfold clashes in Hu.
    apply orb_false_iff in Hu as [_ Hu].
    apply py_in_spec in Hsub. congruence.
  - specialize (Hu _ _ Hb). unfold clashes in Hu.
    apply orb_false_iff in Hu as [Hu _].
    apply py_in_spec in Hsub. congruence.
  - congruence.
Qed.

(** ** [gen_name] *)

Lemma ensures_bind_keeps {A B : Type} (m : M A) (f : A -> M B) (st : state)
    (nm0 : gmap (option (list N)) (gset (list N)))
    (Q : B -> state -> Prop) (E : exn -> state -> Prop) :
  names st = nm0 -> keeps_names m ->
  (forall e st1, names st1 = nm0 -> E e st1) ->
  (forall a st1, names st1 = nm0 -> ensures (f a) st1 Q E) ->
  ensures (bind m f) st Q E.
Proof.
  intros H0 Hm HE Hf. apply ensures_bind.
  eapply ensures_weaken; [apply Hm | |]; simpl.
  - intros a st1 H1. apply Hf. congruence.
  - intros e st1 H1. apply HE. congruence.
Qed.

Lemma gen_name_finish_spec (self : BasicLanguage) (p : option (list N))
    (definitive name : list N)
    (nm0 : gmap (option (list N)) (gset (list N))) (st : state) :
  names st = nm0 ->
  ensures (gen_name_finish self p definitive name) st
          (pass_outcome self nm0 p) (fun _ st' => names st' = nm0).
Proof.
  intros H0. unfold gen_name_finish.
  eapply ensures_bind_keeps; [exact H0 | auto with names | auto |].
  intros u st1 H1.
  eapply ensures_bind_keeps; [exact H1 | keeps_names_auto | auto |].
  intros name' st2 H2.
  destruct (negb _) eqn:Hlen; [exact H2|].
  apply negb_false_iff, andb_true_iff in Hlen as [Hlo Hhi].
  apply Z.leb_le in Hlo, Hhi.
  unfold ensures, bind, check_unique, get_state, ret, names_add. simpl.
  destruct (check_unique_in (names st2) name') eqn:Hu; simpl.
  - unfold accepted. simpl. rewrite <- H2. auto.
  - exact H2.
Qed.

Lemma gen_name_body_spec (capitalize : list N -> list N)
    (self : BasicLanguage) (fuel : nat) (p : option (list N))
    (genitive definitive : list N)
    (nm0 : gmap (option (list N)) (gset (list N))) (st : state) :
  names st = nm0 ->
  ensures (gen_name_body capitalize self fuel p genitive definitive) st
          (pass_outcome self nm0 p) (fun _ st' => names st' = nm0).
Proof.
  intros H0. unfold gen_name_body.
  eapply ensures_bind_keeps; [exact H0 | auto with names | auto |].
  intros u st1 H1. destruct (Qltb u f_0_5).
  - eapply ensures_bind_keeps; [exact H1 | auto with names | auto |].
    intros w st2 H2. now apply gen_name_finish_spec.
  - eapply ensures_bind_keeps; [exact H1 | auto with names | auto |].
    intros u1 st2 H2.
    eapply ensures_bind_keeps; [exact H2 | auto with names | auto |].
    intros w1 st3 H3.
    eapply ensures_bind_keeps; [exact H3 | auto with names | auto |].
    intros u2 st4 H4.
    eapply ensures_bind_keeps; [exact H4 | auto with names | auto |].
    intros w2 st5 H5.
    destruct (bool_decide _); [exact H5|].
    eapply ensures_bind_keeps; [exact H5 | auto with names | auto |].
    intros u3 st6 H6.
    eapply ensures_bind_keeps; [exact H6 | auto with names | auto |].
    intros j st7 H7. now apply gen_name_finish_spec.
Qed.

Lemma gen_name_loop_spec (capitalize : list N -> list N)
    (self : BasicLanguage) (inner : nat) (p : option (list N))
    (genitive definitive : list N)
    (nm0 : gmap (option (list N)) (gset (list N))) (fuel : nat) (st : state) :
  names st = nm0 ->
  ensures (gen_name_loop capitalize self inner p genitive definitive fuel) st
          (accepted self nm0 p) (fun _ st' => names st' = nm0).
Proof.
  revert st. induction fuel as [|fuel IH]; intros st H0; [exact I|].
  simpl. apply ensures_bind.
  eapply ensures_weaken; [apply gen_name_body_spec, H0 | | auto].
  intros [name|] st1 H1; simpl in H1.
  - exact H1.
  - apply IH. exact H1.
Qed.

Lemma gen_name_spec (capitalize : list N -> list N) (self : BasicLanguage)
    (fuel : nat) (p : option (list N)) (st : state) :
  ensures (gen_name capitalize self fuel p) st
          (accepted self (names st) p) (fun _ st' => names st' = names st).
Proof.
  unfold gen_name.
  eapply ensures_bind_keeps; [reflexivity | auto with names | auto |].
  intros genitive st1 H1.
  eapply ensures_bind_keeps; [exact H1 | auto with names | auto |].
  intros definitive st2 H2. now apply gen_name_loop_spec.
Qed.

Lemma gen_names_substring_free (capitalize : list N -> list N)
    (self : BasicLanguage) (calls : list (nat * option (list N)))
    (st : state) :
  substring_free (names st) ->
  substring_free (names (gen_names capitalize self calls st)).
Proof.
  revert st. induction calls as [|[fuel p] calls IH]; intros st Hinv;
    [exact Hinv|].
  simpl. pose proof (gen_name_spec capitalize self fuel p st) as Hs.
  unfold ensures in Hs.
  destruct (gen_name capitalize self fuel p st) as [name st'|e st'|].
  - apply IH. destruct Hs as (Hu & _ & ->). now apply substring_free_add.
  - apply IH. now rewrite Hs.
  - exact Hinv.
Qed.

(** C1: for every language instance and every sequence of [gen_name]
    calls on it, the names stored in all pools together are substring
    free: no stored name occurs inside another one, of the same or of a
    different pool.  The invariant is enforced when a name is accepted: a
    further call that returns [name] found that [check_unique] holds for
    it against the whole registry, added exactly that one name to the
    registry of its pool, and left the registry substring free; a call
    that raises leaves the registry unchanged. *)
Theorem names_globally_substring_free (capitalize : list N -> list N)
    (phon : gmap (list N) (list N)) (pattern : list N)
    (o : option Orthography) (lo hi : Z) (restr : list regex)
    (st0 st_init : state) (self : BasicLanguage)
    (calls : list (nat * option (list N))) (fuel : nat)
    (p : option (list N)) :
  BasicLanguage_init phon pattern o lo hi restr st0 = Ok self st_init ->
  let st := gen_names capitalize self calls st_init in
  substring_free (names st) /\
  match gen_name capitalize self fuel p st with
  | Ok name st' =>
      check_unique_in (names st) name = true /\
      names st' = add_name (names st) p name /\
      substring_free (names st')
  | Raise _ st' => names st' = names st
  | OutOfFuel => True
  end.
Proof.
  intros Hinit. unfold BasicLanguage_init in Hinit.
  injection Hinit as <- <-. intros st.
  assert (substring_free (names st)) as Hinv.
  { apply gen_names_substring_free. simpl. apply substring_free_empty. }
  split; [exact Hinv|].
  pose proof (gen_name_spec capitalize
                (BasicLanguage_attrs phon pattern o lo hi restr) fuel p st)
    as Hs.
  unfold ensures in Hs.
  destruct (gen_name capitalize _ fuel p st) as [name st'|e st'|];
    [|exact Hs|exact I].
  destruct Hs as (Hu & _ & Hadd).
  split; [exact Hu|]. split; [exact Hadd|].
  rewrite Hadd. now apply substring_free_add.
Qed.

(** A session on a language with the pattern [CVC]: the first call stores
    [Pap] for the pool ['city'], the second [Tik] for the pool ['land']. *)
Example gen_names_two_pools :
  names (gen_names ascii_capitalize (styled_language 1 1 "ptk" "ai" "CVC" 1 1)
           [ (2%nat, Some (py "city")); (2%nat, Some (py "land")) ]
           (styled_state 1 1
              [0; 0; 0; 0; 0; 0; 0; 0; 0; 0; 0; 0; 0; 0; 2 ^ 52;
               0; 0; 0; 0; 0; raw_of 3 5; raw_of 3 4; raw_of 9 10; 2 ^ 52]%N))
  = <[ Some (py "land") := {[ py "Tik" ]} ]>
      {[ Some (py "city") := {[ py "Pap" ]} ]}.
Proof. vm_compute. reflexivity. Qed.

(** The same random outputs for a second call, for the pool ['land']:
    each pass builds the candidate [pap Pap], which contains the name
    [Pap] stored for ['city'] and is rejected; nothing is added. *)
Example gen_names_rejects_stored_name :
  names (gen_names ascii_capitalize (styled_language 1 1 "ptk" "ai" "CVC" 1 1)
           [ (2%nat, Some (py "city")); (2%nat, Some (py "land")) ]
           (styled_state 1 1
              [0; 0; 0; 0; 0; 0; 0; 0; 0; 0; 0; 0; 0; 0; 2 ^ 52]%N))
  = {[ Some (py "city") := {[ py "Pap" ]} ]}.
Proof. vm_compute. reflexivity. Qed.

Lemma names_globally_substring_free_witness :
  let st :=
    gen_names ascii_capitalize (styled_language 1 1 "ptk" "ai" "CVC" 1 1)
      [ (2%nat, Some (py "city")) ]
      (styled_state 1 1
         [0; 0; 0; 0; 0; 0; 0; 0; 0; 0; 0; 0; 0; 0; 2 ^ 52;
          0; 0; 0; 0; 0; raw_of 3 5; raw_of 3 4; raw_of 9 10; 2 ^ 52]%N) in
  substring_free (names st) /\
  match gen_name ascii_capitalize (styled_language 1 1 "ptk" "ai" "CVC" 1 1)
                 2 (Some (py "land")) st with
  | Ok name st' =>
      check_unique_in (names st) name = true /\
      names st' = add_name (names st) (Some (py "land")) name /\
      substring_free (names st')
  | Raise _ st' => names st' = names st
  | OutOfFuel => True
  end.
Proof.
  apply (names_globally_substring_free ascii_capitalize
           (dict [ (py "C", py "ptk"); (py "V", py "ai") ]) (py "CVC")
           (Some (styled_orthography 1 1 ORTHO_DEFAULT).1) 1 1 RESTRICTIONS
           (styled_state 1 1
              [0; 0; 0; 0; 0; 0; 0; 0; 0; 0; 0; 0; 0; 0; 2 ^ 52;
               0; 0; 0; 0; 0; raw_of 3 5; raw_of 3 4; raw_of 9 10; 2 ^ 52]%N)).
  vm_compute. reflexivity.
Defined.

(** C6: every name [gen_name] returns has a length between [min_chars] and
    twice [max_chars], both inclusive, where for a pattern shorter than 3
    [min_chars] is its length plus 1 and [max_chars] four times its
    length, and otherwise [min_chars] is its length and [max_chars] three
    times its length. *)
Theorem gen_name_length_within_bounds (capitalize : list N -> list N)
    (phon : gmap (list N) (list N)) (pattern : list N)
    (o : option Orthography) (lo hi : Z) (restr : list regex)
    (fuel : nat) (p : option (list N)) (st st' : state) (name : list N) :
  gen_name capitalize (BasicLanguage_attrs phon pattern o lo hi restr)
           fuel p st = Ok name st' ->
  let min_chars := if len pattern <? 3 then len pattern + 1 else len pattern in
  let max_chars :=
    if len pattern <? 3 then len pattern * 4 else len pattern * 3 in
  min_chars <= len name <= max_chars * 2.
Proof.
  intros Hrun min_chars max_chars.
  pose proof (gen_name_spec capitalize
                (BasicLanguage_attrs phon pattern o lo hi restr) fuel p st)
    as Hs.
  destruct (ensures_Ok _ _ _ _ _ _ Hs Hrun) as (_ & Hlen & _).
  exact Hlen.
Qed.

Lemma gen_name_length_within_bounds_witness :
  let min_chars :=
    if len (py "CVC") <? 3 then len (py "CVC") + 1 else len (py "CVC") in
  let max_chars :=
    if len (py "CVC") <? 3 then len (py "CVC") * 4 else len (py "CVC") * 3 in
  min_chars <= len (py "Pap") <= max_chars * 2.
Proof.
  apply (gen_name_length_within_bounds ascii_capitalize
           (dict [ (py "C", py "ptk"); (py "V", py "ai") ]) (py "CVC")
           (Some (styled_orthography 1 1 ORTHO_DEFAULT).1) 1 1 RESTRICTIONS
           2 (Some (py "city"))
           (styled_state 1 1
              [0; 0; 0; 0; 0; 0; 0; 0; 0; 0; 0; 0; 0; 0; 2 ^ 52]%N)
           (State (styled_orthography 1 1 ORTHO_DEFAULT).2
                  (<[ Some (py "city") := [py "pap"] ]>
                     (<[ Some (py "the") := [py "pap"] ]>
                        {[ Some (py "of") := [py "pap"] ]}))
                  {[ Some (py "city") := [py "pap"] ]}
                  {[ Some (py "city") := {[ py "Pap" ]} ]} [])).
  vm_compute. reflexivity.
Defined.

(** The run behind the witness. *)
Example gen_name_returns_Pap :
  exists st',
    gen_name ascii_capitalize (styled_language 1 1 "ptk" "ai" "CVC" 1 1) 2
             (Some (py "city"))
             (styled_state 1 1
                [0; 0; 0; 0; 0; 0; 0; 0; 0; 0; 0; 0; 0; 0; 2 ^ 52]%N)
    = Ok (py "Pap") st'.
Proof. eexists. vm_compute. reflexivity. Qed.

(* ================================================================= *)
(** * Further properties of the code *)

(** ** The weighted chooser: order *)








(** ** Transliteration: structure *)

(** X3: transliteration works phone by phone: it never raises, leaves the
    store alone, and the transliteration of a concatenation is the
    concatenation of the transliterations. *)
Theorem transliterate_concatenation (self : BasicLanguage) (st : state)
    (a b : list N) :
  exists sa sb,
    transliterate self a st = Ok sa st /\
    transliterate self b st = Ok sb st /\
    transliterate self (a ++ b) st = Ok (sa ++ sb) st.
Proof.
  unfold transliterate. destruct (ortho self) as [o|].
  - exists (transliterate_with o (ortho_dict st) a),
           (transliterate_with o (ortho_dict st) b).
    unfold bind, get_state, ret.
    now rewrite transliterate_with_app.
  - exists a, b. unfold ret. auto.
Qed.

(** X4: phones without an entry in the orthography table are written as
    themselves: a string none of whose characters is a key of the table
    is returned unchanged. *)
Theorem transliterate_unmapped (self : BasicLanguage) (st : state)
    (s : list N) :
  (forall c, c ∈ s -> ortho_dict st !! [c] = None) ->
  transliterate self s st = Ok s st.
Proof.
  intros Hs. unfold transliterate. destruct (ortho self) as [o|];
    [|reflexivity].
  unfold bind, get_state, ret. f_equal.
  induction s as [|c s IH]; [reflexivity|].
  change (c :: s) with ([c] ++ s). rewrite transliterate_with_app, IH.
  - unfold transliterate_with, Orthography_get, Orthography_getitem. simpl.
    rewrite (Hs c); [reflexivity | now left].
  - intros d Hd. apply Hs. now right.
Qed.

Lemma transliterate_unmapped_witness :
  transliterate (styled_language 2 2 "ptk" "ai" "CVC" 1 1) (py "pat")
                (styled_state 2 2 [])
  = Ok (py "pat") (styled_state 2 2 []).
Proof.
  apply (transliterate_unmapped (styled_language 2 2 "ptk" "ai" "CVC" 1 1)
                                (styled_state 2 2 []) (py "pat")).
  intros c Hc. apply list_elem_of_In in Hc. simpl in Hc.
  destruct Hc as [<-|[<-|[<-|[]]]]; vm_compute; reflexivity.
Defined.

(** ** [Orthography]: what a construction does to the shared table *)

Lemma Orthography_init_lookup_is_Some
    (c v : option (gmap (list N) (list N))) (j key : list N)
    (shared : gmap (list N) (list N)) :
  is_Some (shared !! key) -> is_Some ((Orthography_init c v j shared).2 !! key).
Proof.
  intros Hk. rewrite Orthography_init_table.
  apply lookup_union_is_Some. right.
  apply lookup_union_is_Some. now right.
Qed.

(** X5: a construction never removes an entry of the shared table: every
    key that could be looked up before can be looked up afterwards, through
    the new instance as through any other, and [len] does not decrease.
    The defaults can be overwritten but never dropped. *)
Theorem Orthography_init_keeps_keys
    (c v : option (gmap (list N) (list N))) (j : list N)
    (shared : gmap (list N) (list N)) (other : Orthography) (key : list N) :
  let r := Orthography_init c v j shared in
  (Orthography_contains other key shared = true ->
   Orthography_contains r.1 key r.2 = true /\
   Orthography_contains other key r.2 = true) /\
  Orthography_len other shared <= Orthography_len r.1 r.2.
Proof.
  intros r. split.
  - unfold Orthography_contains, Orthography_getitem.
    destruct (shared !! key) as [x|] eqn:Hk; [|discriminate].
    intros _.
    destruct (Orthography_init_lookup_is_Some c v j key shared) as [y Hy];
      [rewrite Hk; eauto|].
    subst r. rewrite Hy. auto.
  - unfold Orthography_len. apply inj_le.
    rewrite <- !size_dom. apply subseteq_size.
    intros k Hk. apply elem_of_dom in Hk. apply elem_of_dom.
    now apply Orthography_init_lookup_is_Some.
Qed.

Lemma Orthography_init_keeps_keys_witness :
  let r := Orthography_init (CON_ORTHO !! 4%nat) (VOW_ORTHO !! 0%nat) (py "-")
                            ORTHO_DEFAULT in
  (Orthography_contains r.1 (py "x") r.2 = true /\
   Orthography_contains (styled_orthography 1 1 ORTHO_DEFAULT).1 (py "x") r.2
   = true) /\
  Orthography_len (styled_orthography 1 1 ORTHO_DEFAULT).1 ORTHO_DEFAULT
  <= Orthography_len r.1 r.2.
Proof.
  pose proof (Orthography_init_keeps_keys
                (CON_ORTHO !! 4%nat) (VOW_ORTHO !! 0%nat) (py "-")
                ORTHO_DEFAULT (styled_orthography 1 1 ORTHO_DEFAULT).1
                (py "x")) as H.
  cbv zeta in H. destruct H as [Hkeys Hlen].
  split; [|exact Hlen]. apply Hkeys. vm_compute. reflexivity.
Defined.

(** X6: building the same orthography a second time changes nothing: the
    shared table after two constructions with the same overlays is the
    table after one. *)
Theorem Orthography_init_twice (c v : option (gmap (list N) (list N)))
    (j j' : list N) (shared : gmap (list N) (list N)) :
  (Orthography_init c v j' (Orthography_init c v j shared).2).2
  = (Orthography_init c v j shared).2.
Proof.
  rewrite !Orthography_init_table. apply map_eq. intros key.
  rewrite !lookup_union.
  destruct (overlay v !! key), (overlay c !! key), (shared !! key);
    reflexivity.
Qed.

(** ** [user_select] and the interactive branch *)

(** X7: [user_select] returns the number on the first input line that
    denotes an index of the option list; the result is within
    [0, len(options))], the lines before it were not integers or were out
    of range, and the remaining lines are left for the next read. *)
Theorem user_select_first_valid (int_of_str : list N -> option Z) (n : Z)
    (stdin rest : list (list N)) (selection : Z) :
  user_select int_of_str n stdin = IoOk selection rest ->
  0 <= selection < n /\
  exists skipped line,
    stdin = skipped ++ line :: rest /\
    int_of_str line = Some selection /\
    Forall (rejected int_of_str n) skipped.
Proof.
  induction stdin as [|line stdin IH]; simpl; [discriminate|].
  unfold rejected in *.
  destruct (int_of_str line) as [z|] eqn:Hz.
  - destruct (negb _) eqn:Hr.
    + intros H. destruct (IH H) as (Hsel & skipped & l & -> & Hl & Hsk).
      split; [exact Hsel|]. exists (line :: skipped), l.
      split; [reflexivity|]. split; [exact Hl|].
      constructor; [|exact Hsk]. rewrite Hz.
      apply negb_true_iff, andb_false_iff in Hr. lia.
    + intros H. inversion H; subst.
      apply negb_false_iff, andb_true_iff in Hr.
      split; [lia|]. exists [], line. auto.
  - intros H. destruct (IH H) as (Hsel & skipped & l & -> & Hl & Hsk).
    split; [exact Hsel|]. exists (line :: skipped), l.
    split; [reflexivity|]. split; [exact Hl|].
    constructor; [|exact Hsk]. now rewrite Hz.
Qed.

Lemma user_select_first_valid_witness :
  0 <= 2 < 3 /\
  exists skipped line,
    [py "x"; py "7"; py "2"; py "1"] = skipped ++ line :: [py "1"] /\
    ascii_int line = Some 2 /\
    Forall (rejected ascii_int 3) skipped.
Proof.
  apply (user_select_first_valid ascii_int 3
           [py "x"; py "7"; py "2"; py "1"] [py "1"] 2).
  reflexivity.
Defined.

(** What [user_select] does with the input, read off the lines: it
    returns exactly when the input answers it, and then leaves the one
    possible rest; otherwise the input runs out. *)
Lemma user_select_spec (int_of_str : list N -> option Z) (n : Z)
    (stdin : list (list N)) :
  match user_select int_of_str n stdin with
  | IoOk _ rest =>
      answers int_of_str n stdin rest /\
      forall rest', answers int_of_str n stdin rest' -> rest' = rest
  | IoRaise e =>
      e = EOFError /\ forall rest, ~ answers int_of_str n stdin rest
  end.
Proof.
  induction stdin as [|line stdin IH]; simpl.
  - split; [reflexivity|]. intros rest (sk & l & z & H & _).
    destruct sk; discriminate.
  - assert (Hrej : rejected int_of_str n line ->
              forall rest, answers int_of_str n (line :: stdin) rest ->
                           answers int_of_str n stdin rest).
    { intros Hr rest (sk & l & z & H & Hsk & Hl & Hz).
      destruct sk as [|x sk]; simpl in H; inversion H; subst.
      - unfold rejected in Hr. rewrite Hl in Hr. contradiction.
      - inversion Hsk; subst. exists sk, l, z. auto. }
    assert (Hext : rejected int_of_str n line ->
              forall rest, answers int_of_str n stdin rest ->
                           answers int_of_str n (line :: stdin) rest).
    { intros Hr rest (sk & l & z & -> & Hsk & Hl & Hz).
      exists (line :: sk), l, z. split; [reflexivity|].
      split; [constructor; assumption | auto]. }
    destruct (int_of_str line) as [z|] eqn:Hz.
    + destruct (negb _) eqn:Hr.
      * assert (Hl : rejected int_of_str n line).
        { unfold rejected. rewrite Hz.
          apply negb_true_iff, andb_false_iff in Hr. lia. }
        destruct (user_select int_of_str n stdin) as [z' rest|e].
        -- destruct IH as [Ha Hu]. split; [apply Hext; assumption|].
           intros rest' H'. apply Hu, Hrej; assumption.
        -- destruct IH as [-> Hn]. split; [reflexivity|].
           intros rest H'. eapply Hn, Hrej; eassumption.
      * apply negb_false_iff, andb_true_iff in Hr. split.
        -- exists [], line, z. split; [reflexivity|].
           split; [constructor|]. split; [exact Hz | lia].
        -- intros rest' (sk & l & z' & H & Hsk & Hl & Hz').
           destruct sk as [|x sk]; simpl in H; inversion H; subst;
             [reflexivity|].
           inversion Hsk as [|? ? Hx _]; subst. unfold rejected in Hx.
           rewrite Hz in Hx. lia.
    + assert (Hl : rejected int_of_str n line)
        by (unfold rejected; now rewrite Hz).
      destruct (user_select int_of_str n stdin) as [z' rest|e].
      * destruct IH as [Ha Hu]. split; [apply Hext; assumption|].
        intros rest' H'. apply Hu, Hrej; assumption.
      * destruct IH as [-> Hn]. split; [reflexivity|].
        intros rest H'. eapply Hn, Hrej; eassumption.
Qed.

(** A selection in front of a continuation that fails one way when the
    remaining prompts are answered and the other way when they are not. *)
Lemma select_then {B : Type} (int_of_str : list N -> option Z) (n : Z)
    (prompts : list (option Z)) (f : Z -> list (list N) -> io_result B) :
  (forall z s,
     (answered int_of_str prompts s -> f z s = IoRaise UnboundLocalError) /\
     (~ answered int_of_str prompts s -> f z s = IoRaise EOFError)) ->
  forall s,
    (answered int_of_str (Some n :: prompts) s ->
     io_bind (user_select int_of_str n) f s = IoRaise UnboundLocalError) /\
    (~ answered int_of_str (Some n :: prompts) s ->
     io_bind (user_select int_of_str n) f s = IoRaise EOFError).
Proof.
  intros Hf s. unfold io_bind. pose proof (user_select_spec int_of_str n s) as Hs.
  destruct (user_select int_of_str n s) as [z rest|e].
  - destruct Hs as [Ha Hu]. destruct (Hf z rest) as [H1 H2]. split.
    + intros (rest' & Ha' & Hp). apply Hu in Ha'. subst. now apply H1.
    + intros Hn. apply H2. intros Hp. apply Hn. now exists rest.
  - destruct Hs as [-> Hn]. split; [|reflexivity].
    intros (rest & Ha & _). now apply Hn in Ha.
Qed.

Lemma input_then {B : Type} (int_of_str : list N -> option Z)
    (prompts : list (option Z))
    (f : list N -> list (list N) -> io_result B) :
  (forall l s,
     (answered int_of_str prompts s -> f l s = IoRaise UnboundLocalError) /\
     (~ answered int_of_str prompts s -> f l s = IoRaise EOFError)) ->
  forall s,
    (answered int_of_str (None :: prompts) s ->
     io_bind input f s = IoRaise UnboundLocalError) /\
    (~ answered int_of_str (None :: prompts) s ->
     io_bind input f s = IoRaise EOFError).
Proof.
  intros Hf s. unfold io_bind, input. destruct s as [|line rest].
  - split; [|reflexivity]. intros (l & r & H & _). discriminate.
  - destruct (Hf line rest) as [H1 H2]. split.
    + intros (l & r & H & Hp). inversion H; subst. now apply H1.
    + intros Hn. apply H2. intros Hp. apply Hn. now exists line, rest.
Qed.

(** X8: the interactive branch of [build_language] never returns a
    language.  When the input holds an answer to each of its ten prompts
    (six selections, the two lengths, two selections), it reaches the
    statement that builds the orthography and ends with
    [UnboundLocalError], because [joiner] is assigned in the random branch
    only; in every other case it ends with [EOFError], the input having run
    out at one of the prompts. *)
Theorem build_language_select_never_returns
    (int_of_str : list N -> option Z) (stdin : list (list N)) :
  (answered int_of_str SELECT_PROMPTS stdin ->
   build_language_select int_of_str stdin = IoRaise UnboundLocalError) /\
  (~ answered int_of_str SELECT_PROMPTS stdin ->
   build_language_select int_of_str stdin = IoRaise EOFError).
Proof.
  unfold build_language_select, SELECT_PROMPTS. revert stdin.
  do 6 (apply select_then; intros ? ?; revert s).
  do 2 (apply input_then; intros ? ?; revert s).
  do 2 (apply select_then; intros ? ?; revert s).
  intros s. split; [reflexivity|]. intros Hn. exfalso. apply Hn. exact I.
Qed.

Lemma build_language_select_never_returns_witness :
  let stdin := [py "x"; py "0"; py "0"; py "0"; py "0"; py "0"; py "0";
                py "1"; py "3"; py "0"; py "0"] in
  answered ascii_int SELECT_PROMPTS stdin /\
  build_language_select ascii_int stdin = IoRaise UnboundLocalError.
Proof.
  intros stdin.
  assert (Ha : answered ascii_int SELECT_PROMPTS stdin).
  { exists (tl (tl stdin)). split.
    { exists [py "x"], (py "0"), 0. split; [reflexivity|].
      split; [constructor; [vm_compute; exact I | constructor]|].
      split; [reflexivity | vm_compute; split; [discriminate | reflexivity]]. }
    do 5 (eexists; split;
          [exists [], (py "0"), 0; split; [reflexivity|];
           split; [constructor|];
           split; [reflexivity | vm_compute; split; [discriminate | reflexivity]]|]).
    do 2 (do 2 eexists; split; [reflexivity|]).
    do 2 (eexists; split;
          [exists [], (py "0"), 0; split; [reflexivity|];
           split; [constructor|];
           split; [reflexivity | vm_compute; split; [discriminate | reflexivity]]|]).
    exact I. }
  split; [exact Ha|].
  apply (build_language_select_never_returns ascii_int stdin). exact Ha.
Defined.

(** Ten acceptable selections reach the statement that fails. *)
Example build_language_select_unbound :
  build_language_select ascii_int
    [py "0"; py "0"; py "0"; py "0"; py "0"; py "0"; py "1"; py "3";
     py "0"; py "0"]
  = IoRaise UnboundLocalError.
Proof. reflexivity. Qed.

(** A selection outside the two orthography tables is passed over, and
    the input runs out. *)
Example build_language_select_eof :
  build_language_select ascii_int
    [py "0"; py "0"; py "0"; py "0"; py "0"; py "0"; py "1"; py "3";
     py "0"; py "9"]
  = IoRaise EOFError.
Proof. reflexivity. Qed.

(** ** The store only grows *)

Lemma lists_grow_refl (reg : gmap (option (list N)) (list (list N))) :
  lists_grow reg reg.
Proof. intros p l H. exists []. now rewrite app_nil_r. Qed.

Lemma lists_grow_trans (r1 r2 r3 : gmap (option (list N)) (list (list N))) :
  lists_grow r1 r2 -> lists_grow r2 r3 -> lists_grow r1 r3.
Proof.
  intros H12 H23 p l H. destruct (H12 p l H) as [l' H2].
  destruct (H23 p _ H2) as [l'' H3]. exists (l' ++ l'').
  now rewrite app_assoc.
Qed.

Lemma lists_grow_in_pool (r1 r2 : gmap (option (list N)) (list (list N)))
    (p : option (list N)) (x : list N) :
  lists_grow r1 r2 -> in_pool r1 p x -> in_pool r2 p x.
Proof.
  intros Hg (l & Hl & Hx). destruct (Hg p l Hl) as [l' Hl'].
  exists (l ++ l'). split; [exact Hl'|]. apply elem_of_app. now left.
Qed.

Lemma lists_grow_insert (reg : gmap (option (list N)) (list (list N)))
    (p : option (list N)) (l l' : list (list N)) :
  reg !! p = None \/ reg !! p = Some l ->
  lists_grow reg (<[p := l ++ l']> reg).
Proof.
  intros Hp q m Hq. destruct (decide (p = q)) as [<-|Hne].
  - rewrite lookup_insert_eq. destruct Hp as [Hp|Hp]; rewrite Hp in Hq;
      [discriminate|]. inversion Hq; subst. eauto.
  - rewrite lookup_insert_ne by exact Hne. exists []. now rewrite app_nil_r.
Qed.

Lemma lists_grow_insert_same (reg : gmap (option (list N)) (list (list N)))
    (p : option (list N)) (l : list (list N)) :
  reg !! p = None \/ reg !! p = Some l -> lists_grow reg (<[p := l]> reg).
Proof.
  intros Hp. pose proof (lists_grow_insert reg p l [] Hp) as H.
  now rewrite app_nil_r in H.
Qed.

#[local] Instance rng_only_preorder : PreOrder rng_only.
Proof.
  split.
  - intros st. repeat split.
  - intros s1 s2 s3 (A1 & B1 & C1 & D1) (A2 & B2 & C2 & D2).
    repeat split; congruence.
Qed.

#[local] Instance morphemes_grow_preorder : PreOrder morphemes_grow.
Proof.
  split.
  - intros st. repeat split. apply lists_grow_refl.
  - intros s1 s2 s3 (A1 & B1 & C1 & D1) (A2 & B2 & C2 & D2).
    repeat split; try congruence. eapply lists_grow_trans; eassumption.
Qed.

#[local] Instance grows_preorder : PreOrder grows.
Proof.
  split.
  - intros st. split; [reflexivity|].
    split; [apply lists_grow_refl|]. split; [apply lists_grow_refl|].
    intros p cat H. exists cat. split; [exact H | reflexivity].
  - intros s1 s2 s3 (A1 & B1 & C1 & D1) (A2 & B2 & C2 & D2).
    split; [congruence|].
    split; [eapply lists_grow_trans; eassumption|].
    split; [eapply lists_grow_trans; eassumption|].
    intros p cat H. destruct (D1 p cat H) as (cat' & H' & Hs).
    destruct (D2 p cat' H') as (cat'' & H'' & Hs').
    exists cat''. split; [exact H''|]. set_solver.
Qed.

Lemma rng_only_morphemes_grow (st st' : state) :
  rng_only st st' -> morphemes_grow st st'.
Proof.
  intros (A & B & C & D). repeat split; try assumption.
  rewrite B. apply lists_grow_refl.
Qed.

Lemma morphemes_grow_grows (st st' : state) :
  morphemes_grow st st' -> grows st st'.
Proof.
  intros (A & B & C & D). split; [exact A|]. split; [exact B|].
  split; [rewrite C; apply lists_grow_refl|].
  intros p cat H. exists cat. rewrite D. split; [exact H | reflexivity].
Qed.

Section Respects.

Context (R : state -> state -> Prop) `{!PreOrder R}.

Lemma respects_ret {A : Type} (a : A) : respects R (ret a).
Proof. intros st. unfold ensures. simpl. reflexivity. Qed.

Lemma respects_raise {A : Type} (e : exn) : respects R (@raise A e).
Proof. intros st. unfold ensures. simpl. reflexivity. Qed.

Lemma respects_out_of_fuel {A : Type} :
  respects R (fun _ : state => @OutOfFuel A).
Proof. intros st. exact I. Qed.

Lemma respects_get_state : respects R get_state.
Proof. intros st. unfold ensures. simpl. reflexivity. Qed.

Lemma respects_bind {A B : Type} (m : M A) (f : A -> M B) :
  respects R m -> (forall a, respects R (f a)) -> respects R (bind m f).
Proof.
  intros Hm Hf st. apply ensures_bind.
  eapply ensures_weaken; [apply Hm | |]; simpl.
  - intros a st1 H1.
    eapply ensures_weaken; [apply Hf | |]; simpl; intros;
      etransitivity; eassumption.
  - intros e st1 H1. exact H1.
Qed.

End Respects.

Lemma respects_weaken (R R' : state -> state -> Prop) {A : Type} (m : M A) :
  (forall st st', R st st' -> R' st st') -> respects R m -> respects R' m.
Proof.
  intros HR Hm st. eapply ensures_weaken; [apply Hm | |]; simpl; auto.
Qed.

Create HintDb respects.

#[local] Hint Resolve respects_ret respects_raise respects_out_of_fuel
  respects_get_state : respects.

(** Splits a composite computation along its binds and branches. *)
Ltac respects_step :=
  match goal with
  | |- respects _ (bind _ _) => apply respects_bind; [typeclasses eauto | | intros ?]
  | |- respects _ (if ?b then _ else _) => destruct b
  | |- respects _ (match ?x with _ => _ end) => destruct x
  | |- respects _ _ => solve [auto with respects typeclass_instances]
  end.

Ltac respects_auto := repeat respects_step.

Lemma respects_rd_raw : respects rng_only rd_raw.
Proof.
  intros st. unfold ensures, rd_raw. destruct (rng st); repeat split.
Qed.

#[local] Hint Resolve respects_rd_raw : respects.

Lemma respects_rd_random : respects rng_only rd_random.
Proof. unfold rd_random. respects_auto. Qed.

Lemma respects_rd_randrange (n : Z) : respects rng_only (rd_randrange n).
Proof. unfold rd_randrange. respects_auto. Qed.

Lemma respects_subscript (R : state -> state -> Prop) `{!PreOrder R}
    {A : Type} (lst : list A) (n : Z) :
  respects R (subscript lst n).
Proof. unfold subscript. respects_auto. Qed.

Lemma respects_transliterate (R : state -> state -> Prop) `{!PreOrder R}
    (self : BasicLanguage) (s : list N) :
  respects R (transliterate self s).
Proof. unfold transliterate. respects_auto. Qed.

#[local] Hint Resolve respects_rd_random respects_rd_randrange
  respects_subscript respects_transliterate : respects.

Lemma respects_gen_phones (self : BasicLanguage) (specs : list N)
    (phones : list (list N)) :
  respects rng_only (gen_phones self specs phones).
Proof.
  revert phones. induction specs as [|spec specs IH]; intros phones;
    cbn [gen_phones]; respects_auto.
Qed.

#[local] Hint Resolve respects_gen_phones : respects.

Lemma respects_gen_syllable (self : BasicLanguage) (fuel : nat) :
  respects rng_only (gen_syllable self fuel).
Proof. induction fuel as [|fuel IH]; simpl; respects_auto. Qed.

Lemma respects_rng_only_morphemes_grow {A : Type} (m : M A) :
  respects rng_only m -> respects morphemes_grow m.
Proof. apply respects_weaken, rng_only_morphemes_grow. Qed.

Lemma respects_morphemes_grow_grows {A : Type} (m : M A) :
  respects morphemes_grow m -> respects grows m.
Proof. apply respects_weaken, morphemes_grow_grows. Qed.

#[local] Hint Resolve respects_gen_syllable respects_rng_only_morphemes_grow
  respects_morphemes_grow_grows : respects.

Lemma ensures_Raise {A : Type} (m : M A) (st st' : state) (e : exn)
    (Q : A -> state -> Prop) (E : exn -> state -> Prop) :
  ensures m st Q E -> m st = Raise e st' -> E e st'.
Proof. unfold ensures. intros H Heq. now rewrite Heq in H. Qed.

Lemma rd_randrange_Ok (n v : Z) (st st' : state) :
  rd_randrange n st = Ok v st' -> 0 <= v < n /\ rng_only st st'.
Proof.
  intros H. split.
  - unfold rd_randrange in H. destruct (n <=? 0) eqn:Hn; [discriminate|].
    apply Z.leb_gt in Hn. apply bind_Ok in H as (k & st1 & _ & H).
    unfold ret in H. inversion H; subst. apply Z.mod_pos_bound. exact Hn.
  - exact (ensures_Ok _ _ _ _ _ _ (respects_rd_randrange n st) H).
Qed.

Lemma subscript_Ok {A : Type} (lst : list A) (n : Z) (x : A)
    (st st' : state) :
  subscript lst n st = Ok x st' -> x ∈ lst /\ st' = st.
Proof.
  unfold subscript, py_getitem.
  destruct (_ && _); [|destruct (_ && _)];
    try (destruct (lst !! _) as [y|] eqn:Hy; [|discriminate];
         unfold ret; intros H; inversion H; subst;
         split; [eapply list_elem_of_lookup_2, Hy | reflexivity]).
  discriminate.
Qed.

Lemma morphemes_getitem_Ok (p : option (list N)) (st : state) :
  morphemes_getitem p st
  = Ok (default [] (morphemes st !! p))
       (State (ortho_dict st)
              (<[p := default [] (morphemes st !! p)]> (morphemes st))
              (words st) (names st) (rng st)).
Proof.
  unfold morphemes_getitem, dd_getitem.
  destruct (morphemes st !! p) as [l|] eqn:Hp; simpl; [|reflexivity].
  now rewrite insert_id.
Qed.

Lemma words_getitem_Ok (p : option (list N)) (st : state) :
  words_getitem p st
  = Ok (default [] (words st !! p))
       (State (ortho_dict st) (morphemes st)
              (<[p := default [] (words st !! p)]> (words st))
              (names st) (rng st)).
Proof.
  unfold words_getitem, dd_getitem.
  destruct (words st !! p) as [l|] eqn:Hp; simpl; [|reflexivity].
  now rewrite insert_id.
Qed.

Lemma get_morpheme_loop_Ok (self : BasicLanguage) (inner : nat)
    (p : option (list N)) (l : list (list N)) (extras : Z) (fuel : nat)
    (st st' : state) (m : list N) :
  morphemes st !! p = Some l ->
  get_morpheme_loop self inner p l extras fuel st = Ok m st' ->
  ortho_dict st' = ortho_dict st /\ words st' = words st /\
  names st' = names st /\
  ((m ∈ l /\ morphemes st' = morphemes st) \/
   morphemes st' = <[p := l ++ [m]]> (morphemes st)).
Proof.
  intros Hp. destruct fuel as [|fuel]; [discriminate|].
  rewrite get_morpheme_loop_never_retries. simpl. intros H.
  apply bind_Ok in H as (n & st1 & Hn & H).
  apply rd_randrange_Ok in Hn as (_ & Ho & Hm & Hw & Hnm).
  destruct (n <? len l).
  - apply subscript_Ok in H as [Hin ->].
    repeat split; try assumption. left. split; assumption.
  - apply bind_Ok in H as (new & st2 & Hs & H).
    pose proof (ensures_Ok _ _ _ _ _ _ (respects_gen_syllable self inner st1)
                  Hs) as (Ho2 & Hm2 & Hw2 & Hnm2).
    unfold bind at 1, get_state in H.
    rewrite str_in_list_values in H. simpl in H.
    unfold morphemes_append in H.
    apply bind_Ok in H as ([] & st3 & Happ & H).
    unfold ret in H. inversion H; subst. clear H.
    apply bind_Ok in Happ as (l0 & st4 & Hget & H).
    rewrite morphemes_getitem_Ok in Hget. inversion Hget; subst. clear Hget.
    simpl in H. inversion H; subst. clear H. simpl.
    rewrite Hm2, Hm, Hp. simpl.
    repeat split; try congruence. right.
    now rewrite insert_insert_eq.
Qed.

(** X9: [get_morpheme] either reuses or appends: when it returns [m] for
    the pool [p], whose stored list was [l] (empty if the pool was new),
    either [m] is an item of [l] and the list is unchanged, or the list
    is now [l] with [m] appended; no other pool's list changes, and the
    words, the names and the orthography table are untouched. *)
Theorem get_morpheme_reuses_or_appends (self : BasicLanguage) (fuel : nat)
    (p : option (list N)) (st st' : state) (m : list N) :
  get_morpheme self fuel p st = Ok m st' ->
  let l := default [] (morphemes st !! p) in
  ortho_dict st' = ortho_dict st /\ words st' = words st /\
  names st' = names st /\
  ((m ∈ l /\ morphemes st' = <[p := l]> (morphemes st)) \/
   morphemes st' = <[p := l ++ [m]]> (morphemes st)).
Proof.
  intros H l. unfold get_morpheme in H.
  apply bind_Ok in H as (l0 & st1 & Hget & H).
  rewrite morphemes_getitem_Ok in Hget. inversion Hget; subst. clear Hget.
  apply get_morpheme_loop_Ok in H; [|simpl; apply lookup_insert_eq].
  simpl in H. destruct H as (Ho & Hw & Hn & H).
  repeat split; try assumption.
  destruct H as [[Hin Hm]|Hm]; [left; now split|right].
  rewrite Hm. apply insert_insert_eq.
Qed.

Lemma get_morpheme_reuses_or_appends_witness :
  let st := State ORTHO_DEFAULT {[ Some (py "of") := [py "pap"] ]} ∅ ∅
                  [1; 0; raw_of 3 4; 0]%N in
  let st' := State ORTHO_DEFAULT {[ Some (py "of") := [py "pap"; py "pip"] ]}
                   ∅ ∅ [] in
  let l := default [] (morphemes st !! Some (py "of")) in
  ortho_dict st' = ortho_dict st /\ words st' = words st /\
  names st' = names st /\
  ((py "pip" ∈ l /\ morphemes st' = <[Some (py "of") := l]> (morphemes st)) \/
   morphemes st' = <[Some (py "of") := l ++ [py "pip"]]> (morphemes st)).
Proof.
  apply (get_morpheme_reuses_or_appends
           (language "ptk" "ai" "CVC" None 1 1) 1 (Some (py "of"))).
  vm_compute. reflexivity.
Defined.

Lemma respects_morphemes_getitem (p : option (list N)) :
  respects morphemes_grow (morphemes_getitem p).
Proof.
  intros st. unfold ensures. rewrite morphemes_getitem_Ok.
  split; [reflexivity|]. split; [|split; reflexivity]. simpl.
  apply lists_grow_insert_same. destruct (morphemes st !! p); auto.
Qed.

Lemma respects_morphemes_append (p : option (list N)) (x : list N) :
  respects morphemes_grow (morphemes_append p x).
Proof.
  intros st. unfold ensures, morphemes_append, bind.
  rewrite morphemes_getitem_Ok. simpl.
  split; [reflexivity|]. split; [|split; reflexivity]. simpl.
  rewrite insert_insert_eq. apply lists_grow_insert.
  destruct (morphemes st !! p); auto.
Qed.

#[local] Hint Resolve respects_morphemes_getitem respects_morphemes_append
  : respects.

Lemma respects_get_morpheme_loop (self : BasicLanguage) (inner : nat)
    (p : option (list N)) (l : list (list N)) (extras : Z) (fuel : nat) :
  respects morphemes_grow (get_morpheme_loop self inner p l extras fuel).
Proof. induction fuel as [|fuel IH]; simpl; respects_auto. Qed.

#[local] Hint Resolve respects_get_morpheme_loop : respects.

Lemma respects_get_morpheme (self : BasicLanguage) (fuel : nat)
    (p : option (list N)) :
  respects morphemes_grow (get_morpheme self fuel p).
Proof. unfold get_morpheme. respects_auto. Qed.

#[local] Hint Resolve respects_get_morpheme : respects.

Lemma get_morpheme_grows (self : BasicLanguage) (fuel : nat)
    (p : option (list N)) (st st' : state) (m : list N) :
  get_morpheme self fuel p st = Ok m st' ->
  morphemes_grow st st' /\ in_pool (morphemes st') p m.
Proof.
  intros H.
  split;
    [exact (ensures_Ok _ _ _ _ _ _ (respects_get_morpheme self fuel p st) H)|].
  unfold get_morpheme in H.
  apply bind_Ok in H as (l0 & st1 & Hget & H).
  rewrite morphemes_getitem_Ok in Hget. inversion Hget; subst. clear Hget.
  apply get_morpheme_loop_Ok in H; [|simpl; apply lookup_insert_eq].
  simpl in H. destruct H as (_ & _ & _ & [[Hin ->]| ->]).
  - eexists. split; [apply lookup_insert_eq | exact Hin].
  - eexists. split; [apply lookup_insert_eq|].
    apply elem_of_app. right. now left.
Qed.

Lemma respects_get_morphemes (self : BasicLanguage) (fuel : nat)
    (p : option (list N)) (count : nat) :
  respects morphemes_grow (get_morphemes self fuel p count).
Proof. induction count as [|count IH]; simpl; respects_auto. Qed.

#[local] Hint Resolve respects_get_morphemes : respects.

Lemma respects_gen_word (self : BasicLanguage) (fuel : nat)
    (p : option (list N)) :
  respects morphemes_grow (gen_word self fuel p).
Proof. unfold gen_word. respects_auto. Qed.

#[local] Hint Resolve respects_gen_word : respects.

Lemma get_morphemes_Ok (self : BasicLanguage) (fuel : nat)
    (p : option (list N)) (count : nat) (st st' : state)
    (ms : list (list N)) :
  get_morphemes self fuel p count st = Ok ms st' ->
  length ms = count /\ Forall (in_pool (morphemes st') p) ms.
Proof.
  revert st ms. induction count as [|count IH]; intros st ms; simpl.
  - unfold ret. intros H. inversion H; subst. split; [reflexivity|constructor].
  - intros H. apply bind_Ok in H as (m & st1 & Hm & H).
    apply bind_Ok in H as (ms' & st2 & Hms & H).
    unfold ret in H. inversion H; subst.
    destruct (IH _ _ Hms) as [Hlen Hall].
    split; [simpl; now f_equal|]. constructor; [|exact Hall].
    apply get_morpheme_grows in Hm as [_ Hin].
    pose proof (ensures_Ok _ _ _ _ _ _
                  (respects_get_morphemes self fuel p count st1) Hms)
      as (_ & Hg & _).
    eapply lists_grow_in_pool; eassumption.
Qed.

(** X10: every word [gen_word] returns is the concatenation of exactly
    [max_syll - min_syll + 1] morphemes (of none when that is not
    positive), and each of them is stored for the pool in the morpheme
    registry when [gen_word] returns; besides the random source, only the
    morpheme registry changed, by appending. *)
Theorem gen_word_concatenates_stored_morphemes (self : BasicLanguage)
    (fuel : nat) (p : option (list N)) (st st' : state) (w : list N) :
  gen_word self fuel p st = Ok w st' ->
  morphemes_grow st st' /\
  exists ms,
    w = concat ms /\
    len ms = Z.max 0 (max_syll self - min_syll self + 1) /\
    Forall (in_pool (morphemes st') p) ms.
Proof.
  intros H.
  split; [exact (ensures_Ok _ _ _ _ _ _ (respects_gen_word self fuel p st) H)|].
  unfold gen_word in H. apply bind_Ok in H as (ms & st1 & Hms & H).
  unfold ret in H. inversion H; subst. exists ms.
  apply get_morphemes_Ok in Hms as [Hlen Hall].
  split; [reflexivity|]. split; [|exact Hall].
  unfold len, range_len in *. lia.
Qed.

Lemma gen_word_concatenates_stored_morphemes_witness :
  let st' := State ORTHO_DEFAULT {[ None := [py "pap"; py "tik"] ]} ∅ ∅ [] in
  morphemes_grow
    (initial_state [0; 0; 0; 0; 1; raw_of 3 5; raw_of 3 4; raw_of 9 10]%N)
    st' /\
  exists ms,
    py "paptik" = concat ms /\
    len ms = Z.max 0 (max_syll (language "ptk" "ai" "CVC" None 2 3)
                      - min_syll (language "ptk" "ai" "CVC" None 2 3) + 1) /\
    Forall (in_pool (morphemes st') None) ms.
Proof.
  apply (gen_word_concatenates_stored_morphemes
           (language "ptk" "ai" "CVC" None 2 3) 1 None).
  vm_compute. reflexivity.
Defined.

Lemma respects_words_getitem (p : option (list N)) :
  respects grows (words_getitem p).
Proof.
  intros st. unfold ensures. rewrite words_getitem_Ok.
  split; [reflexivity|]. split; [apply lists_grow_refl|]. split.
  - simpl. apply lists_grow_insert_same. destruct (words st !! p); auto.
  - intros q cat H. exists cat. split; [exact H | reflexivity].
Qed.

Lemma respects_words_append (p : option (list N)) (x : list N) :
  respects grows (words_append p x).
Proof.
  intros st. unfold ensures, words_append, bind.
  rewrite words_getitem_Ok. simpl.
  split; [reflexivity|]. split; [apply lists_grow_refl|]. split.
  - simpl. rewrite insert_insert_eq. apply lists_grow_insert.
    destruct (words st !! p); auto.
  - intros q cat H. exists cat. split; [exact H | reflexivity].
Qed.

Lemma respects_names_add (p : option (list N)) (name : list N) :
  respects grows (names_add p name).
Proof.
  intros st. unfold ensures, names_add.
  split; [reflexivity|]. split; [apply lists_grow_refl|].
  split; [apply lists_grow_refl|]. simpl.
  intros q cat H. unfold add_name, dd_getitem.
  destruct (names st !! p) as [v|] eqn:Hp.
  - destruct (decide (p = q)) as [<-|Hne].
    + rewrite lookup_insert_eq. rewrite Hp in H. inversion H; subst.
      eexists. split; [reflexivity|]. set_solver.
    + rewrite lookup_insert_ne by exact Hne. exists cat.
      split; [exact H | reflexivity].
  - destruct (decide (p = q)) as [<-|Hne]; [congruence|].
    rewrite !lookup_insert_ne by exact Hne. exists cat.
    split; [exact H | reflexivity].
Qed.

Lemma respects_check_unique (R : state -> state -> Prop) `{!PreOrder R}
    (name : list N) :
  respects R (check_unique name).
Proof. unfold check_unique. respects_auto. Qed.

Lemma respects_get_joiner (R : state -> state -> Prop) `{!PreOrder R}
    (self : BasicLanguage) :
  respects R (get_joiner self).
Proof. unfold get_joiner. respects_auto. Qed.

#[local] Hint Resolve respects_words_getitem respects_words_append
  respects_names_add respects_check_unique respects_get_joiner : respects.

Lemma respects_get_word_loop (self : BasicLanguage) (inner : nat)
    (p : option (list N)) (l : list (list N)) (extras : Z) (fuel : nat) :
  respects grows (get_word_loop self inner p l extras fuel).
Proof. induction fuel as [|fuel IH]; simpl; respects_auto. Qed.

#[local] Hint Resolve respects_get_word_loop : respects.

Lemma respects_get_word (self : BasicLanguage) (fuel : nat)
    (p : option (list N)) :
  respects grows (get_word self fuel p).
Proof. unfold get_word. respects_auto. Qed.

#[local] Hint Resolve respects_get_word : respects.

Lemma respects_gen_name_finish (self : BasicLanguage) (p : option (list N))
    (definitive name : list N) :
  respects grows (gen_name_finish self p definitive name).
Proof. unfold gen_name_finish. respects_auto. Qed.

#[local] Hint Resolve respects_gen_name_finish : respects.

Lemma respects_gen_name_body (capitalize : list N -> list N)
    (self : BasicLanguage) (fuel : nat) (p : option (list N))
    (genitive definitive : list N) :
  respects grows (gen_name_body capitalize self fuel p genitive definitive).
Proof. unfold gen_name_body. respects_auto. Qed.

#[local] Hint Resolve respects_gen_name_body : respects.

Lemma respects_gen_name_loop (capitalize : list N -> list N)
    (self : BasicLanguage) (inner : nat) (p : option (list N))
    (genitive definitive : list N) (fuel : nat) :
  respects grows
    (gen_name_loop capitalize self inner p genitive definitive fuel).
Proof. induction fuel as [|fuel IH]; simpl; respects_auto. Qed.

#[local] Hint Resolve respects_gen_name_loop : respects.

Lemma respects_gen_name (capitalize : list N -> list N)
    (self : BasicLanguage) (fuel : nat) (p : option (list N)) :
  respects grows (gen_name capitalize self fuel p).
Proof. unfold gen_name. respects_auto. Qed.

Lemma get_word_loop_Ok (self : BasicLanguage) (inner : nat)
    (p : option (list N)) (l : list (list N)) (extras : Z) (fuel : nat)
    (st st' : state) (w : list N) :
  words st !! p = Some l ->
  get_word_loop self inner p l extras fuel st = Ok w st' ->
  (w ∈ l /\ words st' = words st /\ morphemes st' = morphemes st) \/
  words st' = <[p := l ++ [w]]> (words st).
Proof.
  intros Hp. destruct fuel as [|fuel]; [discriminate|].
  rewrite get_word_loop_never_retries. simpl. intros H.
  apply bind_Ok in H as (n & st1 & Hn & H).
  apply rd_randrange_Ok in Hn as (_ & _ & Hm1 & Hw1 & _).
  destruct (n <? len l).
  - apply subscript_Ok in H as [Hin ->]. left. auto.
  - apply bind_Ok in H as (new & st2 & Hs & H).
    pose proof (ensures_Ok _ _ _ _ _ _ (respects_gen_word self inner p st1)
                  Hs) as (_ & _ & Hw2 & _).
    unfold bind at 1, get_state in H.
    rewrite str_in_list_values in H. simpl in H.
    unfold words_append in H.
    apply bind_Ok in H as ([] & st3 & Happ & H).
    unfold ret in H. inversion H; subst. clear H.
    apply bind_Ok in Happ as (l0 & st4 & Hget & H).
    rewrite words_getitem_Ok in Hget. inversion Hget; subst. clear Hget.
    simpl in H. inversion H; subst. clear H. simpl.
    right. rewrite Hw2, Hw1, Hp. simpl. now rewrite insert_insert_eq.
Qed.

(** X11: [get_word] either reuses or appends: when it returns [w] for the
    pool [p], whose stored word list was [l], either [w] is an item of [l]
    and neither the word list nor the morpheme registry changed, or the
    word list is now [l] with [w] appended and the morpheme registry only
    grew; the names and the orthography table are untouched. *)
Theorem get_word_reuses_or_appends (self : BasicLanguage) (fuel : nat)
    (p : option (list N)) (st st' : state) (w : list N) :
  get_word self fuel p st = Ok w st' ->
  let l := default [] (words st !! p) in
  ortho_dict st' = ortho_dict st /\ names st' = names st /\
  lists_grow (morphemes st) (morphemes st') /\
  ((w ∈ l /\ words st' = <[p := l]> (words st) /\
    morphemes st' = morphemes st) \/
   words st' = <[p := l ++ [w]]> (words st)).
Proof.
  intros H l.
  pose proof (ensures_Ok _ _ _ _ _ _ (respects_get_word self fuel p st) H)
    as (Ho & Hmg & _ & Hnm).
  assert (names st' = names st) as Hn.
  { exact (ensures_Ok _ _ _ _ _ _ (keeps_names_get_word self fuel p st) H). }
  unfold get_word in H.
  apply bind_Ok in H as (l0 & st1 & Hget & H).
  rewrite words_getitem_Ok in Hget. inversion Hget; subst l0 st1. clear Hget.
  apply get_word_loop_Ok in H; [|simpl; apply lookup_insert_eq].
  simpl in H. fold l in H.
  split; [exact Ho|]. split; [exact Hn|]. split; [exact Hmg|].
  destruct H as [(Hin & Hw & Hm)|Hw]; [left; auto|right].
  rewrite Hw. apply insert_insert_eq.
Qed.

Lemma get_word_reuses_or_appends_witness :
  let st := State ORTHO_DEFAULT {[ Some (py "city") := [py "pap"] ]}
                  {[ Some (py "city") := [py "pap"] ]} ∅ [0]%N in
  let st' := State ORTHO_DEFAULT {[ Some (py "city") := [py "pap"] ]}
                   {[ Some (py "city") := [py "pap"] ]} ∅ [] in
  let l := default [] (words st !! Some (py "city")) in
  ortho_dict st' = ortho_dict st /\ names st' = names st /\
  lists_grow (morphemes st) (morphemes st') /\
  ((py "pap" ∈ l /\ words st' = <[Some (py "city") := l]> (words st) /\
    morphemes st' = morphemes st) \/
   words st' = <[Some (py "city") := l ++ [py "pap"]]> (words st)).
Proof.
  apply (get_word_reuses_or_appends
           (language "ptk" "ai" "CVC" None 1 1) 1 (Some (py "city"))).
  vm_compute. reflexivity.
Defined.

(** X12: the store of a language is append-only over a whole session:
    whatever [gen_name] calls are made and however they end, every list
    of morphemes or words stored before is still stored with at most new
    items appended, every stored name is still stored for its pool, and
    the orthography table is the same. *)
Theorem gen_names_store_only_grows (capitalize : list N -> list N)
    (self : BasicLanguage) (calls : list (nat * option (list N)))
    (st : state) :
  grows st (gen_names capitalize self calls st).
Proof.
  revert st. induction calls as [|[fuel p] calls IH]; intros st; simpl;
    [reflexivity|].
  pose proof (respects_gen_name capitalize self fuel p st) as H.
  unfold ensures in H.
  destruct (gen_name capitalize self fuel p st) as [name st'|e st'|];
    [| |reflexivity]; (etransitivity; [exact H | apply IH]).
Qed.

(** ** What the generator can raise *)

Lemma raises_only_ret (P : exn -> Prop) {A : Type} (a : A) :
  raises_only P (ret a).
Proof. intros st. exact I. Qed.

Lemma raises_only_out_of_fuel (P : exn -> Prop) {A : Type} :
  raises_only P (fun _ : state => @OutOfFuel A).
Proof. intros st. exact I. Qed.

Lemma raises_only_get_state (P : exn -> Prop) : raises_only P get_state.
Proof. intros st. exact I. Qed.

Lemma raises_only_raise (P : exn -> Prop) {A : Type} (e : exn) :
  P e -> raises_only P (@raise A e).
Proof. intros He st. exact He. Qed.

Lemma raises_only_bind (P : exn -> Prop) {A B : Type} (m : M A)
    (f : A -> M B) :
  raises_only P m -> (forall a, raises_only P (f a)) ->
  raises_only P (bind m f).
Proof.
  intros Hm Hf st. apply ensures_bind.
  eapply ensures_weaken; [apply Hm | |]; simpl; auto.
  intros a st1 _. apply Hf.
Qed.

Lemma raises_only_rd_raw (P : exn -> Prop) : raises_only P rd_raw.
Proof. intros st. unfold ensures, rd_raw. destruct (rng st); exact I. Qed.

Create HintDb raises.

#[local] Hint Resolve raises_only_ret raises_only_out_of_fuel
  raises_only_get_state raises_only_rd_raw : raises.

Ltac raises_step :=
  match goal with
  | |- raises_only _ (bind _ _) => apply raises_only_bind; [| intros ?]
  | |- raises_only _ (if ?b then _ else _) => destruct b
  | |- raises_only _ _ => solve [auto with raises]
  end.

Ltac raises_auto := repeat raises_step.

Lemma raises_only_rd_random (P : exn -> Prop) : raises_only P rd_random.
Proof. unfold rd_random. raises_auto. Qed.

Lemma raises_only_transliterate (P : exn -> Prop) (self : BasicLanguage)
    (s : list N) :
  raises_only P (transliterate self s).
Proof. unfold transliterate. destruct (ortho self); raises_auto. Qed.

Lemma raises_only_check_unique (P : exn -> Prop) (name : list N) :
  raises_only P (check_unique name).
Proof. unfold check_unique. raises_auto. Qed.

Lemma raises_only_names_add (P : exn -> Prop) (p : option (list N))
    (name : list N) :
  raises_only P (names_add p name).
Proof. intros st. exact I. Qed.

Lemma raises_only_morphemes_append (P : exn -> Prop) (p : option (list N))
    (x : list N) :
  raises_only P (morphemes_append p x).
Proof.
  intros st. unfold ensures, morphemes_append, bind.
  now rewrite morphemes_getitem_Ok.
Qed.

Lemma raises_only_words_append (P : exn -> Prop) (p : option (list N))
    (x : list N) :
  raises_only P (words_append p x).
Proof.
  intros st. unfold ensures, words_append, bind.
  now rewrite words_getitem_Ok.
Qed.

Lemma raises_only_morphemes_getitem (P : exn -> Prop) (p : option (list N)) :
  raises_only P (morphemes_getitem p).
Proof. intros st. unfold ensures. now rewrite morphemes_getitem_Ok. Qed.

Lemma raises_only_words_getitem (P : exn -> Prop) (p : option (list N)) :
  raises_only P (words_getitem p).
Proof. intros st. unfold ensures. now rewrite words_getitem_Ok. Qed.

#[local] Hint Resolve raises_only_rd_random raises_only_transliterate
  raises_only_check_unique raises_only_names_add
  raises_only_morphemes_append raises_only_words_append
  raises_only_morphemes_getitem raises_only_words_getitem : raises.

Lemma raises_only_gen_syllable (P : exn -> Prop) (self : BasicLanguage)
    (fuel : nat) :
  pattern_fault (phonemes self) (syll self) = None ->
  raises_only P (gen_syllable self fuel).
Proof.
  intros Hf st. unfold ensures.
  destruct (gen_syllable self fuel st) as [s st'|e st'|] eqn:H; try exact I.
  now apply gen_syllable_no_fault in H.
Qed.

(** A drawn slot number is a valid subscript or a request for a new item:
    the retry loops raise only what generating the new item raises. *)
Lemma raises_only_slot_loop (P : exn -> Prop) {A : Type}
    (l : list A) (extras : Z) (fresh : M A) (st : state) :
  0 < extras -> raises_only P fresh ->
  ensures (do n <- rd_randrange (len l + extras);
           if n <? len l then subscript l n else fresh) st
          (fun _ _ => True) (fun e _ => P e).
Proof.
  intros Hx Hfresh. apply ensures_bind. unfold ensures at 1.
  assert (0 < len l + extras) as Hpos by (unfold len; lia).
  destruct (rd_randrange (len l + extras) st) as [n st1|e st1|] eqn:Hn;
    [| |exact I].
  - apply rd_randrange_Ok in Hn as [Hn _].
    destruct (n <? len l) eqn:Hlt.
    + apply Z.ltb_lt in Hlt. unfold ensures, subscript.
      destruct (py_getitem_in_range l n) as [_ [x ->]]; [lia|]. exact I.
    + apply Hfresh.
  - unfold rd_randrange in Hn.
    replace (len l + extras <=? 0) with false in Hn
      by (symmetry; apply Z.leb_gt; lia).
    unfold bind in Hn. destruct (rd_raw_Ok st) as (k & st2 & Hk).
    rewrite Hk in Hn. discriminate.
Qed.

Lemma raises_only_get_morpheme (P : exn -> Prop) (self : BasicLanguage)
    (fuel : nat) (p : option (list N)) :
  pattern_fault (phonemes self) (syll self) = None ->
  raises_only P (get_morpheme self fuel p).
Proof.
  intros Hf. unfold get_morpheme.
  apply raises_only_bind; [auto with raises|]. intros l st.
  destruct fuel as [|fuel]; [exact I|].
  change (ensures (get_morpheme_loop self (S fuel) p l
                     match p with Some _ => 1 | None => 10 end (S fuel)) st
                  (fun _ _ => True) (fun e _ => P e)).
  unfold ensures. rewrite get_morpheme_loop_never_retries.
  apply raises_only_slot_loop; [destruct p; lia|].
  raises_auto; try (apply raises_only_gen_syllable; exact Hf).
Qed.

Lemma raises_only_get_morphemes (P : exn -> Prop) (self : BasicLanguage)
    (fuel : nat) (p : option (list N)) (count : nat) :
  pattern_fault (phonemes self) (syll self) = None ->
  raises_only P (get_morphemes self fuel p count).
Proof.
  intros Hf. induction count as [|count IH]; simpl; raises_auto.
  now apply raises_only_get_morpheme.
Qed.

Lemma raises_only_get_word (P : exn -> Prop) (self : BasicLanguage)
    (fuel : nat) (p : option (list N)) :
  pattern_fault (phonemes self) (syll self) = None ->
  raises_only P (get_word self fuel p).
Proof.
  intros Hf. unfold get_word.
  apply raises_only_bind; [auto with raises|]. intros l st.
  destruct fuel as [|fuel]; [exact I|].
  change (ensures (get_word_loop self (S fuel) p l
                     match p with Some _ => 2 | None => 3 end (S fuel)) st
                  (fun _ _ => True) (fun e _ => P e)).
  unfold ensures. rewrite get_word_loop_never_retries.
  apply raises_only_slot_loop; [destruct p; lia|].
  raises_auto. unfold gen_word. raises_auto.
  now apply raises_only_get_morphemes.
Qed.

Lemma raises_only_get_joiner (self : BasicLanguage) :
  raises_only (fun e => e = AttributeError /\ ortho self = None)
              (get_joiner self).
Proof.
  unfold get_joiner. destruct (ortho self); [auto with raises|].
  apply raises_only_raise. auto.
Qed.

Section Raises_gen_name.

Variable capitalize : list N -> list N.
Variable self : BasicLanguage.
Hypothesis Hf : pattern_fault (phonemes self) (syll self) = None.

Let P := fun e : exn => e = AttributeError /\ ortho self = None.

Lemma raises_only_gen_name_finish (p : option (list N))
    (definitive name : list N) :
  raises_only P (gen_name_finish self p definitive name).
Proof.
  pose proof (raises_only_get_joiner self) as Hj.
  unfold gen_name_finish. raises_auto.
Qed.

Lemma raises_only_gen_name_body (fuel : nat) (p : option (list N))
    (genitive definitive : list N) :
  raises_only P (gen_name_body capitalize self fuel p genitive definitive).
Proof.
  pose proof (raises_only_get_joiner self) as Hj.
  pose proof (fun f q => raises_only_get_word P self f q Hf) as Hw.
  pose proof raises_only_gen_name_finish as Hfin.
  unfold gen_name_body. raises_auto.
Qed.

Lemma raises_only_gen_name_loop (inner : nat) (p : option (list N))
    (genitive definitive : list N) (fuel : nat) :
  raises_only P
    (gen_name_loop capitalize self inner p genitive definitive fuel).
Proof.
  induction fuel as [|fuel IH]; simpl; [auto with raises|].
  apply raises_only_bind; [apply raises_only_gen_name_body|].
  intros [name|]; [auto with raises | exact IH].
Qed.

Lemma raises_only_gen_name (fuel : nat) (p : option (list N)) :
  raises_only P (gen_name capitalize self fuel p).
Proof.
  pose proof (fun f q => raises_only_get_morpheme P self f q Hf) as Hm.
  pose proof raises_only_gen_name_loop as Hl.
  unfold gen_name. raises_auto.
Qed.

End Raises_gen_name.

(** X13: for a language whose pattern names only roles with a non-empty
    phoneme sequence, [get_morpheme] and [get_word] never raise (the
    slot number they draw is always a valid subscript or a request for a
    new item), and the only exception [gen_name] can raise is the
    [AttributeError] of [self.ortho.joiner] in a language built without
    an orthography. *)
Theorem generation_raises_only_without_orthography
    (capitalize : list N -> list N) (self : BasicLanguage) :
  pattern_fault (phonemes self) (syll self) = None ->
  (forall fuel p st e st', get_morpheme self fuel p st <> Raise e st') /\
  (forall fuel p st e st', get_word self fuel p st <> Raise e st') /\
  (forall fuel p st e st',
      gen_name capitalize self fuel p st = Raise e st' ->
      e = AttributeError /\ ortho self = None).
Proof.
  intros Hf. split; [|split].
  - intros fuel p st e st' H.
    exact (ensures_Raise _ _ _ _ _ _
             (raises_only_get_morpheme (fun _ => False) self fuel p Hf st) H).
  - intros fuel p st e st' H.
    exact (ensures_Raise _ _ _ _ _ _
             (raises_only_get_word (fun _ => False) self fuel p Hf st) H).
  - intros fuel p st e st' H.
    exact (ensures_Raise _ _ _ _ _ _
             (raises_only_gen_name capitalize self Hf fuel p st) H).
Qed.

Lemma generation_raises_only_without_orthography_witness :
  (forall fuel p st e st',
      get_morpheme (language "ptk" "ai" "CVC" None 1 1) fuel p st
      <> Raise e st') /\
  (forall fuel p st e st',
      get_word (language "ptk" "ai" "CVC" None 1 1) fuel p st
      <> Raise e st') /\
  (forall fuel p st e st',
      gen_name ascii_capitalize (language "ptk" "ai" "CVC" None 1 1)
               fuel p st = Raise e st' ->
      e = AttributeError /\ ortho (language "ptk" "ai" "CVC" None 1 1) = None).
Proof.
  apply (generation_raises_only_without_orthography ascii_capitalize
           (language "ptk" "ai" "CVC" None 1 1)).
  vm_compute. reflexivity.
Defined.

(** The exception does occur: with no orthography the first call that
    prefixes the definite marker fails. *)
Example gen_name_without_orthography_raises :
  exists st',
    gen_name ascii_capitalize (language "ptk" "ai" "CVC" None 1 1) 1
             (Some (py "city")) (initial_state [])
    = Raise AttributeError st'.
Proof. eexists. vm_compute. reflexivity. Qed.

(** ** The shape of generated syllables *)

Lemma py_getitem_elem {A : Type} (lst : list A) (i : Z) (x : A) :
  py_getitem lst i = Some x -> x ∈ lst.
Proof.
  unfold py_getitem.
  destruct (_ && _); [|destruct (_ && _)]; try discriminate;
    intros H; eapply list_elem_of_lookup_2, H.
Qed.

Lemma choose_elem {A : Type} (lst : list A) (exp : N) (u : Q) (x : A) :
  choose lst exp u = Some x -> x ∈ lst.
Proof.
  unfold choose. destruct (choose_index lst exp u) as [i|]; [|discriminate].
  apply py_getitem_elem.
Qed.

Lemma roles_cons (spec : N) (specs : list N) :
  roles (spec :: specs)
  = if N.eqb spec question_mark then roles specs else 1 + roles specs.
Proof.
  unfold roles, len. simpl. destruct (N.eqb spec question_mark); simpl; lia.
Qed.

Lemma markers_cons (spec : N) (specs : list N) :
  markers (spec :: specs)
  = if N.eqb spec question_mark then 1 + markers specs else markers specs.
Proof.
  unfold markers, len. simpl. destruct (N.eqb spec question_mark); simpl; lia.
Qed.

Lemma len_removelast {A : Type} (l : list A) :
  len l - 1 <= len (removelast l) <= len l.
Proof.
  unfold len. destruct l as [|x l] using rev_ind; [simpl; lia|].
  rewrite removelast_last, length_app. simpl. lia.
Qed.

Lemma Forall_removelast {A : Type} (P : A -> Prop) (l : list A) :
  Forall P l -> Forall P (removelast l).
Proof.
  destruct l as [|x l] using rev_ind; [auto|].
  rewrite removelast_last. intros H. apply Forall_app in H. tauto.
Qed.

(** Every phone of the list is a one-character string whose character
    satisfies [ok]. *)
Lemma gen_phones_Ok (self : BasicLanguage) (ok : N -> Prop) (specs : list N) :
  (forall spec c, spec ∈ specs -> spec <> question_mark ->
                  phone_of self spec c -> ok c) ->
  forall phones st phones' st',
    gen_phones self specs phones st = Ok phones' st' ->
    Forall (fun ph => exists c, ph = [c] /\ ok c) phones ->
    Forall (fun ph => exists c, ph = [c] /\ ok c) phones' /\
    len phones + roles specs - markers specs <= len phones'
    <= len phones + roles specs.
Proof.
  induction specs as [|spec specs IH]; intros Hok phones st phones' st' H Hall.
  - simpl in H. unfold ret in H. inversion H; subst.
    split; [exact Hall|]. unfold roles, markers, len. simpl. lia.
  - assert (forall s c, s ∈ specs -> s <> question_mark ->
                        phone_of self s c -> ok c) as Hok'
      by (intros s c Hs; apply Hok; now right).
    rewrite roles_cons, markers_cons. cbn [gen_phones] in H.
    destruct (N.eqb_spec spec question_mark) as [Hq|Hq].
    + apply bind_Ok in H as (u & st1 & _ & H).
      apply IH in H; [|exact Hok'|].
      * destruct H as [H1 H2]. split; [exact H1|].
        pose proof (len_removelast phones).
        destruct (Qltb f_0_5 u); lia.
      * destruct (Qltb f_0_5 u); [apply Forall_removelast|]; exact Hall.
    + destruct (phonemes self !! [spec]) as [lst|] eqn:Hl; [|discriminate].
      apply bind_Ok in H as (u & st1 & _ & H).
      destruct (choose lst 2 u) as [c|] eqn:Hc; [|discriminate].
      apply IH in H; [|exact Hok'|].
      * destruct H as [H1 H2]. split; [exact H1|].
        unfold len in *. rewrite length_app in H2. simpl in H2. lia.
      * apply Forall_app. split; [exact Hall|].
        constructor; [|constructor]. exists c. split; [reflexivity|].
        apply (Hok spec); [now left | exact Hq |].
        exists lst. split; [exact Hl|]. eapply choose_elem, Hc.
Qed.

Lemma gen_phones_exact (self : BasicLanguage) (specs : list N) :
  question_mark ∉ specs ->
  forall phones st phones' st',
    gen_phones self specs phones st = Ok phones' st' ->
    exists new,
      phones' = phones ++ List.map (fun c => [c]) new /\
      Forall2 (fun c spec => phone_of self spec c) new specs.
Proof.
  induction specs as [|spec specs IH]; intros Hq phones st phones' st' H.
  - simpl in H. unfold ret in H. inversion H; subst. exists [].
    split; [simpl; now rewrite app_nil_r | constructor].
  - cbn [gen_phones] in H. apply not_elem_of_cons in Hq as [Hne Hq].
    destruct (N.eqb_spec spec question_mark) as [Heq|_]; [congruence|].
    destruct (phonemes self !! [spec]) as [lst|] eqn:Hl; [|discriminate].
    apply bind_Ok in H as (u & st1 & _ & H).
    destruct (choose lst 2 u) as [c|] eqn:Hc; [|discriminate].
    apply IH in H as (new & -> & Hnew); [|exact Hq].
    exists (c :: new). split; [simpl; now rewrite <- app_assoc|].
    constructor; [|exact Hnew].
    exists lst. split; [exact Hl|]. eapply choose_elem, Hc.
Qed.

Lemma concat_singletons (l : list N) : concat (List.map (fun c => [c]) l) = l.
Proof. induction l as [|c l IH]; simpl; [reflexivity | now rewrite IH]. Qed.

Lemma Forall_singletons (ok : N -> Prop) (phones : list (list N)) :
  Forall (fun ph => exists c, ph = [c] /\ ok c) phones ->
  Forall ok (concat phones) /\ len (concat phones) = len phones.
Proof.
  induction 1 as [|ph phones (c & -> & Hc) _ [IH1 IH2]]; simpl.
  - split; [constructor | reflexivity].
  - split; [now constructor|]. unfold len in *. simpl. lia.
Qed.

(** The pass of [gen_syllable] that returned: its phones and the
    transliteration of their concatenation. *)
Lemma gen_syllable_pass (self : BasicLanguage) (fuel : nat) (st st' : state)
    (s : list N) :
  gen_syllable self fuel st = Ok s st' ->
  exists st0 phones,
    gen_phones self (syll self) [] st0 = Ok phones st' /\
    restricted self (concat phones) = false /\
    transliterate self (concat phones) st' = Ok s st' /\
    (ortho self = None -> s = concat phones).
Proof.
  revert st. induction fuel as [|fuel IH]; intros st; [discriminate|].
  simpl. intros H. apply bind_Ok in H as (phones & st1 & Hp & H).
  destruct (restricted self (concat phones)) eqn:Hr.
  - eapply IH. exact H.
  - exists st, phones.
    destruct (transliterate_returns self (concat phones) st1) as (s' & Ht & Hn).
    rewrite Ht in H. inversion H; subst. auto.
Qed.

(** X14: every syllable the generator returns is the transliteration of
    a raw sequence whose phones all come from the sequences of the roles
    the pattern mentions, and whose length lies between the number of
    role tokens minus the number of optional markers and the number of
    role tokens; without an orthography the syllable is that raw
    sequence. *)
Theorem gen_syllable_phones_drawn (self : BasicLanguage) (fuel : nat)
    (st st' : state) (s : list N) :
  gen_syllable self fuel st = Ok s st' ->
  exists raw,
    transliterate self raw st' = Ok s st' /\
    (ortho self = None -> s = raw) /\
    Forall (drawn self) raw /\
    roles (syll self) - markers (syll self) <= len raw <= roles (syll self).
Proof.
  intros H. apply gen_syllable_pass in H as (st0 & phones & Hp & _ & Ht & Hn).
  exists (concat phones). split; [exact Ht|]. split; [exact Hn|].
  apply (gen_phones_Ok self (drawn self)) in Hp as [Hall Hlen];
    [| |constructor].
  - apply Forall_singletons in Hall as [Hall Heq]. split; [exact Hall|].
    rewrite Heq. unfold len in Hlen at 1 4. simpl in Hlen. lia.
  - intros spec c Hs Hq Hc. exists spec. auto.
Qed.

Lemma gen_syllable_phones_drawn_witness :
  exists raw,
    transliterate (language "ptk" "ai" "CVC?" None 1 1) raw
                  (initial_state [])
    = Ok (py "ti") (initial_state []) /\
    (ortho (language "ptk" "ai" "CVC?" None 1 1) = None -> py "ti" = raw) /\
    Forall (drawn (language "ptk" "ai" "CVC?" None 1 1)) raw /\
    roles (syll (language "ptk" "ai" "CVC?" None 1 1))
    - markers (syll (language "ptk" "ai" "CVC?" None 1 1))
    <= len raw <= roles (syll (language "ptk" "ai" "CVC?" None 1 1)).
Proof.
  apply (gen_syllable_phones_drawn (language "ptk" "ai" "CVC?" None 1 1) 1
           (initial_state [raw_of 3 5; raw_of 3 4; 0; raw_of 3 4]%N)).
  vm_compute. reflexivity.
Defined.

(** X15: for a pattern without optional markers the raw syllable has one
    phone per role token, in order, each taken from the sequence of its
    role: with the pattern [CVC] over consonants [ptk] and vowels [ai]
    only the 18 strings consonant-vowel-consonant can come out. *)
Theorem gen_syllable_follows_pattern (self : BasicLanguage) (fuel : nat)
    (st st' : state) (s : list N) :
  question_mark ∉ syll self ->
  gen_syllable self fuel st = Ok s st' ->
  exists raw,
    transliterate self raw st' = Ok s st' /\
    (ortho self = None -> s = raw) /\
    Forall2 (fun c spec => phone_of self spec c) raw (syll self).
Proof.
  intros Hq H.
  apply gen_syllable_pass in H as (st0 & phones & Hp & _ & Ht & Hn).
  apply gen_phones_exact in Hp as (new & -> & Hnew); [|exact Hq].
  simpl in *. rewrite concat_singletons in *.
  exists new. auto.
Qed.

Lemma gen_syllable_follows_pattern_witness :
  exists raw,
    transliterate (language "ptk" "ai" "CVC" None 1 1) raw (initial_state [])
    = Ok (py "tik") (initial_state []) /\
    (ortho (language "ptk" "ai" "CVC" None 1 1) = None -> py "tik" = raw) /\
    Forall2 (fun c spec =>
               phone_of (language "ptk" "ai" "CVC" None 1 1) spec c)
            raw (syll (language "ptk" "ai" "CVC" None 1 1)).
Proof.
  apply (gen_syllable_follows_pattern (language "ptk" "ai" "CVC" None 1 1) 1
           (initial_state [raw_of 3 5; raw_of 3 4; raw_of 9 10]%N)).
  - intros Hin. apply list_elem_of_In in Hin. vm_compute in Hin.
    intuition discriminate.
  - vm_compute. reflexivity.
Defined.

(** X16: with no restriction pattern configured and a pattern that names
    only roles with a non-empty phoneme sequence, the generator returns a
    syllable in its first pass, whatever the random source produces. *)
Theorem gen_syllable_returns_without_restrictions (self : BasicLanguage)
    (fuel : nat) (st : state) :
  restricts self = [] ->
  pattern_fault (phonemes self) (syll self) = None ->
  exists s st', gen_syllable self (S fuel) st = Ok s st'.
Proof.
  intros Hr Hf. simpl. unfold bind.
  destruct (gen_phones_no_fault self (syll self) Hf [] st) as (ph & st1 & ->).
  unfold restricted. rewrite Hr. simpl.
  destruct (transliterate_returns self (concat ph) st1) as (s & Hs & _).
  eauto.
Qed.

Lemma gen_syllable_returns_without_restrictions_witness :
  exists s st',
    gen_syllable (BasicLanguage_attrs
                    (dict [ (py "C", py "ptk"); (py "V", py "ai") ])
                    (py "CVVC") None 1 1 [])
                 1 (initial_state []) = Ok s st'.
Proof.
  apply (gen_syllable_returns_without_restrictions
           (BasicLanguage_attrs
              (dict [ (py "C", py "ptk"); (py "V", py "ai") ])
              (py "CVVC") None 1 1 []) 0 (initial_state []));
    vm_compute; reflexivity.
Defined.

(** ** [check_unique] and the names [gen_name] returns *)

(** X17: [check_unique] never raises or changes the store, and it
    answers [True] exactly when no name stored for any pool contains the
    candidate or is contained in it. *)
Theorem check_unique_decides (name : list N) (st : state) :
  exists b,
    check_unique name st = Ok b st /\
    (b = true <->
     forall q other, stored (names st) q other ->
                     ~ substring name other /\ ~ substring other name).
Proof.
  exists (check_unique_in (names st) name). split; [reflexivity|].
  apply check_unique_in_substring.
Qed.

Lemma clashes_refl (a : list N) : clashes a a = true.
Proof. apply clashes_spec. left. exists [], []. simpl. now rewrite app_nil_r. Qed.

(** X18: [gen_name] never returns a name twice: the name it returns was
    stored for no pool before the call, and after the call the stored
    names are the earlier ones and this one, stored for the pool of the
    call. *)
Theorem gen_name_returns_fresh_name (capitalize : list N -> list N)
    (self : BasicLanguage) (fuel : nat) (p : option (list N))
    (st st' : state) (name : list N) :
  gen_name capitalize self fuel p st = Ok name st' ->
  (forall q, ~ stored (names st) q name) /\
  (forall q b, stored (names st') q b <->
               stored (names st) q b \/ (q = p /\ b = name)).
Proof.
  intros H.
  destruct (ensures_Ok _ _ _ _ _ _ (gen_name_spec capitalize self fuel p st) H)
    as (Hu & _ & Hadd).
  split.
  - intros q Hq. rewrite check_unique_in_spec in Hu.
    specialize (Hu q name Hq). rewrite clashes_refl in Hu. discriminate.
  - intros q b. rewrite Hadd. apply stored_add_name.
Qed.

Lemma gen_name_returns_fresh_name_witness :
  let st := styled_state 1 1
              [0; 0; 0; 0; 0; 0; 0; 0; 0; 0; 0; 0; 0; 0; 2 ^ 52]%N in
  let st' := State (styled_orthography 1 1 ORTHO_DEFAULT).2
                   (<[ Some (py "city") := [py "pap"] ]>
                      (<[ Some (py "the") := [py "pap"] ]>
                         {[ Some (py "of") := [py "pap"] ]}))
                   {[ Some (py "city") := [py "pap"] ]}
                   {[ Some (py "city") := {[ py "Pap" ]} ]} [] in
  (forall q, ~ stored (names st) q (py "Pap")) /\
  (forall q b, stored (names st') q b <->
               stored (names st) q b \/
               (q = Some (py "city") /\ b = py "Pap")).
Proof.
  apply (gen_name_returns_fresh_name ascii_capitalize
           (styled_language 1 1 "ptk" "ai" "CVC" 1 1) 2).
  vm_compute. reflexivity.
Defined.

(** ** The shape of names *)

Lemma get_word_stored (self : BasicLanguage) (fuel : nat)
    (p : option (list N)) (st st' : state) (w : list N) :
  get_word self fuel p st = Ok w st' ->
  in_pool (words st') p w /\ grows st st'.
Proof.
  intros H.
  split; [|exact (ensures_Ok _ _ _ _ _ _ (respects_get_word self fuel p st) H)].
  unfold get_word in H.
  apply bind_Ok in H as (l0 & st1 & Hget & H).
  rewrite words_getitem_Ok in Hget. inversion Hget; subst l0 st1. clear Hget.
  apply get_word_loop_Ok in H; [|simpl; apply lookup_insert_eq].
  simpl in H. destruct H as [(Hin & -> & _)| ->].
  - eexists. split; [apply lookup_insert_eq | exact Hin].
  - eexists. split; [apply lookup_insert_eq|].
    apply elem_of_app. right. now left.
Qed.

Lemma grows_words (st st' : state) (p : option (list N)) (w : list N) :
  grows st st' -> in_pool (words st) p w -> in_pool (words st') p w.
Proof. intros (_ & _ & Hw & _). now apply lists_grow_in_pool. Qed.

Lemma grows_morphemes (st st' : state) (p : option (list N)) (m : list N) :
  grows st st' -> in_pool (morphemes st) p m -> in_pool (morphemes st') p m.
Proof. intros (_ & Hm & _). now apply lists_grow_in_pool. Qed.

Lemma gen_name_finish_Ok (self : BasicLanguage) (p : option (list N))
    (definitive cand name : list N) (st st' : state) :
  gen_name_finish self p definitive cand st = Ok (Some name) st' ->
  match ortho self with
  | None => name = cand
  | Some o => name = cand \/ name = definitive ++ joiner o ++ cand
  end.
Proof.
  unfold gen_name_finish. intros H.
  apply bind_Ok in H as (u & st1 & _ & H).
  apply bind_Ok in H as (name' & st2 & Hpre & H).
  assert (name = name') as ->.
  { destruct (negb _); [unfold ret in H; inversion H|].
    apply bind_Ok in H as (b & st3 & _ & H).
    destruct b; [|unfold ret in H; inversion H].
    apply bind_Ok in H as ([] & st4 & _ & H).
    unfold ret in H. now inversion H. }
  clear H. destruct (Qltb u f_0_1).
  - apply bind_Ok in Hpre as (j & st3 & Hj & H).
    unfold get_joiner in Hj. destruct (ortho self) as [o|]; [|discriminate].
    unfold ret in Hj, H. inversion Hj; subst. inversion H; subst.
    right. simpl. reflexivity.
  - unfold ret in Hpre. inversion Hpre; subst.
    destruct (ortho self); auto.
Qed.

Lemma gen_name_body_Ok (capitalize : list N -> list N)
    (self : BasicLanguage) (fuel : nat) (p : option (list N))
    (genitive definitive name : list N) (st st' : state) :
  gen_name_body capitalize self fuel p genitive definitive st
  = Ok (Some name) st' ->
  match ortho self with
  | None => exists w, in_pool (words st') p w /\ name = capitalize w
  | Some o =>
      exists core,
        name_core capitalize (words st') p (joiner o) genitive core /\
        (name = core \/ name = definitive ++ joiner o ++ core)
  end.
Proof.
  unfold gen_name_body. intros H.
  apply bind_Ok in H as (u & st1 & _ & H).
  destruct (Qltb u f_0_5).
  - apply bind_Ok in H as (w & st2 & Hw & H).
    apply get_word_stored in Hw as [Hin _].
    pose proof (ensures_Ok _ _ _ _ _ _
                  (respects_gen_name_finish self p definitive (capitalize w)
                     st2) H) as Hg.
    cbv beta in Hg. apply gen_name_finish_Ok in H.
    assert (Hin' : in_pool (words st') p w)
      by (eapply grows_words; eassumption).
    destruct (ortho self) as [o|].
    + exists (capitalize w). split; [|exact H].
      left. exists w. split; [exact Hin' | reflexivity].
    + exists w. split; [exact Hin' | exact H].
  - apply bind_Ok in H as (u1 & st2 & _ & H).
    apply bind_Ok in H as (w1 & st3 & Hw1 & H).
    apply bind_Ok in H as (u2 & st4 & Hu2 & H).
    apply bind_Ok in H as (w2 & st5 & Hw2 & H).
    destruct (bool_decide_reflect (capitalize w1 = capitalize w2)) as [|Hne];
      [unfold ret in H; inversion H|].
    apply bind_Ok in H as (u3 & st6 & Hu3 & H).
    apply bind_Ok in H as (j & st7 & Hj & H).
    apply get_word_stored in Hw1 as [Hin1 _].
    apply get_word_stored in Hw2 as [Hin2 Hg2].
    pose proof (ensures_Ok _ _ _ _ _ _ (respects_rd_random st3) Hu2)
      as (_ & _ & Hws & _).
    pose proof (ensures_Ok _ _ _ _ _ _ (respects_rd_random st5) Hu3)
      as (_ & _ & Hws3 & _).
    pose proof (ensures_Ok _ _ _ _ _ _
                  (respects_gen_name_finish self p definitive _ st7) H) as Hg.
    cbv beta in Hg, Hg2. apply gen_name_finish_Ok in H.
    unfold get_joiner in Hj. destruct (ortho self) as [o|]; [|discriminate].
    unfold ret in Hj. inversion Hj; subst. clear Hj.
    assert (forall q w, in_pool (words st3) q w -> in_pool (words st') q w)
      as Hup3.
    { intros q w Hq. eapply grows_words; [exact Hg|].
      unfold in_pool in *. rewrite Hws3. fold (in_pool (words st5) q w).
      eapply grows_words; [exact Hg2|].
      unfold in_pool in *. now rewrite Hws. }
    assert (forall q w, in_pool (words st5) q w -> in_pool (words st') q w)
      as Hup5.
    { intros q w Hq. eapply grows_words; [exact Hg|].
      unfold in_pool in *. now rewrite Hws3. }
    eexists. split; [|exact H].
    right. exists w1, w2.
    split; [destruct (Qltb u1 f_0_6); [left|right]; now apply Hup3|].
    split; [destruct (Qltb u2 f_0_6); [left|right]; now apply Hup5|].
    split; [exact Hne|].
    destruct (Qltb u3 f_0_5); simpl; auto.
Qed.

Lemma gen_name_loop_Ok (capitalize : list N -> list N)
    (self : BasicLanguage) (inner : nat) (p : option (list N))
    (genitive definitive name : list N) (fuel : nat) (st st' : state) :
  gen_name_loop capitalize self inner p genitive definitive fuel st
  = Ok name st' ->
  match ortho self with
  | None => exists w, in_pool (words st') p w /\ name = capitalize w
  | Some o =>
      exists core,
        name_core capitalize (words st') p (joiner o) genitive core /\
        (name = core \/ name = definitive ++ joiner o ++ core)
  end.
Proof.
  revert st. induction fuel as [|fuel IH]; intros st; [discriminate|].
  simpl. intros H. apply bind_Ok in H as ([nm|] & st1 & Hb & H).
  - unfold ret in H. inversion H; subst. eapply gen_name_body_Ok, Hb.
  - eapply IH, H.
Qed.

(** X19: a name [gen_name] returns is one capitalized word stored for the
    pool of the call, or two different capitalized words, each stored for
    that pool or for the generic pool, separated by the joiner, with or
    without the genitive morpheme (and joiner) between them; the definite
    morpheme and the joiner may precede it.  The two morphemes are stored
    for the pools ['of'] and ['the'].  Without an orthography only the
    single word of the pool can come out. *)
Theorem gen_name_shape (capitalize : list N -> list N)
    (self : BasicLanguage) (fuel : nat) (p : option (list N))
    (st st' : state) (name : list N) :
  gen_name capitalize self fuel p st = Ok name st' ->
  exists genitive definitive,
    in_pool (morphemes st') (Some (py "of")) genitive /\
    in_pool (morphemes st') (Some (py "the")) definitive /\
    match ortho self with
    | None => exists w, in_pool (words st') p w /\ name = capitalize w
    | Some o =>
        exists core,
          name_core capitalize (words st') p (joiner o) genitive core /\
          (name = core \/ name = definitive ++ joiner o ++ core)
    end.
Proof.
  unfold gen_name. intros H.
  apply bind_Ok in H as (genitive & st1 & Hg & H).
  apply bind_Ok in H as (definitive & st2 & Hd & H).
  pose proof (ensures_Ok _ _ _ _ _ _
                (respects_get_morpheme self fuel (Some (py "the")) st1) Hd)
    as Hg12.
  pose proof (ensures_Ok _ _ _ _ _ _
                (respects_gen_name_loop capitalize self fuel p genitive
                   definitive fuel st2) H) as Hg2.
  cbv beta in Hg12, Hg2.
  apply get_morpheme_grows in Hg as [_ Hing].
  apply get_morpheme_grows in Hd as [_ Hind].
  apply gen_name_loop_Ok in H.
  exists genitive, definitive.
  split; [|split; [|exact H]].
  - eapply grows_morphemes; [exact Hg2|].
    eapply grows_morphemes; [apply morphemes_grow_grows, Hg12 | exact Hing].
  - eapply grows_morphemes; [exact Hg2 | exact Hind].
Qed.

Lemma gen_name_shape_witness :
  let st' := State (styled_orthography 1 1 ORTHO_DEFAULT).2
                   (<[ Some (py "city") := [py "pap"] ]>
                      (<[ Some (py "the") := [py "pap"] ]>
                         {[ Some (py "of") := [py "pap"] ]}))
                   {[ Some (py "city") := [py "pap"] ]}
                   {[ Some (py "city") := {[ py "Pap" ]} ]} [] in
  exists genitive definitive,
    in_pool (morphemes st') (Some (py "of")) genitive /\
    in_pool (morphemes st') (Some (py "the")) definitive /\
    match ortho (styled_language 1 1 "ptk" "ai" "CVC" 1 1) with
    | None =>
        exists w, in_pool (words st') (Some (py "city")) w /\
                  py "Pap" = ascii_capitalize w
    | Some o =>
        exists core,
          name_core ascii_capitalize (words st') (Some (py "city"))
            (joiner o) genitive core /\
          (py "Pap" = core \/ py "Pap" = definitive ++ joiner o ++ core)
    end.
Proof.
  apply (gen_name_shape ascii_capitalize
           (styled_language 1 1 "ptk" "ai" "CVC" 1 1) 2 (Some (py "city"))
           (styled_state 1 1
              [0; 0; 0; 0; 0; 0; 0; 0; 0; 0; 0; 0; 0; 0; 2 ^ 52]%N)).
  vm_compute. reflexivity.
Defined.


(** ** [build_language] *)

Lemma choose_from_Ok {A : Type} (x0 : A) (lst : list A) (st : state) :
  exists x st', choose_from (x0 :: lst) st = Ok x st' /\ x ∈ x0 :: lst /\
                rng_only st st'.
Proof.
  unfold choose_from, bind.
  destruct (rd_random_Ok st) as (k & st1 & Hk). rewrite Hk.
  destruct (choose_unit_float x0 lst k) as [x Hx]. rewrite Hx.
  exists x, st1. split; [reflexivity|]. split; [eapply choose_elem, Hx|].
  exact (ensures_Ok _ _ _ _ _ _ (respects_rd_random st) Hk).
Qed.

Lemma rd_randrange2_Ok (start stop : Z) (st : state) :
  start < stop ->
  exists v st', rd_randrange2 start stop st = Ok v st' /\
                start <= v < stop /\ rng_only st st'.
Proof.
  intros Hlt. unfold rd_randrange2.
  replace (stop - start <=? 0) with false by (symmetry; apply Z.leb_gt; lia).
  unfold bind, ret. destruct (rd_raw_Ok st) as (k & st1 & Hk). rewrite Hk.
  exists (start + Z.of_N k mod (stop - start)), st1.
  split; [reflexivity|]. split.
  - pose proof (Z.mod_pos_bound (Z.of_N k) (stop - start)). lia.
  - exact (ensures_Ok _ _ _ _ _ _ (respects_rd_raw st) Hk).
Qed.

Lemma rd_choice_Ok {A : Type} (x0 : A) (seq : list A) (st : state) :
  exists x st', rd_choice (x0 :: seq) st = Ok x st' /\ x ∈ x0 :: seq /\
                rng_only st st'.
Proof.
  unfold rd_choice, bind.
  destruct (rd_raw_Ok st) as (k & st1 & Hk). rewrite Hk.
  destruct (py_getitem_in_range (x0 :: seq)
              (Z.of_N k mod len (x0 :: seq))) as [_ [x Hx]].
  { apply Z.mod_pos_bound. unfold len. simpl. lia. }
  rewrite Hx. exists x, st1. split; [reflexivity|].
  split; [eapply py_getitem_elem, Hx|].
  exact (ensures_Ok _ _ _ _ _ _ (respects_rd_raw st) Hk).
Qed.

(** Every pattern of the inventory uses the five role letters and the
    optional marker only, and every phoneme sequence of the inventories
    is non-empty. *)
Lemma inventories_well_formed :
  forallb inventory_letters SYLL_PATTERNS = true /\
  forallb (fun s => negb (bool_decide (s = [])))
          (CON_SETS ++ VOW_SETS ++ CON_SIB ++ CON_FIN ++ CON_LIQ) = true.
Proof. split; vm_compute; reflexivity. Qed.

Lemma inventory_nonempty (sets : list (list N)) (s : list N) :
  forallb (fun s => negb (bool_decide (s = []))) sets = true ->
  s ∈ sets -> s <> [].
Proof.
  intros H Hs. rewrite forallb_forall in H.
  apply list_elem_of_In, H, negb_true_iff, bool_decide_eq_false in Hs.
  exact Hs.
Qed.

Lemma built_phonemes_fault_free (pattern c v s f l : list N) :
  pattern ∈ SYLL_PATTERNS -> c <> [] -> v <> [] -> s <> [] -> f <> [] ->
  l <> [] ->
  pattern_fault (dict [ (py "C", c); (py "V", v); (py "S", s);
                        (py "F", f); (py "L", l) ]) pattern = None.
Proof.
  intros Hp Hc Hv Hs Hf Hl. apply pattern_fault_None. intros ch Hch Hq.
  destruct inventories_well_formed as [Hwf _].
  rewrite forallb_forall in Hwf.
  apply list_elem_of_In, Hwf in Hp. unfold inventory_letters in Hp.
  rewrite forallb_forall in Hp. apply list_elem_of_In, Hp in Hch.
  simpl in Hch. rewrite !orb_true_iff, !N.eqb_eq in Hch.
  destruct Hch as [->|[->|[->|[->|[->|[->|Hch]]]]]];
    [exists c | exists v | exists s | exists f | exists l
     | exfalso; apply Hq; reflexivity | discriminate];
    (split; [reflexivity | assumption]).
Qed.

(** What the random builder assembles: one entry of every inventory, the
    two syllable counts and an orthography over the two overlays, in the
    store left by the constructors. *)
Lemma build_language_random_Ok (st : state) :
  exists pattern c v s f l lo hi co vo j st',
    build_language_random st
    = Ok (BasicLanguage_attrs
            (dict [ (py "C", c); (py "V", v); (py "S", s); (py "F", f);
                    (py "L", l) ])
            pattern
            (Some {| c_ortho := Some co; v_ortho := Some vo; joiner := [j] |})
            lo hi RESTRICTIONS) st' /\
    pattern ∈ SYLL_PATTERNS /\
    (c ∈ CON_SETS /\ v ∈ VOW_SETS /\ s ∈ CON_SIB /\ f ∈ CON_FIN /\
     l ∈ CON_LIQ) /\
    (1 <= lo < 3 /\ lo + 1 <= hi < 6) /\
    j ∈ JOINERS /\
    (morphemes st' = ∅ /\ words st' = ∅ /\ names st' = ∅).
Proof.
  unfold build_language_random.
  unfold bind at 1.
  destruct (choose_from_Ok (py "CVC") (tl SYLL_PATTERNS) st)
    as (pattern & st1 & H1 & Hpat & _).
  change (py "CVC" :: tl SYLL_PATTERNS) with SYLL_PATTERNS in H1, Hpat.
  rewrite H1. unfold bind at 1.
  destruct (choose_from_Ok (hd [] CON_SETS) (tl CON_SETS) st1)
    as (c & st2 & H2 & Hc & _).
  change (hd [] CON_SETS :: tl CON_SETS) with CON_SETS in H2, Hc.
  rewrite H2. unfold bind at 1.
  destruct (choose_from_Ok (hd [] VOW_SETS) (tl VOW_SETS) st2)
    as (v & st3 & H3 & Hv & _).
  change (hd [] VOW_SETS :: tl VOW_SETS) with VOW_SETS in H3, Hv.
  rewrite H3. unfold bind at 1.
  destruct (choose_from_Ok (hd [] CON_SIB) (tl CON_SIB) st3)
    as (s & st4 & H4 & Hs & _).
  change (hd [] CON_SIB :: tl CON_SIB) with CON_SIB in H4, Hs.
  rewrite H4. unfold bind at 1.
  destruct (choose_from_Ok (hd [] CON_FIN) (tl CON_FIN) st4)
    as (f & st5 & H5 & Hf & _).
  change (hd [] CON_FIN :: tl CON_FIN) with CON_FIN in H5, Hf.
  rewrite H5. unfold bind at 1.
  destruct (choose_from_Ok (hd [] CON_LIQ) (tl CON_LIQ) st5)
    as (l & st6 & H6 & Hl & _).
  change (hd [] CON_LIQ :: tl CON_LIQ) with CON_LIQ in H6, Hl.
  rewrite H6. unfold bind at 1.
  destruct (rd_randrange2_Ok 1 3 st6) as (lo & st7 & H7 & Hlo & _); [lia|].
  rewrite H7. unfold bind at 1.
  destruct (rd_randrange2_Ok (lo + 1) 6 st7) as (hi & st8 & H8 & Hhi & _);
    [lia|].
  rewrite H8. unfold bind at 1.
  destruct (rd_choice_Ok (hd ∅ CON_ORTHO) (tl CON_ORTHO) st8)
    as (co & st9 & H9 & _ & _).
  change (hd ∅ CON_ORTHO :: tl CON_ORTHO) with CON_ORTHO in H9.
  rewrite H9. unfold bind at 1.
  destruct (rd_choice_Ok (hd ∅ VOW_ORTHO) (tl VOW_ORTHO) st9)
    as (vo & st10 & H10 & _ & _).
  change (hd ∅ VOW_ORTHO :: tl VOW_ORTHO) with VOW_ORTHO in H10.
  rewrite H10. unfold bind at 1.
  destruct (rd_choice_Ok 32%N (tl JOINERS) st10)
    as (j & st11 & H11 & Hj & _).
  change (32%N :: tl JOINERS) with JOINERS in H11, Hj.
  rewrite H11. unfold bind at 1.
  unfold new_Orthography, Orthography_init, BasicLanguage_init. simpl.
  exists pattern, c, v, s, f, l, lo, hi, co, vo, j. eexists.
  split; [reflexivity|]. simpl. auto 10.
Qed.

Lemma inventory_fault_free (pattern c v s f l : list N) :
  pattern ∈ SYLL_PATTERNS ->
  c ∈ CON_SETS /\ v ∈ VOW_SETS /\ s ∈ CON_SIB /\ f ∈ CON_FIN /\ l ∈ CON_LIQ ->
  pattern_fault (dict [ (py "C", c); (py "V", v); (py "S", s);
                        (py "F", f); (py "L", l) ]) pattern = None.
Proof.
  intros Hpat (Hc & Hv & Hs & Hf & Hl).
  destruct inventories_well_formed as [_ Hne].
  rewrite !forallb_app in Hne.
  apply andb_true_iff in Hne as [Hcs Hne].
  apply andb_true_iff in Hne as [Hvs Hne].
  apply andb_true_iff in Hne as [Hss Hne].
  apply andb_true_iff in Hne as [Hfs Hls].
  apply built_phonemes_fault_free;
    [ exact Hpat
    | exact (inventory_nonempty _ _ Hcs Hc)
    | exact (inventory_nonempty _ _ Hvs Hv)
    | exact (inventory_nonempty _ _ Hss Hs)
    | exact (inventory_nonempty _ _ Hfs Hf)
    | exact (inventory_nonempty _ _ Hls Hl) ].
Qed.

(** X20: [build_language(random=True)] always returns, and what it
    returns is a sound configuration: a pattern of the inventory whose
    role tokens all have a non-empty phoneme sequence, an orthography
    whose joiner is one character of the joiner string, a minimum
    syllable count of 1 or 2 and a maximum above it and at most 5, the
    default restrictions, and empty registries. *)
Theorem build_language_random_sound (st : state) :
  exists lang st',
    build_language_random st = Ok lang st' /\
    syll lang ∈ SYLL_PATTERNS /\
    pattern_fault (phonemes lang) (syll lang) = None /\
    (exists o j, ortho lang = Some o /\ joiner o = [j] /\ j ∈ JOINERS) /\
    1 <= min_syll lang <= 2 /\
    min_syll lang < max_syll lang <= 5 /\
    restricts lang = RESTRICTIONS /\
    morphemes st' = ∅ /\ words st' = ∅ /\ names st' = ∅.
Proof.
  destruct (build_language_random_Ok st)
    as (pattern & c & v & s & f & l & lo & hi & co & vo & j & st' & Hrun
        & Hpat & Hsets & [Hlo Hhi] & Hj & Hreg).
  eexists. exists st'. split; [exact Hrun|]. simpl.
  split; [exact Hpat|].
  split; [now apply inventory_fault_free|].
  split; [eexists; exists j; auto|].
  split; [lia|]. split; [lia|]. split; [reflexivity | exact Hreg].
Qed.

Lemma build_language_random_inv (st st' : state) (lang : BasicLanguage) :
  build_language_random st = Ok lang st' ->
  pattern_fault (phonemes lang) (syll lang) = None /\
  ortho lang <> None /\
  1 <= min_syll lang <= 2 /\ min_syll lang < max_syll lang <= 5.
Proof.
  intros H.
  destruct (build_language_random_Ok st)
    as (pattern & c & v & s & f & l & lo & hi & co & vo & j & st1 & Hrun
        & Hpat & Hsets & [Hlo Hhi] & _).
  rewrite H in Hrun. inversion Hrun; subst. simpl.
  split; [now apply inventory_fault_free|].
  split; [discriminate|]. lia.
Qed.

(** X21: generation on a language built by [build_language(random=True)]
    never raises: no call of [gen_syllable], [get_morpheme], [get_word] or
    [gen_name] on it ends with an exception, in any store. *)
Theorem built_language_never_raises (capitalize : list N -> list N)
    (st0 st0' : state) (lang : BasicLanguage) :
  build_language_random st0 = Ok lang st0' ->
  forall fuel p st e st',
    gen_syllable lang fuel st <> Raise e st' /\
    get_morpheme lang fuel p st <> Raise e st' /\
    get_word lang fuel p st <> Raise e st' /\
    gen_name capitalize lang fuel p st <> Raise e st'.
Proof.
  intros H fuel p st e st'.
  apply build_language_random_inv in H as (Hf & Ho & _).
  split; [now apply gen_syllable_no_fault|].
  split; [|split]; intros Hr.
  - exact (ensures_Raise _ _ _ _ _ _
             (raises_only_get_morpheme (fun _ => False) lang fuel p Hf st) Hr).
  - exact (ensures_Raise _ _ _ _ _ _
             (raises_only_get_word (fun _ => False) lang fuel p Hf st) Hr).
  - destruct (ensures_Raise _ _ _ _ _ _
                (raises_only_gen_name capitalize lang Hf fuel p st) Hr)
      as [_ Hnone].
    contradiction.
Qed.

Lemma built_language_never_raises_witness :
  gen_syllable first_built_language 1 (styled_state 0 0 [])
  <> Raise KeyError (styled_state 0 0 []) /\
  get_morpheme first_built_language 1 None (styled_state 0 0 [])
  <> Raise KeyError (styled_state 0 0 []) /\
  get_word first_built_language 1 None (styled_state 0 0 [])
  <> Raise KeyError (styled_state 0 0 []) /\
  gen_name ascii_capitalize first_built_language 1 None (styled_state 0 0 [])
  <> Raise KeyError (styled_state 0 0 []).
Proof.
  apply (built_language_never_raises ascii_capitalize (initial_state [])
           (styled_state 0 0 []) first_built_language).
  vm_compute. reflexivity.
Defined.

(** X22: on a language built by [build_language(random=True)] the number
    of morphemes of a word lies between [min_syll] and [max_syll]: the
    bounds the builder draws always make [max_syll - min_syll + 1] fall
    in that range. *)
Theorem built_language_word_length (st0 st0' : state) (lang : BasicLanguage)
    (fuel : nat) (p : option (list N)) (st st' : state) (w : list N) :
  build_language_random st0 = Ok lang st0' ->
  gen_word lang fuel p st = Ok w st' ->
  exists ms,
    w = concat ms /\ Forall (in_pool (morphemes st') p) ms /\
    min_syll lang <= len ms <= max_syll lang.
Proof.
  intros H Hw. apply build_language_random_inv in H as (_ & _ & Hlo & Hhi).
  unfold gen_word in Hw. apply bind_Ok in Hw as (ms & st1 & Hms & Hw).
  unfold ret in Hw. inversion Hw; subst. exists ms.
  apply get_morphemes_Ok in Hms as [Hlen Hall].
  split; [reflexivity|]. split; [exact Hall|].
  unfold len, range_len in *. lia.
Qed.

Lemma built_language_word_length_witness :
  exists ms,
    py "pappap" = concat ms /\
    Forall (in_pool
              (morphemes (State (styled_orthography 0 0 ORTHO_DEFAULT).2
                                {[ None := [py "pap"] ]} ∅ ∅ []))
              None) ms /\
    min_syll first_built_language <= len ms <= max_syll first_built_language.
Proof.
  apply (built_language_word_length (initial_state []) (styled_state 0 0 [])
           first_built_language 1 None (styled_state 0 0 [])).
  - vm_compute. reflexivity.
  - vm_compute. reflexivity.
Defined.

(** ** A pattern without tokens *)

(** X23: a language with the empty syllable pattern never gets a name:
    its bounds are [min_char = 1] and [max_char = 0], so no candidate has
    an admissible length and [gen_name] does not return. *)
Theorem gen_name_empty_pattern_never_returns (capitalize : list N -> list N)
    (phon : gmap (list N) (list N)) (o : option Orthography) (lo hi : Z)
    (restr : list regex) (fuel : nat) (p : option (list N))
    (st st' : state) (name : list N) :
  gen_name capitalize (BasicLanguage_attrs phon [] o lo hi restr) fuel p st
  <> Ok name st'.
Proof.
  intros H.
  destruct (ensures_Ok _ _ _ _ _ _
              (gen_name_spec capitalize
                 (BasicLanguage_attrs phon [] o lo hi restr) fuel p st) H)
    as (_ & Hlen & _).
  simpl in Hlen. unfold len in Hlen. simpl in Hlen. lia.
Qed.
